(** * BotVuelos: the price bot of [price_bot_amadeus.py]

    A shallow embedding of the parts of [price_bot_amadeus.py] that decide
    which offer is kept and whether an alert is sent:

    - [daterange] (a generator) and the capped [for] loop that consumes it;
    - [price_of], Python's [min(..., key=price_of)] and the selection loop of
      [buscar_mejor_precio_amadeus];
    - the carrier codes that [main] collects for the message, and the
      decision of [main] (new minimum, drop against the stored minimum,
      target price), with [load_state] / [save_state] / [send_telegram];
    - [to_iso], [get_amadeus_token] and the retry of [do_request].

    Prices are Python floats, that is IEEE 754 binary64 numbers.  They are
    modelled by the Standard Library's executable specification of binary
    floating point ([SpecFloat], [prec = 53], [emax = 1024]), so that NaN,
    the infinities, signed zeros and rounding behave as they do in Python.
    The model has two levels.  A run ([main], the [__main__] block and the
    loops of [buscar_mejor_precio_amadeus]) sees each call of [do_request]
    as one step: the call is recorded in a trace with its parameters, and
    what the call gives back, a list of offers or an exception, is an oracle
    of the environment.  What goes on inside one call (the GET, the token
    cache, the second GET after a 401, the error body that is logged) is
    modelled apart, by [do_request_http] and [get_amadeus_token]. *)

From Stdlib Require Import ZArith Lia List Bool String Sorted.
From Stdlib Require Import SpecFloat.
Import ListNotations.
Open Scope Z_scope.

(** ** Exceptions and fallible results *)

(** The Python exceptions that the modelled code can raise.  [OutOfFuel] is
    not a Python exception: it is the answer of the loop model when its fuel
    is exhausted, which [for_loop_fuel_enough] shows never happens. *)
Inductive exn : Type :=
| OverflowError        (* date arithmetic beyond [date.max] *)
| ZeroDivisionError    (* float division by zero *)
| RuntimeError         (* a credential is missing from the environment *)
| RequestException     (* [raise_for_status] or a transport failure *)
| TotalError           (* [float(offer["price"]["total"])] raised *)
| TypeError            (* [sorted] or [", ".join] on a carrier code that is
                          not a string *)
| OutOfFuel.

Inductive result (A : Type) : Type :=
| Ok (a : A)
| Err (e : exn).
Arguments Ok {A} a.
Arguments Err {A} e.

(** ** Python floats *)

Module PyFloat.

Definition prec : Z := 53.
Definition emax : Z := 1024.

(** A Python [float]; every float that Python builds satisfies [valid]. *)
Definition pyfloat : Type := spec_float.

Definition valid (x : pyfloat) : bool := valid_binary prec emax x.

(** [float("inf")] *)
Definition inf : pyfloat := S754_infinity false.

(** The float of a small integer literal, as in [... * 100]. *)
Definition of_int (z : Z) : pyfloat := binary_normalize prec emax z 0 false.

Definition is_nan (x : pyfloat) : bool :=
  match x with S754_nan => true | _ => false end.

Definition is_zero (x : pyfloat) : bool :=
  match x with S754_zero _ => true | _ => false end.

(** [x < y] and [x <= y] on floats: false as soon as one side is NaN. *)
Definition flt (x y : pyfloat) : bool := SFltb x y.
Definition fle (x y : pyfloat) : bool := SFleb x y.

Definition fsub (x y : pyfloat) : pyfloat := SFsub prec emax x y.
Definition fmul (x y : pyfloat) : pyfloat := SFmul prec emax x y.

(** [x / y]: Python raises [ZeroDivisionError] when [y == 0.0], whatever
    [x] is; otherwise the IEEE quotient. *)
Definition fdiv (x y : pyfloat) : result pyfloat :=
  if is_zero y then Err ZeroDivisionError else Ok (SFdiv prec emax x y).

(** A configured number: the source writes integer literals
    ([PRECIO_OBJETIVO = 600], [BAJA_MINIMA_PCT = 8]); a float is accepted
    as well. *)
Inductive pynum : Type :=
| PyInt (z : Z)
| PyFloat (f : pyfloat).

(** Python compares a float with an [int] exactly (no conversion of the
    integer to a float). *)
Definition cmp_int (x : pyfloat) (z : Z) : option comparison :=
  match x with
  | S754_nan => None
  | S754_infinity s => Some (if s then Lt else Gt)
  | S754_zero _ => Some (0 ?= z)
  | S754_finite s m e =>
      let v := cond_Zopp s (Zpos m) in
      Some match e with
           | Zneg k => v ?= z * 2 ^ Zpos k
           | _ => v * 2 ^ e ?= z
           end
  end.

Definition cmp_num (x : pyfloat) (n : pynum) : option comparison :=
  match n with
  | PyInt z => cmp_int x z
  | PyFloat f => SFcompare x f
  end.

(** [x <= n] and [x >= n] for a float [x] and a configured number [n]. *)
Definition fle_num (x : pyfloat) (n : pynum) : bool :=
  match cmp_num x n with Some (Lt | Eq) => true | _ => false end.
Definition fge_num (x : pyfloat) (n : pynum) : bool :=
  match cmp_num x n with Some (Gt | Eq) => true | _ => false end.

(** [0 < n] for a configured number. *)
Definition num_positive (n : pynum) : bool :=
  match n with
  | PyInt z => 0 <? z
  | PyFloat f => flt (S754_zero false) f
  end.

(** Nearest integer to [n / d] ([0 < d]), ties to even. *)
Definition round_half_even_div (n d : Z) : Z :=
  let q := n / d in
  match 2 * (n mod d) ?= d with
  | Lt => q
  | Gt => q + 1
  | Eq => if Z.even q then q else q + 1
  end.

(** [round(x, 2)] on a float.  CPython rounds the exact binary value of
    [x] to two decimals, ties to even, and returns the float nearest to
    that decimal; NaN, the infinities and the zeros are returned as they
    are, and the sign is kept ([round(-0.001, 2)] is [-0.0]).  Here [n] is
    the exact value of [|x| * 100] rounded to an integer and the result is
    the correctly rounded quotient [n / 100]. *)
Definition round2 (x : pyfloat) : pyfloat :=
  match x with
  | S754_finite s m e =>
      let n := match e with
               | Zneg k => round_half_even_div (100 * Zpos m) (2 ^ Zpos k)
               | _ => 100 * Zpos m * 2 ^ e
               end in
      match n with
      | Zpos p => SFdiv prec emax (S754_finite s p 0) (S754_finite false 100 0)
      | _ => S754_zero s
      end
  | _ => x
  end.

(** Floats that are zero, negative or NaN: none of them reaches a
    positive threshold. *)
Definition nonpos_or_nan (x : pyfloat) : bool :=
  match x with
  | S754_nan | S754_zero _ => true
  | S754_infinity s | S754_finite s _ _ => s
  end.

(** Strictly positive floats, [+inf] included. *)
Definition is_positive (x : pyfloat) : bool := flt (S754_zero false) x.

(** Zeros and finite non-zero floats. *)
Definition is_finite (x : pyfloat) : bool :=
  match x with
  | S754_zero _ | S754_finite _ _ _ => true
  | _ => false
  end.

(** [x] carries the sign bit [s], or is NaN. *)
Definition has_sign (s : bool) (x : pyfloat) : Prop :=
  match x with
  | S754_nan => True
  | S754_zero s' | S754_infinity s' | S754_finite s' _ _ => s' = s
  end.

End PyFloat.
Import PyFloat.

Definition bindR {A B : Type} (r : result A) (k : A -> result B) : result B :=
  match r with
  | Ok a => k a
  | Err e => Err e
  end.

Notation "x <-? r ;; k" := (bindR r (fun x => k))
  (at level 61, r at next level, right associativity).

(** ** Dates *)

(** A [datetime.date] is identified with its proleptic Gregorian ordinal
    ([date.toordinal()]): comparison of dates is comparison of ordinals and
    adding a [timedelta] of [n] days adds [n]. *)
Abbreviation date := Z (only parsing).

(** [date.max.toordinal()], the ordinal of 9999-12-31. *)
Definition MAXORDINAL : Z := 3652059.

(** [d + dt.timedelta(days=n)]: [OverflowError] outside
    [date.min .. date.max]. *)
Definition date_add (d : date) (n : Z) : result date :=
  if (1 <=? d + n) && (d + n <=? MAXORDINAL) then Ok (d + n)
  else Err OverflowError.

Definition is_leap (y : Z) : bool :=
  (y mod 4 =? 0) && (negb (y mod 100 =? 0) || (y mod 400 =? 0)).

Definition days_before_year (y : Z) : Z :=
  let p := y - 1 in p * 365 + p / 4 - p / 100 + p / 400.

Definition days_before_month (y m : Z) : Z :=
  nth (Z.to_nat m) [0; 0; 31; 59; 90; 120; 151; 181; 212; 243; 273; 304; 334] 0
  + (if (2 <? m) && is_leap y then 1 else 0).

(** The ordinal of the date [d/m/y], as [date(y, m, d).toordinal()]. *)
Definition ymd (y m d : Z) : date :=
  days_before_year y + days_before_month y m + d.

(** ** Configuration, offers and persisted state *)

(** The constants of the CONFIGURACION block.  The two dates are the
    values of [dt.date.fromisoformat(to_iso(FECHA_DESDE))] and
    [dt.date.fromisoformat(to_iso(FECHA_HASTA))]. *)
Record config : Type := {
  ORIGEN : string;
  DESTINO : string;
  FECHA_DESDE : date;
  FECHA_HASTA : date;
  SOLO_IDA : bool;
  NOCHES_MIN : Z;
  NOCHES_MAX : Z;
  MONEDA : string;
  PRECIO_OBJETIVO : pynum;
  BAJA_MINIMA_PCT : pynum;
  MAX_DIAS : Z
}.

(** The values written in the source. *)
Definition source_config : config := {|
  ORIGEN := "EZE";
  DESTINO := "MAD";
  FECHA_DESDE := ymd 2025 11 1;
  FECHA_HASTA := ymd 2025 12 15;
  SOLO_IDA := false;
  NOCHES_MIN := 7;
  NOCHES_MAX := 21;
  MONEDA := "USD";
  PRECIO_OBJETIVO := PyInt 600;
  BAJA_MINIMA_PCT := PyInt 8;
  MAX_DIAS := 20
|}.

(** The route summary [f"{ORIGEN}->{DESTINO}"], kept as the pair of codes. *)
Definition route : Type := (string * string)%type.

(** What [seg["carrierCode"]] gives when it can be added to a set: a
    string, or another hashable JSON value, [null] or a number ([true] and
    [false] are the numbers 1 and 0 to a Python set; the model keeps the
    integers). *)
Inductive carrier_code : Type :=
| CodeStr (s : string)
| CodeNull
| CodeNum (n : Z).

(** The loops of [main] over [offer["itineraries"]], as far as they read
    it: [it["segments"]] gives the segments of an itinerary and
    [carriers.add(seg["carrierCode"])] adds the code of a segment, or either
    of them raises ([None]: a missing key, a value that cannot be indexed or
    iterated, a code that cannot be hashed). *)
Abbreviation segment := (option carrier_code) (only parsing).
Abbreviation itinerary := (option (list (option carrier_code))) (only parsing).

(** A flight offer: one JSON object of the [data] array of a response.
    [o_total] is the value of [float(o["price"]["total"])], [None] when that
    expression raises (missing key, text that is not a number, ...).
    [o_itineraries] is what iterating [o["itineraries"]] gives, [None] when
    that raises.  [o_nights] and [o_route_summary] are the keys ["_nights"]
    and ["_route_summary"] that the bot adds. *)
Record offer : Type := {
  o_id : string;
  o_total : option pyfloat;
  o_currency : option string;
  o_itineraries : option (list itinerary);
  o_nights : option Z;
  o_route_summary : option route
}.

(** [o["_nights"] = v], where [v] may be [None]. *)
Definition with_nights (v : option Z) (o : offer) : offer :=
  {| o_id := o_id o; o_total := o_total o; o_currency := o_currency o;
     o_itineraries := o_itineraries o;
     o_nights := v; o_route_summary := o_route_summary o |}.

(** [item["_nights"] = nights] *)
Definition set_nights (nights : Z) (o : offer) : offer :=
  with_nights (Some nights) o.

(** [best_offer["_route_summary"] = ...] *)
Definition set_route_summary (r : route) (o : offer) : offer :=
  {| o_id := o_id o; o_total := o_total o; o_currency := o_currency o;
     o_itineraries := o_itineraries o;
     o_nights := o_nights o; o_route_summary := Some r |}.

(** The content of [price_state.json]; the dictionary of a file that does
    not exist yet is [empty_state].  The file is written by [save_state]
    only, so it holds well-formed JSON and its ["min_price"], when there is
    one, is a float ([json] writes and reads NaN and the infinities as they
    are). *)
Record price_state : Type := {
  min_price : option pyfloat;
  min_when : option string;
  min_route : option route
}.

Definition empty_state : price_state :=
  {| min_price := None; min_when := None; min_route := None |}.

(** The reasons of an alert, in the order they are appended to [motivos]:
    - [PrimerPrecio]: "Primer precio (se guarda como minimo)."
    - [NuevoMinimo d]: "Nuevo minimo historico (v d %)."
    - [Baja d]: "Baja de d % vs. minimo guardado."
    - [PrecioObjetivo]: "Precio <= objetivo (...)." *)
Inductive motivo : Type :=
| PrimerPrecio
| NuevoMinimo (drop_pct : pyfloat)
| Baja (drop_pct : pyfloat)
| PrecioObjetivo.

(** The data that the Telegram message is formatted from. *)
Record message : Type := {
  msg_carriers : string;
  msg_total : pyfloat;
  msg_currency : string;
  msg_nights : option Z;
  msg_min : option pyfloat;
  msg_motivos : list motivo
}.

(** The lines that [main] and the [__main__] block write to the log:
    - [LogBuscando]: "Buscando precio (Amadeus)..."
    - [LogSinResultados]: "Sin resultados"
    - [LogAlerta]: "ALERTA enviada. Precio: ... Motivos: ..."
    - [LogSinAlerta]: "Sin alerta. Precio: ... Prev_min: ..."
    - [LogError]: "ERROR: ...", the line of the handler of the [__main__]
      block. *)
Inductive log_line : Type :=
| LogBuscando
| LogSinResultados
| LogAlerta (total : pyfloat) (motivos : list motivo)
| LogSinAlerta (total : pyfloat) (prev_min : option pyfloat)
| LogError (e : exn).

(** ** Effects: a trace of what the run did, over a small state monad *)

(** [EvDate] marks [count_days += 1], the point where the loop commits to a
    departure date.  [EvRequest] is a call of [do_request] with the
    parameters of its GET.  [EvTelegram] is a call of [send_telegram],
    recorded before Telegram answers, and [EvTelegramError] is the post of
    the [__main__] block.  The other events are the run's input and output.
    The log lines are those of [main] and of the [__main__] block; the error
    bodies that [do_request] and [get_amadeus_token] log are events of
    [do_request_http]. *)
Inductive event : Type :=
| EvDate (dep_date : date)
| EvRequest (dep_date : date) (ret_date : option date)
| EvLoadState
| EvSaveState (st : price_state)
| EvTelegram (m : message)
| EvTelegramError (e : exn)
| EvLog (l : log_line).

(** What a run reads from outside: whether the two Telegram credentials
    and the two Amadeus credentials are set, what the call of
    [get_amadeus_token] at the head of the search gives, what each call of
    [do_request] gives (after its retry, [raise_for_status] and
    [r.json()]), the clock, and whether Telegram accepts a message. *)
Record env : Type := {
  telegram_credentials : bool;
  amadeus_credentials : bool;
  token : result unit;
  search : date -> option date -> result (list offer);
  now : string;
  telegram : result unit
}.

(** What a run changes: the state file ([None] while it does not exist) and
    the trace, oldest event first. *)
Record world : Type := {
  state_file : option price_state;
  trace : list event
}.

Definition M (A : Type) : Type := world -> result A * world.

Definition ret {A : Type} (a : A) : M A := fun w => (Ok a, w).

Definition raise {A : Type} (e : exn) : M A := fun w => (Err e, w).

Definition bind {A B : Type} (m : M A) (k : A -> M B) : M B :=
  fun w =>
    match m w with
    | (Ok a, w') => k a w'
    | (Err e, w') => (Err e, w')
    end.

Definition lift {A : Type} (r : result A) : M A := fun w => (r, w).

Definition emit (ev : event) : M unit :=
  fun w => (Ok tt, {| state_file := state_file w; trace := trace w ++ [ev] |}).

Notation "x <- m ;; k" := (bind m (fun x => k))
  (at level 61, m at next level, right associativity).
Notation "m ;;; k" := (bind m (fun _ => k))
  (at level 61, right associativity).

(** ** [daterange]: the generator *)

(** The generator object of [daterange(d1, d2)]: not started yet, or
    suspended at its [yield] with the current [d1]. *)
Inductive gen : Type :=
| GFresh (d1 d2 : date)
| GSuspended (d1 d2 : date).

(** The outcome of [next(g)]. *)
Inductive gen_result : Type :=
| Yield (d : date) (g : gen)
| Stop
| Raise (e : exn).

(** [while d1 <= d2: yield d1; d1 += step].  Resuming after the [yield]
    first runs [d1 += step], which overflows past [date.max]. *)
Definition while_yield (d1 d2 : date) : gen_result :=
  if d1 <=? d2 then Yield d1 (GSuspended d1 d2) else Stop.

Definition gen_next (g : gen) : gen_result :=
  match g with
  | GFresh d1 d2 => while_yield d1 d2
  | GSuspended d1 d2 =>
      match date_add d1 1 with
      | Ok d1' => while_yield d1' d2
      | Err e => Raise e
      end
  end.

Definition daterange (d1 d2 : date) : gen := GFresh d1 d2.

(** [range(a, b)] *)
Definition py_range (a b : Z) : list Z :=
  map (fun i => a + Z.of_nat i) (seq 0 (Z.to_nat (b - a))).

(** ** The cheapest-offer search *)

(** [price_of]: the parsed total, [float("inf")] when parsing raises. *)
Definition price_of (o : offer) : pyfloat :=
  match o_total o with
  | Some p => p
  | None => inf
  end.

(** [min(candidates, key=price_of)] on a non-empty list whose first item is
    [first]: a later item replaces the current minimum only when its key is
    strictly smaller. *)
Definition py_min (first : offer) (others : list offer) : offer :=
  fold_left (fun m v => if flt (price_of v) (price_of m) then v else m)
            others first.

(** ** The carriers of the selected offer *)

Definition code_eqb (a b : carrier_code) : bool :=
  match a, b with
  | CodeStr s, CodeStr t => String.eqb s t
  | CodeNull, CodeNull => true
  | CodeNum n, CodeNum m => n =? m
  | _, _ => false
  end.

(** [carriers.add(code)], the set kept as a list without duplicates. *)
Definition set_add (code : carrier_code) (carriers : list carrier_code)
  : list carrier_code :=
  if existsb (code_eqb code) carriers then carriers
  else carriers ++ [code].

(** The inner loop [for seg in it["segments"]]; [false] when a lookup
    raised, which leaves both loops. *)
Fixpoint add_segments (segs : list segment) (carriers : list carrier_code)
  : list carrier_code * bool :=
  match segs with
  | [] => (carriers, true)
  | Some code :: rest => add_segments rest (set_add code carriers)
  | None :: _ => (carriers, false)
  end.

(** The outer loop [for it in offer["itineraries"]]. *)
Fixpoint add_itineraries (its : list itinerary)
         (carriers : list carrier_code) : list carrier_code * bool :=
  match its with
  | [] => (carriers, true)
  | Some segs :: rest =>
      let '(carriers', ok) := add_segments segs carriers in
      if ok then add_itineraries rest carriers' else (carriers', false)
  | None :: _ => (carriers, false)
  end.

(** The set after the [try]: [except Exception: pass] keeps what was added
    before the exception. *)
Definition carriers (offer : offer) : list carrier_code :=
  match o_itineraries offer with
  | Some its => fst (add_itineraries its [])
  | None => []
  end.

(** The codes of a set of strings; nothing when a code is not a string. *)
Fixpoint strings_of (codes : list carrier_code) : option (list string) :=
  match codes with
  | [] => Some []
  | CodeStr s :: rest =>
      match strings_of rest with
      | Some l => Some (s :: l)
      | None => None
      end
  | _ :: _ => None
  end.

(** [sorted] on strings, which Python compares character by character. *)
Fixpoint insert_sorted (s : string) (l : list string) : list string :=
  match l with
  | [] => [s]
  | x :: rest =>
      if (s <=? x)%string then s :: l else x :: insert_sorted s rest
  end.

Definition sorted (l : list string) : list string :=
  fold_right insert_sorted [] l.

(** [", ".join(sorted(list(carriers))) if carriers else "N/D"], which is
    outside the [try].  With a code that is not a string in the set,
    [sorted] raises [TypeError] when it compares it with another code, and
    [join] raises [TypeError] when [sorted] went through. *)
Definition carriers_str (offer : offer) : result string :=
  match carriers offer with
  | [] => Ok "N/D"%string
  | _ :: _ =>
      match strings_of (carriers offer) with
      | Some l => Ok (String.concat ", " (sorted l))
      | None => Err TypeError
      end
  end.

Section Bot.

Variable cfg : config.
Variable e : env.

(** [do_request(params)] as the loops see it: the call is made, then its
    data or its failure comes back. *)
Definition do_request (dep_date : date) (ret_date : option date)
  : M (list offer) :=
  emit (EvRequest dep_date ret_date) ;;;
  lift (search e dep_date ret_date).

(** The round-trip sweep [for nights in range(NOCHES_MIN, NOCHES_MAX + 1)],
    with [candidates] as accumulated so far. *)
Fixpoint sweep (dep_date : date) (nights_range : list Z)
         (candidates : list offer) : M (list offer) :=
  match nights_range with
  | [] => ret candidates
  | nights :: rest =>
      ret_date <- lift (date_add dep_date nights) ;;
      data <- do_request dep_date (Some ret_date) ;;
      sweep dep_date rest (candidates ++ map (set_nights nights) data)
  end.

(** The candidates of one departure date. *)
Definition candidates_of (dep_date : date) : M (list offer) :=
  if SOLO_IDA cfg then do_request dep_date None
  else sweep dep_date (py_range (NOCHES_MIN cfg) (NOCHES_MAX cfg + 1)) [].

(** The tags put on the new best offer: the route summary and, for a
    round trip, [best_offer["_nights"] = cheapest.get("_nights")]. *)
Definition tag_best (cheapest : offer) : offer :=
  let best_offer := set_route_summary (ORIGEN cfg, DESTINO cfg) cheapest in
  if SOLO_IDA cfg then best_offer
  else with_nights (o_nights cheapest) best_offer.

(** The end of the loop body: nothing changes without candidates;
    otherwise the cheapest candidate replaces [best_offer] when there is
    none yet or when it is strictly cheaper, and is tagged. *)
Definition update_best (best_offer : option offer) (candidates : list offer)
  : option offer :=
  match candidates with
  | [] => best_offer
  | c :: cs =>
      let cheapest := py_min c cs in
      let take :=
        match best_offer with
        | None => true
        | Some b => flt (price_of cheapest) (price_of b)
        end in
      if take then Some (tag_best cheapest) else best_offer
  end.

(** [for dep_date in daterange(...)] with its [break] on [MAX_DIAS]. *)
Fixpoint for_loop (fuel : nat) (g : gen) (count_days : Z)
         (best_offer : option offer) : M (option offer) :=
  match fuel with
  | O => raise OutOfFuel
  | S fuel' =>
      match gen_next g with
      | Stop => ret best_offer
      | Raise ex => raise ex
      | Yield dep_date g' =>
          if MAX_DIAS cfg <=? count_days then ret best_offer
          else
            emit (EvDate dep_date) ;;;
            candidates <- candidates_of dep_date ;;
            for_loop fuel' g' (count_days + 1)
                     (update_best best_offer candidates)
      end
  end.

(** Iterations that the loop can need: one per counted day, and the one
    that breaks. *)
Definition loop_fuel : nat := S (Z.to_nat (MAX_DIAS cfg)).

Definition buscar_mejor_precio_amadeus : M (option offer) :=
  lift (token e) ;;;
  for_loop loop_fuel (daterange (FECHA_DESDE cfg) (FECHA_HASTA cfg)) 0 None.

(** ** The alert decision and [main] *)

Definition log (l : log_line) : M unit := emit (EvLog l).

Definition load_state : M price_state :=
  emit EvLoadState ;;;
  fun w => (Ok match state_file w with
               | Some st => st
               | None => empty_state
               end, w).

Definition save_state (st : price_state) : M unit :=
  fun w => (Ok tt, {| state_file := Some st;
                      trace := trace w ++ [EvSaveState st] |}).

Definition send_telegram (m : message) : M unit :=
  emit (EvTelegram m) ;;;
  lift (telegram e).

(** [round((prev_min - total_price) * 100 / prev_min, 2)] *)
Definition drop_pct (prev_min total_price : pyfloat) : result pyfloat :=
  q <-? fdiv (fmul (fsub prev_min total_price) (of_int 100)) prev_min ;;
  Ok (round2 q).

(** The assignments to [state] of the new-minimum branch. *)
Definition record_min (total_price : pyfloat) (route_sum : route)
           (state : price_state) : price_state :=
  {| min_price := Some total_price;
     min_when := Some (now e);
     min_route := Some route_sum |}.

(** The decision of [main], from [prev_min = state.get("min_price")] to
    the last update of [motivos]: the alert flag, the reasons and the
    state to save.  The test [prev_min is None or total_price < prev_min]
    and the test [prev_min is None] nested in it are the three cases of
    the match. *)
Definition alert_decision (total_price : pyfloat) (route_sum : route)
           (state : price_state)
  : result (bool * list motivo * price_state) :=
  r <-? match min_price state with
        | None =>
            Ok (true, [PrimerPrecio], record_min total_price route_sum state)
        | Some prev_min =>
            if flt total_price prev_min then
              d <-? drop_pct prev_min total_price ;;
              Ok (true, [NuevoMinimo d],
                  record_min total_price route_sum state)
            else
              d <-? drop_pct prev_min total_price ;;
              if fge_num d (BAJA_MINIMA_PCT cfg)
              then Ok (true, [Baja d], state)
              else Ok (false, [], state)
        end ;;
  let '(debe_alertar, motivos, state') := r in
  if fle_num total_price (PRECIO_OBJETIVO cfg)
  then Ok (true, motivos ++ [PrecioObjetivo], state')
  else Ok (debe_alertar, motivos, state').

(** [state.get("min_price")] as the message shows it: only when truthy. *)
Definition shown_min (st : price_state) : option pyfloat :=
  match min_price st with
  | Some p => if is_zero p then None else Some p
  | None => None
  end.

(** [offer["price"].get("currency", MONEDA)] *)
Definition currency_of (offer : offer) : string :=
  match o_currency offer with
  | Some c => c
  | None => MONEDA cfg
  end.

(** [offer.get("_route_summary", f"{ORIGEN}->{DESTINO}")] *)
Definition route_sum_of (offer : offer) : route :=
  match o_route_summary offer with
  | Some r => r
  | None => (ORIGEN cfg, DESTINO cfg)
  end.

(** [float(offer["price"]["total"])], unguarded in [main]. *)
Definition total_of (offer : offer) : result pyfloat :=
  match o_total offer with
  | Some p => Ok p
  | None => Err TotalError
  end.

Definition build_message (offer : offer) (total_price : pyfloat)
           (carriers_str : string) (state : price_state)
           (motivos : list motivo) : message :=
  {| msg_carriers := carriers_str;
     msg_total := total_price;
     msg_currency := currency_of offer;
     msg_nights := if SOLO_IDA cfg then None else o_nights offer;
     msg_min := shown_min state;
     msg_motivos := motivos |}.

Definition main : M unit :=
  if negb (telegram_credentials e && amadeus_credentials e)
  then raise RuntimeError
  else
    log LogBuscando ;;;
    offer <- buscar_mejor_precio_amadeus ;;
    match offer with
    | None => log LogSinResultados
    | Some offer =>
        total_price <- lift (total_of offer) ;;
        carriers_str <- lift (carriers_str offer) ;;
        state <- load_state ;;
        d <- lift (alert_decision total_price (route_sum_of offer) state) ;;
        let '(debe_alertar, motivos, state') := d in
        save_state state' ;;;
        let msg := build_message offer total_price carriers_str state'
                     motivos in
        if debe_alertar then
          send_telegram msg ;;;
          log (LogAlerta total_price motivos)
        else
          log (LogSinAlerta total_price (min_price state))
    end.

(** The [if __name__ == "__main__"] block: a failure of [main] is logged,
    reported to Telegram when the two Telegram credentials are there
    (whatever that call does is swallowed), and raised again. *)
Definition script : M unit :=
  fun w =>
    match main w with
    | (Ok tt, w') => (Ok tt, w')
    | (Err ex, w') =>
        ((log (LogError ex) ;;;
          (if telegram_credentials e then emit (EvTelegramError ex)
           else ret tt) ;;;
          raise ex) w')
    end.

End Bot.

(** One run of the script on a world, and a sequence of runs, each with its
    own configuration and environment. *)
Definition run (ce : config * env) (w : world) : world :=
  snd (script (fst ce) (snd ce) w).

Definition runs (ces : list (config * env)) (w : world) : world :=
  fold_left (fun w ce => run ce w) ces w.

(** The stored minimum of a world. *)
Definition stored_min (w : world) : option pyfloat :=
  match state_file w with
  | Some st => min_price st
  | None => None
  end.

(** ** Vocabulary of the properties *)

(** The departure dates that a trace consumed, in order. *)
Definition dates_of (tr : list event) : list date :=
  flat_map (fun ev => match ev with EvDate d => [d] | _ => [] end) tr.

(** [n] consecutive dates from [d] on. *)
Definition consecutive (d : date) (n : nat) : list date :=
  map (fun i => d + Z.of_nat i) (seq 0 n).

(** The date that a generator yields next if it yields, and the end of its
    window. *)
Definition next_date (g : gen) : date :=
  match g with
  | GFresh d1 _ => d1
  | GSuspended d1 _ => d1 + 1
  end.

Definition last_date (g : gen) : date :=
  match g with
  | GFresh _ d2 | GSuspended _ d2 => d2
  end.


(** Events of the search: a date taken up, a request issued. *)
Definition is_request (ev : event) : bool :=
  match ev with EvRequest _ _ => true | _ => false end.

Definition is_search_event (ev : event) : bool :=
  match ev with EvDate _ | EvRequest _ _ => true | _ => false end.

(** The requests of a trace, in order: departure date and return date. *)
Definition requests_of (tr : list event) : list (date * option date) :=
  flat_map (fun ev => match ev with
                      | EvRequest dep ret => [(dep, ret)]
                      | _ => []
                      end) tr.

(** The order of the enumeration: dates ascending, and for one date the
    return dates (the nights) ascending. *)
Definition request_before (a b : date * option date) : Prop :=
  fst a < fst b \/
  (fst a = fst b /\
   match snd a, snd b with
   | Some r1, Some r2 => r1 < r2
   | _, _ => False
   end).

(** A suspended generator has yielded a date of its window. *)
Definition gen_wf (g : gen) : Prop :=
  match g with
  | GFresh _ _ => True
  | GSuspended d1 d2 => d1 <= d2
  end.

(** Every date arithmetic of a search over the configured window stays
    within [date.min .. date.max]. *)
Definition dates_in_range (cfg : config) : Prop :=
  1 <= FECHA_DESDE cfg + Z.min 0 (NOCHES_MIN cfg) /\
  FECHA_HASTA cfg + Z.max 1 (NOCHES_MAX cfg) <= MAXORDINAL.

(** The offers brought by one event: the data of the request, tagged with
    the nights of the stay as the round-trip sweep tags them; a failed
    request and any other event bring nothing. *)
Definition seen_by (e : env) (ev : event) : list offer :=
  match ev with
  | EvRequest dep ret =>
      match search e dep ret with
      | Ok data =>
          match ret with
          | Some r => map (set_nights (r - dep)) data
          | None => data
          end
      | Err _ => []
      end
  | _ => []
  end.

(** The candidates accumulated by a trace: everything that its requests
    returned, in the order of the requests. *)
Definition candidates_seen (e : env) (tr : list event) : list offer :=
  flat_map (seen_by e) tr.

(** [o] is the cheapest offer of [cs], first seen: strictly cheaper than
    everything before it and at most as expensive as everything after. *)
Definition first_cheapest (o : offer) (cs : list offer) : Prop :=
  exists before after,
    cs = before ++ o :: after /\
    Forall (fun c => flt (price_of o) (price_of c) = true) before /\
    Forall (fun c => fle (price_of o) (price_of c) = true) after.

(** No candidate whose total parses to NaN. *)
Definition nan_free (cs : list offer) : Prop :=
  Forall (fun c => is_nan (price_of c) = false) cs.

(** What the selection loop knows about [best_offer] once the candidates
    [cs] have gone by: nothing was seen, or it is the tagged first cheapest
    candidate. *)
Definition best_of (cfg : config) (best : option offer) (cs : list offer)
  : Prop :=
  match best with
  | None => cs = []
  | Some b => exists o, first_cheapest o cs /\ b = tag_best cfg o
  end.


(** The state that [load_state] returns in a world. *)
Definition loaded_state (w : world) : price_state :=
  match state_file w with
  | Some st => st
  | None => empty_state
  end.

(** A world after one more line in the log. *)
Definition logged (l : log_line) (w : world) : world :=
  {| state_file := state_file w; trace := trace w ++ [EvLog l] |}.

(** Reading or writing the state file. *)
Definition is_state_event (ev : event) : bool :=
  match ev with
  | EvLoadState | EvSaveState _ => true
  | _ => false
  end.


(** Whether a list of reasons holds a drop-based one. *)
Definition is_baja (m : motivo) : bool :=
  match m with Baja _ => true | _ => false end.

(** *** Concrete inputs used below *)

Definition mk_offer (id : string) (total : option pyfloat) : offer :=
  {| o_id := id; o_total := total; o_currency := None;
     o_itineraries := None;
     o_nights := None; o_route_summary := None |}.

Definition mk_env (f : date -> option date -> result (list offer)) : env :=
  {| telegram_credentials := true; amadeus_credentials := true;
     token := Ok tt; search := f; now := "2025-10-01T09:00:00";
     telegram := Ok tt |}.

Definition mk_state (p : pyfloat) : price_state :=
  {| min_price := Some p; min_when := None; min_route := None |}.

Definition fresh_world : world := {| state_file := None; trace := [] |}.

(** A one-way search over the window [d1 .. d2] with the source's
    thresholds. *)
Definition one_way (d1 d2 cap : Z) : config :=
  {| ORIGEN := "EZE"; DESTINO := "MAD";
     FECHA_DESDE := d1; FECHA_HASTA := d2;
     SOLO_IDA := true; NOCHES_MIN := 7; NOCHES_MAX := 21;
     MONEDA := "USD"; PRECIO_OBJETIVO := PyInt 600;
     BAJA_MINIMA_PCT := PyInt 8; MAX_DIAS := cap |}.

(** Offers of the examples: priced 5.0, 3.0 (twice), NaN (a total that
    reads "nan"), and one whose total cannot be parsed. *)
Definition offer_5 : offer := mk_offer "A" (Some (of_int 5)).
Definition offer_3 : offer := mk_offer "B" (Some (of_int 3)).
Definition offer_3_later : offer := mk_offer "C" (Some (of_int 3)).
Definition offer_nan : offer := mk_offer "N" (Some S754_nan).
Definition offer_malformed : offer := mk_offer "M" None.

(** Day 10 offers 5.0 then 3.0, day 11 offers 3.0 again. *)
Definition tie_search (dep : date) (ret : option date)
  : result (list offer) :=
  if dep =? 10 then Ok [offer_5; offer_3]
  else if dep =? 11 then Ok [offer_3_later]
  else Ok [].

(** Day 10 offers 5.0, day 11 offers NaN then 3.0. *)
Definition nan_search (dep : date) (ret : option date)
  : result (list offer) :=
  if dep =? 10 then Ok [offer_5]
  else if dep =? 11 then Ok [offer_nan; offer_3]
  else Ok [].

(** Day 10 offers only an unparsable total. *)
Definition malformed_search (dep : date) (ret : option date)
  : result (list offer) :=
  if dep =? 10 then Ok [offer_malformed] else Ok [].

(** Day 10 offers an unparsable total then 5.0. *)
Definition mixed_search (dep : date) (ret : option date)
  : result (list offer) :=
  if dep =? 10 then Ok [offer_malformed; offer_5] else Ok [].

(** The float nearest to 7.69, Python's [round(50 * 100 / 650, 2)]. *)
Definition pct_7_69 : pyfloat := SFdiv prec emax (of_int 769) (of_int 100).

(** A world whose state file holds the minimum [p]. *)
Definition world_with_min (p : pyfloat) : world :=
  {| state_file := Some (mk_state p); trace := [] |}.

(** An offer at 600.0, and a search that finds it on day 10. *)
Definition offer_600 : offer := mk_offer "D" (Some (of_int 600)).

Definition search_600 (dep : date) (ret : option date)
  : result (list offer) :=
  if dep =? 10 then Ok [offer_600] else Ok [].

(** Day 10 offers 5.0 only. *)
Definition single_search (dep : date) (ret : option date)
  : result (list offer) :=
  if dep =? 10 then Ok [offer_5] else Ok [].

(** *** Tactics *)

(** Case analysis on the comparisons of exponents and mantissas. *)
Ltac cmp_spec :=
  repeat match goal with
         | H : context [Pos.compare_cont Eq ?a ?b] |- _ =>
             change (Pos.compare_cont Eq a b) with (Pos.compare a b) in H
         | |- context [Pos.compare_cont Eq ?a ?b] =>
             change (Pos.compare_cont Eq a b) with (Pos.compare a b)
         end;
  repeat match goal with
         | H : context [Z.compare ?a ?b] |- _ =>
             destruct (Z.compare_spec a b); try subst a; simpl in H;
             try discriminate H
         | H : context [Pos.compare ?a ?b] |- _ =>
             destruct (Pos.compare_spec a b); try subst a; simpl in H;
             try discriminate H
         | |- context [Z.compare ?a ?b] =>
             destruct (Z.compare_spec a b); try subst a; simpl
         | |- context [Pos.compare ?a ?b] =>
             destruct (Pos.compare_spec a b); try subst a; simpl
         end;
  try reflexivity; try discriminate; try lia.

(** The constructors of a float, with their signs. *)
Ltac float_cases x := destruct x as [[|]|[|]| |[|] ? ?].


(** *** Vocabulary of the further properties *)

(** The requests that one departure date can take: one for a one-way
    search, one per number of nights for a round trip. *)
Definition requests_per_date (cfg : config) : nat :=
  if SOLO_IDA cfg then 1%nat
  else Z.to_nat (NOCHES_MAX cfg + 1 - NOCHES_MIN cfg).

(** The days of the window that the cap lets the search take up. *)
Definition days_searched (cfg : config) : nat :=
  Z.to_nat (Z.min (MAX_DIAS cfg) (FECHA_HASTA cfg - FECHA_DESDE cfg + 1)).

(** The events that a run of the script adds to a world. *)
Definition new_events (cfg : config) (e : env) (w : world) : list event :=
  skipn (List.length (trace w)) (trace (snd (script cfg e w))).

(** [list(daterange(d1, d2))]: the dates of the generator, run to its end. *)
Fixpoint collect (fuel : nat) (g : gen) : result (list date) :=
  match fuel with
  | O => Err OutOfFuel
  | S fuel' =>
      match gen_next g with
      | Stop => Ok []
      | Raise ex => Err ex
      | Yield d g' => ds <-? collect fuel' g' ;; Ok (d :: ds)
      end
  end.

(** What a request of the search looks like: no return date for a one-way
    search; for a round trip a return date some nights after the departure,
    with the nights in the configured range. *)
Definition request_ok (cfg : config) (r : date * option date) : Prop :=
  if SOLO_IDA cfg then snd r = None
  else exists n, snd r = Some (fst r + n) /\
                 NOCHES_MIN cfg <= n <= NOCHES_MAX cfg.

(** The events of one departure date: the date taken up, then its
    requests. *)
Definition seg_events (seg : date * list event) : list event :=
  EvDate (fst seg) :: snd seg.

(** [t] is what [candidates_of] adds to the trace for the date [d], from
    some world. *)
Definition date_trace (cfg : config) (e : env) (seg : date * list event)
  : Prop :=
  exists w res w',
    candidates_of cfg e (fst seg) w = (res, w') /\
    trace w' = trace w ++ snd seg.

(** What [main] leaves once the search has answered [resb] in the world
    [w1], from a world whose state file loads as [st0]: the result and the
    world of each way through the rest of [main]. *)
Definition main_after_search (cfg : config) (e : env) (st0 : price_state)
           (resb : result (option offer)) (w1 : world) : result unit * world :=
  match resb with
  | Err ex => (Err ex, w1)
  | Ok None => (Ok tt, logged LogSinResultados w1)
  | Ok (Some offer) =>
      match o_total offer with
      | None => (Err TotalError, w1)
      | Some total_price =>
          match carriers_str offer with
          | Err ex => (Err ex, w1)
          | Ok cs =>
              match alert_decision cfg e total_price (route_sum_of cfg offer)
                      st0
              with
              | Err ex =>
                  (Err ex, {| state_file := state_file w1;
                              trace := trace w1 ++ [EvLoadState] |})
              | Ok (true, ms, st') =>
                  (match telegram e with
                   | Ok _ => Ok tt
                   | Err ex => Err ex
                   end,
                   {| state_file := Some st';
                      trace := trace w1
                               ++ [EvLoadState; EvSaveState st';
                                   EvTelegram (build_message cfg offer
                                                 total_price cs st' ms)]
                               ++ match telegram e with
                                  | Ok _ => [EvLog (LogAlerta total_price ms)]
                                  | Err _ => []
                                  end |})
              | Ok (false, ms, st') =>
                  (Ok tt,
                   {| state_file := Some st';
                      trace := trace w1
                               ++ [EvLoadState; EvSaveState st';
                                   EvLog (LogSinAlerta total_price
                                            (min_price st0))] |})
              end
          end
      end
  end.

(** The requests planned for one departure date, and for the whole search:
    every day that the cap and the window leave, and for each of them the
    one-way request or the sweep of the nights. *)
Definition date_requests (cfg : config) (d : date)
  : list (date * option date) :=
  if SOLO_IDA cfg then [(d, None)]
  else map (fun n => (d, Some (d + n)))
           (py_range (NOCHES_MIN cfg) (NOCHES_MAX cfg + 1)).

Definition planned_requests (cfg : config) : list (date * option date) :=
  flat_map (date_requests cfg)
           (consecutive (FECHA_DESDE cfg) (days_searched cfg)).

(** What the loop knows about [best_offer] whatever the prices are: it is
    a candidate that went by, tagged. *)
Definition picked_from (cfg : config) (best : option offer)
           (cs : list offer) : Prop :=
  match best with
  | None => True
  | Some b => exists o, In o cs /\ b = tag_best cfg o
  end.

(** Day 10 offers 5.0 and the request of day 11 fails. *)
Definition failing_search (dep : date) (ret : option date)
  : result (list offer) :=
  if dep =? 10 then Ok [offer_5]
  else if dep =? 11 then Err RequestException
  else Ok [].

(** A round trip of 7 to 9 nights over the window [d1 .. d2]. *)
Definition round_trip (d1 d2 cap : Z) : config :=
  {| ORIGEN := "EZE"; DESTINO := "MAD";
     FECHA_DESDE := d1; FECHA_HASTA := d2;
     SOLO_IDA := false; NOCHES_MIN := 7; NOCHES_MAX := 9;
     MONEDA := "USD"; PRECIO_OBJETIVO := PyInt 600;
     BAJA_MINIMA_PCT := PyInt 8; MAX_DIAS := cap |}.

(** The decisions on a sequence of prices, one run after the other, each
    on the state that the one before it saved; a decision that raises ends
    the sequence with its exception. *)
Fixpoint decide_all (cfg : config) (e : env) (route_sum : route)
         (totals : list pyfloat) (st : price_state) : result price_state :=
  match totals with
  | [] => Ok st
  | total_price :: rest =>
      d <-? alert_decision cfg e total_price route_sum st ;;
      let '(_, _, st') := d in
      decide_all cfg e route_sum rest st'
  end.

(** The events of the handler of the [__main__] block: its line
    ["ERROR: ..."] in the log and its post of the error to Telegram. *)
Definition is_handler_report (ev : event) : bool :=
  match ev with
  | EvLog (LogError _) | EvTelegramError _ => true
  | _ => false
  end.

(** What the handler of the script adds to the trace for a result of
    [main]: nothing when it ended well; otherwise the error in the log and,
    with the Telegram credentials, the error message. *)
Definition handler_report (e : env) (res : result unit) : list event :=
  match res with
  | Ok _ => []
  | Err ex =>
      EvLog (LogError ex)
      :: (if telegram_credentials e then [EvTelegramError ex] else [])
  end.

(** An environment with the Telegram credentials and without the Amadeus
    ones. *)
Definition no_amadeus_env : env :=
  {| telegram_credentials := true; amadeus_credentials := false;
     token := Ok tt; search := single_search; now := "2025-10-01T09:00:00";
     telegram := Ok tt |}.

(** An environment like [mk_env f] in which Telegram does not accept the
    messages. *)
Definition telegram_down (f : date -> option date -> result (list offer))
  : env :=
  {| telegram_credentials := true; amadeus_credentials := true;
     token := Ok tt; search := f; now := "2025-10-01T09:00:00";
     telegram := Err RequestException |}.

(** The calls of [send_telegram], made with the alert message. *)
Definition is_alert (ev : event) : bool :=
  match ev with EvTelegram _ => true | _ => false end.

(** ** [to_iso]: the configured dates *)

(** A Python [str] is the list of its code points; [codes] reads one off a
    literal. *)
Abbreviation pystr := (list N) (only parsing).

Fixpoint codes (s : string) : pystr :=
  match s with
  | EmptyString => []
  | String c rest => Ascii.N_of_ascii c :: codes rest
  end.

Definition SLASH : N := 47.
Definition DASH : N := 45.
Definition PLUS : N := 43.
Definition ZERO : N := 48.

(** [s.split(sep)] for a separator of one character: every occurrence
    splits, empty parts are kept, and the empty string gives one empty
    part. *)
Fixpoint split_on (sep : N) (s : pystr) : list pystr :=
  match s with
  | [] => [[]]
  | c :: rest =>
      if (c =? sep)%N then [] :: split_on sep rest
      else match split_on sep rest with
           | part :: parts => (c :: part) :: parts
           | [] => [[c]]
           end
  end.

(** [s.zfill(width)]: zeros on the left up to [width] characters, after
    the sign when [s] starts with one. *)
Definition zfill (width : nat) (s : pystr) : pystr :=
  let fill := repeat ZERO (width - List.length s) in
  match s with
  | c :: rest =>
      if (c =? PLUS)%N || (c =? DASH)%N then c :: fill ++ rest
      else fill ++ s
  | [] => fill
  end.

(** [to_iso]: [d, m, y = dmy.split("/")] raises [ValueError] unless there
    are exactly three parts, which is [None] here. *)
Definition to_iso (dmy : pystr) : option pystr :=
  match split_on SLASH dmy with
  | [d; m; y] => Some (y ++ [DASH] ++ zfill 2 m ++ [DASH] ++ zfill 2 d)
  | _ => None
  end.

(** The number of occurrences of a character. *)
Definition occurrences (c : N) (s : pystr) : nat :=
  List.length (filter (N.eqb c) s).

(** A string without the character [c]. *)
Definition free_of (c : N) (s : pystr) : Prop := ~ In c s.

(** The character of the decimal digit [n]. *)
Definition digit (n : N) : N := (ZERO + n)%N.

(** A number below 100 as [str] writes it, and written on two digits. *)
Definition numeral (n : N) : pystr :=
  if (n <? 10)%N then [digit n] else [digit (n / 10); digit (n mod 10)].

Definition two_digits (n : N) : pystr := [digit (n / 10); digit (n mod 10)].

(** ** [get_amadeus_token] and the retry of [do_request] *)

(** What these two functions can raise: [requests] got no reply,
    [raise_for_status], [r.json()] on a body that is not JSON, and
    [payload["access_token"]] on a payload without that key. *)
Inductive net_exn : Type :=
| ConnectionError
| HTTPError (status : Z)
| JSONDecodeError
| KeyError.

Inductive outcome (A : Type) : Type :=
| Returned (a : A)
| Raised (ex : net_exn).
Arguments Returned {A} a.
Arguments Raised {A} ex.

(** The content of [.amadeus_token.json], as [get_amadeus_token] writes
    it. *)
Record token_cache : Type := {
  access_token : string;
  expires_at : Z
}.

(** The JSON payload of the OAuth server: each key may be missing. *)
Record oauth_payload : Type := {
  p_access_token : option string;
  p_expires_in : option Z
}.

(** What the OAuth server answers to the POST: nothing, or a status with a
    body that parses as JSON or not. *)
Inductive oauth_reply : Type :=
| OAuthNoReply
| OAuthReply (status : Z) (payload : option oauth_payload).

(** What the search API answers to a GET: nothing, or a status with a body
    that is not JSON, or is JSON with or without the key ["data"]. *)
Inductive get_reply : Type :=
| GetNoReply
| GetReply (status : Z) (body : option (option (list offer))).

Inductive net_event : Type :=
| PostOAuth
| GetSearch (bearer : string)
| LogTokenBody
| LogBody
| WriteToken (c : token_cache).

(** The truth value of a string: not empty. *)
Definition truthy (s : string) : bool :=
  match s with
  | EmptyString => false
  | String _ _ => true
  end.

(** [r.raise_for_status()] raises on the statuses 400 to 599. *)
Definition raises_for_status (status : Z) : bool :=
  (400 <=? status) && (status <? 600).

(** The test on the cached token: the file exists, its token is truthy and
    [expires_at - 60 > now]. *)
Definition cache_hit (now : Z) (tf : option token_cache) : option string :=
  match tf with
  | Some c =>
      if truthy (access_token c) && (now <? expires_at c - 60)
      then Some (access_token c)
      else None
  | None => None
  end.

Record token_result : Type := {
  tr_outcome : outcome string;
  tr_file : option token_cache;
  tr_events : list net_event
}.

(** [get_amadeus_token], at the time [now], with the token file [tf] and
    the answer [reply] that the OAuth server gives if it is asked. *)
Definition get_amadeus_token (now : Z) (reply : oauth_reply)
           (tf : option token_cache) : token_result :=
  match cache_hit now tf with
  | Some tok =>
      {| tr_outcome := Returned tok; tr_file := tf; tr_events := [] |}
  | None =>
      match reply with
      | OAuthNoReply =>
          {| tr_outcome := Raised ConnectionError; tr_file := tf;
             tr_events := [PostOAuth] |}
      | OAuthReply status payload =>
          let logged := if 400 <=? status then [LogTokenBody] else [] in
          if raises_for_status status then
            {| tr_outcome := Raised (HTTPError status); tr_file := tf;
               tr_events := PostOAuth :: logged |}
          else
            match payload with
            | None =>
                {| tr_outcome := Raised JSONDecodeError; tr_file := tf;
                   tr_events := PostOAuth :: logged |}
            | Some p =>
                match p_access_token p with
                | None =>
                    {| tr_outcome := Raised KeyError; tr_file := tf;
                       tr_events := PostOAuth :: logged |}
                | Some tok =>
                    let expires_in := match p_expires_in p with
                                      | Some n => n
                                      | None => 0
                                      end in
                    let c := {| access_token := tok;
                                expires_at := now + expires_in |} in
                    {| tr_outcome := Returned tok; tr_file := Some c;
                       tr_events := PostOAuth :: logged ++ [WriteToken c] |}
                end
            end
      end
  end.

(** The end of [do_request], from the response it is left with: the error
    body is logged from status 400 on, [raise_for_status], then
    [r.json().get("data", [])]. *)
Definition finish_request (status : Z) (body : option (option (list offer)))
  : outcome (list offer) * list net_event :=
  let logged := if 400 <=? status then [LogBody] else [] in
  if raises_for_status status then (Raised (HTTPError status), logged)
  else
    match body with
    | None => (Raised JSONDecodeError, logged)
    | Some (Some data) => (Returned data, logged)
    | Some None => (Returned [], logged)
    end.

Record request_result : Type := {
  rr_outcome : outcome (list offer);
  rr_headers : string;
  rr_file : option token_cache;
  rr_events : list net_event
}.

(** [do_request] with its retry, for the bearer token [headers] of the
    enclosing function.  [server k bearer] is the answer to the [k]-th GET
    of this call (from 0) sent with [bearer]. *)
Definition do_request_http (now : Z) (oauth : oauth_reply)
           (server : nat -> string -> get_reply) (headers : string)
           (tf : option token_cache) : request_result :=
  match server 0%nat headers with
  | GetNoReply =>
      {| rr_outcome := Raised ConnectionError; rr_headers := headers;
         rr_file := tf; rr_events := [GetSearch headers] |}
  | GetReply status body =>
      if status =? 401 then
        let t := get_amadeus_token now oauth tf in
        match tr_outcome t with
        | Raised ex =>
            {| rr_outcome := Raised ex; rr_headers := headers;
               rr_file := tr_file t;
               rr_events := GetSearch headers :: tr_events t |}
        | Returned new_token =>
            match server 1%nat new_token with
            | GetNoReply =>
                {| rr_outcome := Raised ConnectionError;
                   rr_headers := new_token; rr_file := tr_file t;
                   rr_events := GetSearch headers :: tr_events t
                                ++ [GetSearch new_token] |}
            | GetReply status2 body2 =>
                {| rr_outcome := fst (finish_request status2 body2);
                   rr_headers := new_token; rr_file := tr_file t;
                   rr_events := GetSearch headers :: tr_events t
                                ++ GetSearch new_token
                                   :: snd (finish_request status2 body2) |}
            end
        end
      else
        {| rr_outcome := fst (finish_request status body);
           rr_headers := headers; rr_file := tf;
           rr_events := GetSearch headers
                        :: snd (finish_request status body) |}
  end.

Definition is_get (ev : net_event) : bool :=
  match ev with GetSearch _ => true | _ => false end.

Definition is_post (ev : net_event) : bool :=
  match ev with PostOAuth => true | _ => false end.

Definition count_events (f : net_event -> bool) (l : list net_event) : nat :=
  List.length (filter f l).

(** What one call of [do_request] can do at the HTTP level: [do_request_http]
    at some time, with some answers of the servers, some bearer token and
    some token file. *)
Inductive http_execution : request_result -> Prop :=
| HttpExecution (now : Z) (oauth : oauth_reply)
    (server : nat -> string -> get_reply) (headers : string)
    (tf : option token_cache) :
    http_execution (do_request_http now oauth server headers tf).

(** The GETs of a sequence of calls of [do_request], given what each call
    did at the HTTP level. *)
Definition gets_sent (execs : list request_result) : nat :=
  count_events is_get (flat_map rr_events execs).

(** Replies used in the examples. *)
Definition fresh_payload : oauth_payload :=
  {| p_access_token := Some "tok2"%string; p_expires_in := Some 1799 |}.

Definition unauthorized_then_ok (k : nat) (bearer : string) : get_reply :=
  match k with
  | O => GetReply 401 None
  | S _ => GetReply 200 (Some (Some [offer_5]))
  end.

Definition always_unauthorized (k : nat) (bearer : string) : get_reply :=
  GetReply 401 None.

Definition always_empty (k : nat) (bearer : string) : get_reply :=
  GetReply 200 (Some (Some [])).

(** ** Vocabulary for the carriers *)

(** The lookups of the two loops of [main] over the itineraries, in the
    order in which they are made. *)
Fixpoint lookups (its : list itinerary) : list (option carrier_code) :=
  match its with
  | [] => []
  | Some segs :: rest => segs ++ lookups rest
  | None :: rest => None :: lookups rest
  end.

(** The codes that come before the first lookup that raises. *)
Fixpoint codes_before_failure (l : list (option carrier_code))
  : list carrier_code :=
  match l with
  | Some code :: rest => code :: codes_before_failure rest
  | _ => []
  end.

(** The codes that [main] reads from an offer. *)
Definition codes_read (offer : offer) : list carrier_code :=
  match o_itineraries offer with
  | Some its => codes_before_failure (lookups its)
  | None => []
  end.

Definition is_str (c : carrier_code) : bool :=
  match c with CodeStr _ => true | _ => false end.

Definition str_lt (a b : string) : Prop := (a <? b)%string = true.

(** [o] with the itineraries [its]. *)
Definition with_itineraries (its : list itinerary) (o : offer) : offer :=
  {| o_id := o_id o; o_total := o_total o; o_currency := o_currency o;
     o_itineraries := Some its;
     o_nights := o_nights o; o_route_summary := o_route_summary o |}.

(** An offer at 5.0 with two itineraries, the second one with a segment
    without carrier code. *)
Definition offer_broken_segment : offer :=
  with_itineraries
    [Some [Some (CodeStr "IB"); Some (CodeStr "AR")];
     Some [Some (CodeStr "IB"); None; Some (CodeStr "UX")]]
    offer_5.

(** An offer at 5.0 whose second segment has the carrier code [null]. *)
Definition offer_null_carrier : offer :=
  with_itineraries [Some [Some (CodeStr "IB"); Some CodeNull]] offer_5.

(** Day 10 offers only [offer_null_carrier]. *)
Definition null_carrier_search (dep : date) (ret : option date)
  : result (list offer) :=
  if dep =? 10 then Ok [offer_null_carrier] else Ok [].


(** * Properties *)

(** ** The order of floats *)

Lemma flt_fle (x y : pyfloat) : flt x y = true -> fle x y = true.
Proof.
  unfold flt, fle, SFltb, SFleb. destruct (SFcompare x y) as [[| |]|]; auto.
Qed.

Lemma flt_irrefl (x : pyfloat) : flt x x = false.
Proof.
  unfold flt, SFltb. float_cases x; simpl; cmp_spec.
Qed.

Lemma flt_asym (x y : pyfloat) : flt x y = true -> flt y x = false.
Proof.
  unfold flt, SFltb. float_cases x; float_cases y; simpl; intros H; cmp_spec.
Qed.

Lemma not_flt_fle (x y : pyfloat) :
  is_nan x = false -> is_nan y = false -> flt x y = false -> fle y x = true.
Proof.
  unfold flt, fle, SFltb, SFleb.
  float_cases x; float_cases y; simpl; intros Hx Hy H; cmp_spec.
Qed.

Lemma fle_trans (x y z : pyfloat) :
  fle x y = true -> fle y z = true -> fle x z = true.
Proof.
  unfold fle, SFleb.
  float_cases x; float_cases y; simpl; intros H1; try discriminate H1;
    float_cases z; simpl; intros H2; try discriminate H2; try reflexivity;
    cmp_spec.
Qed.

Lemma flt_fle_trans (x y z : pyfloat) :
  flt x y = true -> fle y z = true -> flt x z = true.
Proof.
  unfold flt, fle, SFltb, SFleb.
  float_cases x; float_cases y; simpl; intros H1; try discriminate H1;
    float_cases z; simpl; intros H2; try discriminate H2; try reflexivity;
    cmp_spec.
Qed.

Lemma fle_flt_trans (x y z : pyfloat) :
  fle x y = true -> flt y z = true -> flt x z = true.
Proof.
  unfold flt, fle, SFltb, SFleb.
  float_cases x; float_cases y; simpl; intros H1; try discriminate H1;
    float_cases z; simpl; intros H2; try discriminate H2; try reflexivity;
    cmp_spec.
Qed.

Lemma flt_trans (x y z : pyfloat) :
  flt x y = true -> flt y z = true -> flt x z = true.
Proof.
  intros H1 H2. apply flt_fle_trans with y; auto using flt_fle.
Qed.

Lemma fle_not_nan (x y : pyfloat) :
  fle x y = true -> is_nan x = false /\ is_nan y = false.
Proof.
  unfold fle, SFleb. float_cases x; float_cases y; simpl; auto; discriminate.
Qed.

(** ** The cheapest offer of a list *)

Lemma first_cheapest_keep (m : offer) (cs extra : list offer) :
  first_cheapest m cs ->
  Forall (fun c => fle (price_of m) (price_of c) = true) extra ->
  first_cheapest m (cs ++ extra).
Proof.
  intros (before & after & -> & Hb & Ha) He.
  exists before, (after ++ extra). repeat split; auto.
  - now rewrite <- app_assoc.
  - apply Forall_app; auto.
Qed.

Lemma first_cheapest_take (v : offer) (cs extra : list offer) :
  first_cheapest v extra ->
  Forall (fun c => flt (price_of v) (price_of c) = true) cs ->
  first_cheapest v (cs ++ extra).
Proof.
  intros (before & after & -> & Hb & Ha) Hc.
  exists (cs ++ before), after. repeat split; auto.
  - now rewrite <- app_assoc.
  - apply Forall_app; auto.
Qed.

Lemma first_cheapest_In (m : offer) (cs : list offer) :
  first_cheapest m cs -> In m cs.
Proof.
  intros (before & after & -> & _). apply in_or_app. right. now left.
Qed.

Lemma fle_refl (x : pyfloat) : is_nan x = false -> fle x x = true.
Proof.
  intros H. apply not_flt_fle; auto using flt_irrefl.
Qed.

(** The cheapest offer is at most as expensive as every candidate. *)
Lemma first_cheapest_le (m : offer) (cs : list offer) :
  nan_free cs -> first_cheapest m cs ->
  Forall (fun c => fle (price_of m) (price_of c) = true) cs.
Proof.
  intros Hn (before & after & -> & Hb & Ha).
  apply Forall_app. split.
  - eapply Forall_impl; [|exact Hb]. intros c. apply flt_fle.
  - constructor; auto. apply fle_refl.
    apply Forall_app in Hn. destruct Hn as [_ Hn]. now inversion Hn.
Qed.

(** Whatever is strictly cheaper than the cheapest offer is strictly
    cheaper than every candidate. *)
Lemma below_first_cheapest (v m : offer) (cs : list offer) :
  nan_free cs -> first_cheapest m cs ->
  flt (price_of v) (price_of m) = true ->
  Forall (fun c => flt (price_of v) (price_of c) = true) cs.
Proof.
  intros Hn Hm Hv. eapply Forall_impl; [|exact (first_cheapest_le _ _ Hn Hm)].
  intros c Hc. simpl in Hc. now apply flt_fle_trans with (price_of m).
Qed.

(** Python's [min] with a key, run from a current minimum [m] of the items
    [pre] already visited. *)
Lemma py_min_from (others pre : list offer) (m : offer) :
  nan_free (pre ++ others) ->
  first_cheapest m pre ->
  first_cheapest (py_min m others) (pre ++ others).
Proof.
  unfold py_min. revert pre m.
  induction others as [|v others IH]; intros pre m Hn Hm; simpl.
  - now rewrite app_nil_r.
  - assert (Hn' : nan_free ((pre ++ [v]) ++ others))
      by now rewrite <- app_assoc.
    replace (pre ++ v :: others) with ((pre ++ [v]) ++ others)
      by now rewrite <- app_assoc.
    pose proof Hn' as Hpv. apply Forall_app in Hpv. destruct Hpv as [Hpv _].
    pose proof Hpv as Hp. apply Forall_app in Hp. destruct Hp as [Hp Hv].
    apply IH; auto.
    destruct (flt (price_of v) (price_of m)) eqn:Hlt.
    + apply first_cheapest_take.
      * exists [], []. repeat split; auto.
      * now apply below_first_cheapest with m.
    + apply first_cheapest_keep; auto.
      constructor; auto. apply not_flt_fle; auto.
      * now inversion Hv.
      * pose proof (first_cheapest_In _ _ Hm) as Hin.
        unfold nan_free in Hp. rewrite Forall_forall in Hp. now apply Hp.
Qed.

Lemma py_min_first_cheapest (c : offer) (cs : list offer) :
  nan_free (c :: cs) -> first_cheapest (py_min c cs) (c :: cs).
Proof.
  intros Hn. apply (py_min_from cs [c] c); auto.
  exists [], []. repeat split; auto.
Qed.

Section Selection.

Variable cfg : config.

Lemma price_of_tag_best (o : offer) : price_of (tag_best cfg o) = price_of o.
Proof.
  unfold tag_best, price_of. now destruct (SOLO_IDA cfg).
Qed.

Lemma o_total_tag_best (o : offer) : o_total (tag_best cfg o) = o_total o.
Proof.
  unfold tag_best. now destruct (SOLO_IDA cfg).
Qed.

Lemma update_best_spec (best : option offer) (cs cd : list offer) :
  nan_free (cs ++ cd) ->
  best_of cfg best cs ->
  best_of cfg (update_best cfg best cd) (cs ++ cd).
Proof.
  intros Hn Hb. destruct cd as [|c cd].
  - simpl. now rewrite app_nil_r.
  - pose proof Hn as Hn2. apply Forall_app in Hn2. destruct Hn2 as [Hcs Hcd].
    pose proof (py_min_first_cheapest c cd Hcd) as Hmin.
    unfold update_best. destruct best as [b|].
    + destruct Hb as (o & Ho & ->). rewrite price_of_tag_best.
      destruct (flt (price_of (py_min c cd)) (price_of o)) eqn:Hlt.
      * exists (py_min c cd). split; auto.
        apply first_cheapest_take; auto.
        now apply below_first_cheapest with o.
      * exists o. split; auto.
        apply first_cheapest_keep; auto.
        assert (Hle : fle (price_of o) (price_of (py_min c cd)) = true).
        { apply not_flt_fle; auto.
          - unfold nan_free in Hcd. rewrite Forall_forall in Hcd.
            apply Hcd. now apply first_cheapest_In.
          - unfold nan_free in Hcs. rewrite Forall_forall in Hcs.
            apply Hcs. now apply first_cheapest_In. }
        eapply Forall_impl; [|exact (first_cheapest_le _ _ Hcd Hmin)].
        intros x Hx. simpl in Hx. now apply fle_trans with (price_of (py_min c cd)).
    + simpl in Hb. subst cs. simpl. exists (py_min c cd). split; auto.
Qed.

End Selection.

(** ** The trace of the search *)

Lemma consecutive_S (d : date) (n : nat) :
  consecutive d (S n) = d :: consecutive (d + 1) n.
Proof.
  unfold consecutive. simpl. rewrite Z.add_0_r. f_equal.
  rewrite <- seq_shift, map_map. apply map_ext. intros i. lia.
Qed.

Lemma consecutive_length (d : date) (n : nat) : List.length (consecutive d n) = n.
Proof.
  unfold consecutive. now rewrite List.length_map, List.length_seq.
Qed.

Lemma dates_of_app (l1 l2 : list event) :
  dates_of (l1 ++ l2) = dates_of l1 ++ dates_of l2.
Proof. apply flat_map_app. Qed.

Lemma dates_of_requests (tr : list event) :
  forallb is_request tr = true -> dates_of tr = [].
Proof.
  induction tr as [|ev tr IH]; simpl; auto.
  intros H. apply andb_prop in H. destruct H as [H1 H2].
  rewrite (IH H2). now destruct ev.
Qed.

Lemma requests_are_search_events (tr : list event) :
  forallb is_request tr = true -> forallb is_search_event tr = true.
Proof.
  induction tr as [|ev tr IH]; simpl; auto.
  intros H. apply andb_prop in H. destruct H as [H1 H2].
  rewrite (IH H2). now destruct ev.
Qed.

Lemma date_add_Ok (d n r : Z) : date_add d n = Ok r -> r = d + n.
Proof.
  unfold date_add. destruct (_ && _); congruence.
Qed.

Lemma gen_next_Yield (g g' : gen) (d : date) :
  gen_next g = Yield d g' ->
  d = next_date g /\ d <= last_date g /\
  next_date g' = d + 1 /\ last_date g' = last_date g.
Proof.
  unfold gen_next, while_yield. destruct g as [d1 d2|d1 d2]; simpl.
  - destruct (d1 <=? d2) eqn:H; [|discriminate].
    intros [= <- <-]. simpl. lia.
  - destruct (date_add d1 1) as [d1'|ex] eqn:Ha; [|discriminate].
    apply date_add_Ok in Ha. subst d1'.
    destruct (d1 + 1 <=? d2) eqn:H; [|discriminate].
    intros [= <- <-]. simpl. lia.
Qed.


Section Search.

Variable cfg : config.
Variable e : env.

(** The sweep only issues requests, and what it returns is what those
    requests brought, after the candidates it started from. *)
Lemma sweep_trace (dep : date) (ns : list Z) :
  forall (cands : list offer) (w : world) res w',
    sweep e dep ns cands w = (res, w') ->
    exists tr,
      trace w' = trace w ++ tr /\
      state_file w' = state_file w /\
      forallb is_request tr = true /\
      forall r, res = Ok r -> r = cands ++ candidates_seen e tr.
Proof.
  induction ns as [|n ns IH]; intros cands w res w' H; simpl in H.
  - injection H as <- <-. exists []. rewrite !app_nil_r.
    repeat split; auto. now intros r [= <-].
  - unfold bind, lift, do_request, emit in H. simpl in H.
    destruct (date_add dep n) as [r0|ex] eqn:Ha.
    + apply date_add_Ok in Ha.
      destruct (search e dep (Some r0)) as [data|ex] eqn:Hs.
      * apply IH in H. destruct H as (tr & Ht & Hf & Hr & Hres).
        simpl in Ht, Hf.
        exists (EvRequest dep (Some r0) :: tr).
        rewrite Ht, Hf, <- app_assoc. simpl. repeat split; auto.
        intros r Hok. rewrite (Hres r Hok), <- app_assoc.
        unfold candidates_seen at 2. simpl. rewrite Hs.
        replace (r0 - dep) with n by lia. reflexivity.
      * injection H as <- <-. exists [EvRequest dep (Some r0)]. simpl.
        repeat split; auto. discriminate.
    + injection H as <- <-. exists []. rewrite app_nil_r.
      repeat split; auto. discriminate.
Qed.

Lemma candidates_of_trace (dep : date) (w : world) res w' :
  candidates_of cfg e dep w = (res, w') ->
  exists tr,
    trace w' = trace w ++ tr /\
    state_file w' = state_file w /\
    forallb is_request tr = true /\
    forall r, res = Ok r -> r = candidates_seen e tr.
Proof.
  unfold candidates_of. destruct (SOLO_IDA cfg).
  - unfold do_request, bind, emit, lift. simpl. intros [= <- <-].
    exists [EvRequest dep None]. repeat split; auto.
    intros r Hr. unfold candidates_seen. simpl. rewrite Hr.
    now rewrite app_nil_r.
  - apply (sweep_trace dep _ [] w).
Qed.

(** The loop only adds search events to the trace and leaves the state
    file alone; the dates it takes up are consecutive from the next date
    of the generator, no more than the cap leaves room for, and none
    beyond the end of the window. *)
Lemma for_loop_trace (fuel : nat) :
  forall (g : gen) (count : Z) (best : option offer) (w : world) res w',
    for_loop cfg e fuel g count best w = (res, w') ->
    exists tr,
      trace w' = trace w ++ tr /\
      state_file w' = state_file w /\
      forallb is_search_event tr = true /\
      exists n,
        dates_of tr = consecutive (next_date g) n /\
        Z.of_nat n <= Z.max 0 (MAX_DIAS cfg - count) /\
        Z.of_nat n <= Z.max 0 (last_date g - next_date g + 1).
Proof.
  assert (Hnil : forall (g : gen) (count : Z) (w : world),
             exists tr,
               trace w = trace w ++ tr /\
               state_file w = state_file w /\
               forallb is_search_event tr = true /\
               exists n,
                 dates_of tr = consecutive (next_date g) n /\
                 Z.of_nat n <= Z.max 0 (MAX_DIAS cfg - count) /\
                 Z.of_nat n <= Z.max 0 (last_date g - next_date g + 1)).
  { intros g count w. exists []. rewrite app_nil_r. repeat split; auto.
    exists O. simpl. repeat split; auto; lia. }
  induction fuel as [|fuel IH]; intros g count best w res w' H; simpl in H.
  - injection H as <- <-. apply Hnil.
  - destruct (gen_next g) as [d g'| |ex] eqn:Hg;
      try (injection H as <- <-; apply Hnil).
    apply gen_next_Yield in Hg. destruct Hg as (Hd & Hle & Hn & Hl).
    destruct (MAX_DIAS cfg <=? count) eqn:Hcap;
      try (injection H as <- <-; apply Hnil).
    apply Z.leb_gt in Hcap.
    unfold bind at 1, emit at 1 in H. unfold bind at 1 in H.
    match type of H with
    | context [candidates_of cfg e d ?w1] =>
        destruct (candidates_of cfg e d w1) as [[cands|ex] w2] eqn:Hc;
        apply candidates_of_trace in Hc;
        destruct Hc as (tr1 & Ht1 & Hf1 & Hr1 & _)
    end; simpl in Ht1, Hf1.
    + apply IH in H.
      destruct H as (tr2 & Ht2 & Hf2 & Hs2 & n & Hdn & Hn1 & Hn2).
      exists (EvDate d :: tr1 ++ tr2).
      rewrite Ht2, Hf2, Ht1, Hf1, <- !app_assoc. simpl.
      repeat split; auto.
      { rewrite forallb_app, Hs2, (requests_are_search_events _ Hr1).
        reflexivity. }
      exists (S n). rewrite dates_of_app, (dates_of_requests _ Hr1), Hdn.
      simpl. rewrite consecutive_S, Hn, Hd. repeat split; auto; lia.
    + injection H as <- <-.
      exists (EvDate d :: tr1). rewrite Ht1, Hf1, <- app_assoc. simpl.
      repeat split; auto using requests_are_search_events.
      exists 1%nat. rewrite (dates_of_requests _ Hr1), <- Hd.
      rewrite consecutive_S. repeat split; auto; lia.
Qed.

(** More fuel than the cap leaves room for changes nothing: the loop
    never runs out of it. *)
Lemma for_loop_fuel_enough (fuel1 : nat) :
  forall (fuel2 : nat) (g : gen) (count : Z) (best : option offer) (w : world),
    (Z.to_nat (MAX_DIAS cfg - count) < fuel1)%nat ->
    (Z.to_nat (MAX_DIAS cfg - count) < fuel2)%nat ->
    for_loop cfg e fuel1 g count best w = for_loop cfg e fuel2 g count best w.
Proof.
  induction fuel1 as [|fuel1 IH]; intros fuel2 g count best w H1 H2;
    [lia|].
  destruct fuel2 as [|fuel2]; [lia|]. simpl.
  destruct (gen_next g) as [d g'| |ex]; auto.
  destruct (MAX_DIAS cfg <=? count) eqn:Hcap; auto.
  apply Z.leb_gt in Hcap.
  unfold bind at 1 3. destruct (emit (EvDate d) w) as [[u|ex] w1]; auto.
  unfold bind at 1 2.
  destruct (candidates_of cfg e d w1) as [[cands|ex] w2]; auto.
  apply IH; lia.
Qed.

End Search.

(** ** What the search returns *)

Lemma candidates_seen_app (e : env) (l1 l2 : list event) :
  candidates_seen e (l1 ++ l2) = candidates_seen e l1 ++ candidates_seen e l2.
Proof. apply flat_map_app. Qed.

Lemma trace_ext_nil (l tr : list event) : l = l ++ tr -> tr = [].
Proof.
  intros H. apply (app_inv_head l). now rewrite app_nil_r.
Qed.

Lemma consecutive_In (d x : Z) (n : nat) :
  In x (consecutive d n) <-> d <= x < d + Z.of_nat n.
Proof.
  unfold consecutive. rewrite in_map_iff. split.
  - intros (i & <- & Hi). apply in_seq in Hi. lia.
  - intros H. exists (Z.to_nat (x - d)). split; [lia|].
    apply in_seq. lia.
Qed.

Lemma consecutive_sorted (n : nat) :
  forall d : Z, StronglySorted Z.lt (consecutive d n).
Proof.
  induction n as [|n IH]; intros d.
  - constructor.
  - rewrite consecutive_S. constructor; auto.
    apply Forall_forall. intros x Hx. apply consecutive_In in Hx. lia.
Qed.

Section SearchResult.

Variable cfg : config.
Variable e : env.

(** The selection invariant of the loop: if [best] is the first cheapest
    of the candidates [cs0] seen before, the result is the first cheapest
    of [cs0] followed by what the loop sees. *)
Lemma for_loop_best (fuel : nat) :
  forall (g : gen) (count : Z) (best : option offer) (w : world) r w',
    for_loop cfg e fuel g count best w = (Ok r, w') ->
    forall tr, trace w' = trace w ++ tr ->
    forall cs0, nan_free (cs0 ++ candidates_seen e tr) ->
                best_of cfg best cs0 ->
                best_of cfg r (cs0 ++ candidates_seen e tr).
Proof.
  assert (Hstay : forall (best : option offer) (w : world) tr cs0,
             trace w = trace w ++ tr -> best_of cfg best cs0 ->
             best_of cfg best (cs0 ++ candidates_seen e tr)).
  { intros best w tr cs0 Ht Hb. apply trace_ext_nil in Ht. subst tr.
    simpl. now rewrite app_nil_r. }
  induction fuel as [|fuel IH]; intros g count best w r w' H; simpl in H.
  - discriminate H.
  - destruct (gen_next g) as [d g'| |ex] eqn:Hg.
    2:{ injection H as <- <-. eauto. }
    2:{ discriminate H. }
    destruct (MAX_DIAS cfg <=? count) eqn:Hcap.
    { injection H as <- <-. eauto. }
    unfold bind at 1, emit at 1 in H. unfold bind at 1 in H.
    match type of H with
    | context [candidates_of cfg e d ?w1] =>
        destruct (candidates_of cfg e d w1) as [[cands|ex] w2] eqn:Hc;
        [|discriminate H];
        apply candidates_of_trace in Hc;
        destruct Hc as (tr1 & Ht1 & _ & _ & Hr1)
    end; simpl in Ht1.
    specialize (Hr1 cands eq_refl).
    destruct (for_loop_trace cfg e _ _ _ _ _ _ _ H) as (tr2 & Ht2 & _).
    intros tr Ht cs0 Hn Hb.
    rewrite Ht2, Ht1, <- !app_assoc in Ht. apply app_inv_head in Ht.
    subst tr. simpl in Hn |- *.
    rewrite candidates_seen_app, <- Hr1, app_assoc in Hn |- *.
    apply (IH _ _ _ _ _ _ H tr2 Ht2); auto.
    apply update_best_spec; auto.
    apply Forall_app in Hn. tauto.
Qed.

(** The search adds only search events to the trace, leaves the state
    file alone and, when it returns, returns the first cheapest of the
    candidates it has seen, if none of them is priced NaN. *)
Lemma buscar_trace (w : world) res w' :
  buscar_mejor_precio_amadeus cfg e w = (res, w') ->
  exists tr,
    trace w' = trace w ++ tr /\
    state_file w' = state_file w /\
    forallb is_search_event tr = true /\
    (exists n, dates_of tr = consecutive (FECHA_DESDE cfg) n /\
               Z.of_nat n <= Z.max 0 (MAX_DIAS cfg) /\
               Z.of_nat n <=
                 Z.max 0 (FECHA_HASTA cfg - FECHA_DESDE cfg + 1)) /\
    forall r, res = Ok r ->
              nan_free (candidates_seen e tr) ->
              best_of cfg r (candidates_seen e tr).
Proof.
  unfold buscar_mejor_precio_amadeus, bind at 1, lift.
  destruct (token e) as [u|ex].
  - intros H.
    destruct (for_loop_trace cfg e _ _ _ _ _ _ _ H)
      as (tr & Ht & Hf & Hs & n & Hd & Hn1 & Hn2).
    exists tr. repeat split; auto.
    + exists n. simpl in Hd, Hn2. rewrite Z.sub_0_r in Hn1. auto.
    + intros r -> Hn.
      apply (for_loop_best _ _ _ _ _ _ _ H tr Ht []); simpl; auto.
  - intros [= <- <-]. exists []. rewrite app_nil_r. repeat split; auto.
    + exists O. simpl. repeat split; auto; lia.
    + discriminate.
Qed.


End SearchResult.

(** When the search returns and no candidate is priced NaN, its result is
    at most as expensive as every candidate. *)
Lemma selector_best_le
  (cfg : config) (e : env) (w : world) (r : option offer) (w' : world) :
  buscar_mejor_precio_amadeus cfg e w = (Ok r, w') ->
  exists tr,
    trace w' = trace w ++ tr /\
    (nan_free (candidates_seen e tr) ->
     match r with
     | None => candidates_seen e tr = []
     | Some b => Forall (fun c => fle (price_of b) (price_of c) = true)
                        (candidates_seen e tr)
     end).
Proof.
  intros H. destruct (buscar_trace cfg e w _ _ H) as (tr & Ht & _ & _ & _ & Hb).
  specialize (Hb r eq_refl). exists tr. split; auto.
  intros Hn. specialize (Hb Hn). destruct r as [b|]; auto.
  destruct Hb as (o & Ho & ->).
  rewrite price_of_tag_best. now apply first_cheapest_le.
Qed.

(** ** The search returns, and issues its requests in order *)

Lemma py_range_In (a b n : Z) : In n (py_range a b) -> a <= n < b.
Proof.
  unfold py_range. rewrite in_map_iff. intros (i & <- & Hi).
  apply in_seq in Hi. lia.
Qed.

Lemma py_range_sorted (a b : Z) : StronglySorted Z.lt (py_range a b).
Proof.
  apply (consecutive_sorted (Z.to_nat (b - a)) a).
Qed.

Lemma requests_of_app (l1 l2 : list event) :
  requests_of (l1 ++ l2) = requests_of l1 ++ requests_of l2.
Proof. apply flat_map_app. Qed.

Lemma sorted_app {A : Type} (R : A -> A -> Prop) (l1 l2 : list A) :
  StronglySorted R l1 -> StronglySorted R l2 ->
  (forall x y, In x l1 -> In y l2 -> R x y) ->
  StronglySorted R (l1 ++ l2).
Proof.
  induction l1 as [|x l1 IH]; simpl; intros H1 H2 H; auto.
  inversion H1; subst. constructor.
  - apply IH; auto.
  - apply Forall_app. split; auto.
    apply Forall_forall. intros y Hy. apply H; auto.
Qed.

Section SearchOrder.

Variable cfg : config.
Variable e : env.

(** The requests of a sweep are for its departure date, with return dates
    that follow the nights. *)
Lemma sweep_requests (dep : date) (ns : list Z) :
  forall (cands : list offer) (w : world) res w' tr,
    sweep e dep ns cands w = (res, w') ->
    trace w' = trace w ++ tr ->
    exists ns',
      (forall n, In n ns' -> In n ns) /\
      (StronglySorted Z.lt ns -> StronglySorted Z.lt ns') /\
      requests_of tr = map (fun n => (dep, Some (dep + n))) ns'.
Proof.
  induction ns as [|n ns IH]; intros cands w res w' tr H Htr; simpl in H.
  - injection H as <- <-. apply trace_ext_nil in Htr. subst tr.
    exists []. repeat split; auto.
  - unfold bind, lift, do_request, emit in H. simpl in H.
    destruct (date_add dep n) as [r0|ex] eqn:Ha.
    + apply date_add_Ok in Ha. subst r0.
      destruct (search e dep (Some (dep + n))) as [data|ex] eqn:Hs.
      * pose proof H as Ht. apply sweep_trace in Ht.
        destruct Ht as (tr' & Ht & _). simpl in Ht.
        destruct (IH _ _ _ _ tr' H Ht) as (ns' & Hin & Hsort & Hreq).
        rewrite Ht, <- app_assoc in Htr. apply app_inv_head in Htr.
        subst tr. simpl. rewrite Hreq.
        exists (n :: ns'). repeat split; auto.
        -- intros x [<-|Hx]; [now left|right; auto].
        -- intros Hs'. inversion Hs' as [|? ? Hs'' Hall]; subst.
           constructor; auto.
           apply Forall_forall. intros x Hx.
           rewrite Forall_forall in Hall. auto.
      * injection H as <- <-. simpl in Htr. apply app_inv_head in Htr.
        subst tr. exists [n]. repeat split; auto.
        -- intros x [<-|[]]. now left.
        -- intros _. repeat constructor.
    + injection H as <- <-. apply trace_ext_nil in Htr. subst tr.
      exists []. repeat split; auto.
      * intros x [].
      * intros _. constructor.
Qed.

(** The requests of one departure date are for that date and in the order
    of the enumeration. *)
Lemma candidates_of_requests (dep : date) (w : world) res w' tr :
  candidates_of cfg e dep w = (res, w') ->
  trace w' = trace w ++ tr ->
  Forall (fun r => fst r = dep) (requests_of tr) /\
  StronglySorted request_before (requests_of tr).
Proof.
  intros H Ht. unfold candidates_of in H. destruct (SOLO_IDA cfg).
  - unfold do_request, bind, emit, lift in H. simpl in H.
    injection H as <- <-. simpl in Ht. apply app_inv_head in Ht. subst tr.
    simpl. split; repeat constructor.
  - destruct (sweep_requests _ _ _ _ _ _ tr H Ht) as (ns' & _ & Hsort & Hreq).
    rewrite Hreq. specialize (Hsort (py_range_sorted _ _)). split.
    + apply Forall_forall. intros r Hr. apply in_map_iff in Hr.
      now destruct Hr as (n & <- & _).
    + clear Hreq. induction Hsort as [|n l Hl IH Hn]; simpl; constructor;
        auto.
      apply Forall_forall. intros r Hr. apply in_map_iff in Hr.
      destruct Hr as (m & <- & Hm). right. simpl. split; auto.
      rewrite Forall_forall in Hn. specialize (Hn m Hm). lia.
Qed.

(** The requests of the loop are in the order of the enumeration, none for
    a date before the next date of the generator. *)
Lemma for_loop_requests (fuel : nat) :
  forall (g : gen) (count : Z) (best : option offer) (w : world) res w' tr,
    for_loop cfg e fuel g count best w = (res, w') ->
    trace w' = trace w ++ tr ->
    Forall (fun r => next_date g <= fst r) (requests_of tr) /\
    StronglySorted request_before (requests_of tr).
Proof.
  assert (Hnil : forall (g : gen) (w : world) tr,
             trace w = trace w ++ tr ->
             Forall (fun r => next_date g <= fst r) (requests_of tr) /\
             StronglySorted request_before (requests_of tr)).
  { intros g w tr Ht. apply trace_ext_nil in Ht. subst tr. simpl.
    split; constructor. }
  induction fuel as [|fuel IH]; intros g count best w res w' tr H;
    simpl in H.
  - injection H as <- <-. apply Hnil.
  - destruct (gen_next g) as [d g'| |ex] eqn:Hg;
      try (injection H as <- <-; apply Hnil).
    apply gen_next_Yield in Hg. destruct Hg as (Hd & Hle & Hn & Hl).
    destruct (MAX_DIAS cfg <=? count) eqn:Hcap;
      try (injection H as <- <-; apply Hnil).
    unfold bind at 1, emit at 1 in H. unfold bind at 1 in H.
    match type of H with
    | context [candidates_of cfg e d ?w1] =>
        destruct (candidates_of cfg e d w1) as [[cands|ex] w2] eqn:Hc;
        pose proof Hc as Hc';
        apply candidates_of_trace in Hc';
        destruct Hc' as (tr1 & Ht1 & _)
    end; simpl in Ht1;
      destruct (candidates_of_requests _ _ _ _ tr1 Hc Ht1) as [Hd1 Hs1].
    + destruct (for_loop_trace cfg e _ _ _ _ _ _ _ H) as (tr2 & Ht2 & _).
      destruct (IH _ _ _ _ _ _ tr2 H Ht2) as [Hd2 Hs2].
      intros Ht. rewrite Ht2, Ht1, <- !app_assoc in Ht.
      apply app_inv_head in Ht. subst tr. simpl.
      rewrite requests_of_app. split.
      * apply Forall_app. split.
        -- eapply Forall_impl; [|exact Hd1]. simpl. intros r ->. lia.
        -- eapply Forall_impl; [|exact Hd2]. simpl. intros r Hr. lia.
      * apply sorted_app; auto. intros x y Hx Hy.
        rewrite Forall_forall in Hd1, Hd2.
        specialize (Hd1 x Hx). specialize (Hd2 y Hy). simpl in Hd1, Hd2.
        left. lia.
    + injection H as <- <-. intros Ht. rewrite Ht1, <- app_assoc in Ht.
      apply app_inv_head in Ht. subst tr. simpl. split; auto.
      eapply Forall_impl; [|exact Hd1]. simpl. intros r ->. lia.
Qed.

Lemma buscar_requests (w : world) res w' tr :
  buscar_mejor_precio_amadeus cfg e w = (res, w') ->
  trace w' = trace w ++ tr ->
  StronglySorted request_before (requests_of tr).
Proof.
  unfold buscar_mejor_precio_amadeus, bind at 1, lift.
  destruct (token e) as [u|ex].
  - intros H Ht. now apply (for_loop_requests _ _ _ _ _ _ _ _ H Ht).
  - intros [= <- <-] Ht. apply trace_ext_nil in Ht. subst tr. constructor.
Qed.

(** *** Termination with a result *)

Hypothesis token_ok : token e = Ok tt.
Hypothesis search_ok : forall dep ret, exists data, search e dep ret = Ok data.

Lemma sweep_returns (dep : date) (ns : list Z) :
  Forall (fun n => 1 <= dep + n <= MAXORDINAL) ns ->
  forall (cands : list offer) (w : world),
  exists r w', sweep e dep ns cands w = (Ok r, w').
Proof.
  induction ns as [|n ns IH]; intros Hns cands w; simpl.
  - unfold ret. eauto.
  - inversion Hns as [|? ? Hn Hns']; subst.
    unfold bind at 1, lift at 1, date_add.
    destruct (Z.leb_spec 1 (dep + n)); [|lia].
    destruct (Z.leb_spec (dep + n) MAXORDINAL); [|lia]. simpl.
    unfold bind at 1, do_request, bind at 1, emit, lift.
    destruct (search_ok dep (Some (dep + n))) as (data & ->).
    apply IH; auto.
Qed.

Lemma candidates_of_returns (dep : date) (w : world) :
  1 <= dep + Z.min 0 (NOCHES_MIN cfg) ->
  dep + Z.max 1 (NOCHES_MAX cfg) <= MAXORDINAL ->
  exists r w', candidates_of cfg e dep w = (Ok r, w').
Proof.
  intros Hlo Hhi. unfold candidates_of. destruct (SOLO_IDA cfg).
  - unfold do_request, bind, emit, lift.
    destruct (search_ok dep None) as (data & ->). eauto.
  - apply sweep_returns. apply Forall_forall. intros n Hn.
    apply py_range_In in Hn. lia.
Qed.

Lemma for_loop_returns (fuel : nat) :
  forall (g : gen) (count : Z) (best : option offer) (w : world),
    (Z.to_nat (MAX_DIAS cfg - count) < fuel)%nat ->
    gen_wf g ->
    1 <= next_date g + Z.min 0 (NOCHES_MIN cfg) ->
    last_date g + Z.max 1 (NOCHES_MAX cfg) <= MAXORDINAL ->
    exists r w', for_loop cfg e fuel g count best w = (Ok r, w').
Proof.
  induction fuel as [|fuel IH]; intros g count best w Hf Hwf Hlo Hhi;
    [lia|].
  simpl.
  assert (Hg : (exists d g', gen_next g = Yield d g' /\ gen_wf g') \/
               gen_next g = Stop).
  { unfold gen_next, while_yield. destruct g as [d1 d2|d1 d2]; simpl in *.
    - destruct (d1 <=? d2) eqn:Hd; [left|right]; auto.
      apply Z.leb_le in Hd. eauto.
    - unfold date_add.
      destruct (Z.leb_spec 1 (d1 + 1)); [|lia].
      destruct (Z.leb_spec (d1 + 1) MAXORDINAL); [|lia]. simpl.
      destruct (d1 + 1 <=? d2) eqn:Hd; [left|right]; auto.
      apply Z.leb_le in Hd. eauto. }
  destruct Hg as [(d & g' & Hg & Hwf')|Hg]; rewrite Hg.
  - apply gen_next_Yield in Hg. destruct Hg as (Hd & Hle & Hn & Hl).
    destruct (MAX_DIAS cfg <=? count) eqn:Hcap.
    + unfold ret. eauto.
    + apply Z.leb_gt in Hcap.
      unfold bind at 1, emit at 1. unfold bind at 1.
      match goal with
      | |- context [candidates_of cfg e d ?w1] =>
          destruct (candidates_of_returns d w1) as (cands & w2 & ->);
          try lia
      end.
      apply IH; auto; lia.
  - unfold ret. eauto.
Qed.

(** With its token, answers to its requests and dates in range, the
    search returns. *)
Lemma buscar_returns (w : world) :
  dates_in_range cfg ->
  exists r w', buscar_mejor_precio_amadeus cfg e w = (Ok r, w').
Proof.
  intros [Hlo Hhi].
  unfold buscar_mejor_precio_amadeus, bind at 1, lift. rewrite token_ok.
  apply for_loop_returns; simpl; auto. unfold loop_fuel. lia.
Qed.

End SearchOrder.

(** ** The claims on the search *)

(** X20.  The search calls [do_request] in the order of the enumeration
    (dates ascending, nights ascending within a date).
    When it returns, and no candidate it has seen is priced NaN, it returns
    the candidate with the least price, the first seen of those (strictly
    cheaper than every candidate seen before it), tagged; its price is at
    most every candidate's price.  Without candidates it returns [None].
    And it does return, whatever the candidates are, when it has its token,
    every request is answered and the dates stay in range. *)
Theorem selector_first_cheapest (cfg : config) (e : env) (w : world) :
  (forall r w',
     buscar_mejor_precio_amadeus cfg e w = (Ok r, w') ->
     exists tr,
       trace w' = trace w ++ tr /\
       StronglySorted request_before (requests_of tr) /\
       (candidates_seen e tr = [] -> r = None) /\
       (nan_free (candidates_seen e tr) ->
        match r with
        | None => candidates_seen e tr = []
        | Some b =>
            exists o,
              first_cheapest o (candidates_seen e tr) /\
              b = tag_best cfg o /\
              Forall (fun c => fle (price_of b) (price_of c) = true)
                     (candidates_seen e tr)
        end)) /\
  (token e = Ok tt ->
   (forall dep ret, exists data, search e dep ret = Ok data) ->
   dates_in_range cfg ->
   exists r w', buscar_mejor_precio_amadeus cfg e w = (Ok r, w')).
Proof.
  split.
  - intros r w' H.
    destruct (buscar_trace cfg e w _ _ H) as (tr & Ht & _ & _ & _ & Hb).
    specialize (Hb r eq_refl). exists tr. split; auto. split.
    { now apply (buscar_requests cfg e w _ _ tr H). }
    split.
    + intros Hnil. rewrite Hnil in Hb. specialize (Hb (Forall_nil _)).
      destruct r as [b|]; auto. destruct Hb as (o & Ho & _).
      apply first_cheapest_In in Ho. destruct Ho.
    + intros Hn. specialize (Hb Hn). destruct r as [b|]; auto.
      destruct Hb as (o & Ho & ->). exists o. repeat split; auto.
      rewrite price_of_tag_best. now apply first_cheapest_le.
  - intros Htok Hsearch Hrange. now apply buscar_returns.
Qed.

Lemma selector_first_cheapest_witness :
  exists tr,
    trace (snd (buscar_mejor_precio_amadeus (one_way 10 11 20)
                  (mk_env tie_search) fresh_world))
    = trace fresh_world ++ tr /\
    StronglySorted request_before (requests_of tr) /\
    (candidates_seen (mk_env tie_search) tr = [] ->
     Some (tag_best (one_way 10 11 20) offer_3) = None) /\
    (nan_free (candidates_seen (mk_env tie_search) tr) ->
     exists o,
       first_cheapest o (candidates_seen (mk_env tie_search) tr) /\
       tag_best (one_way 10 11 20) offer_3 = tag_best (one_way 10 11 20) o /\
       Forall (fun c => fle (price_of (tag_best (one_way 10 11 20) offer_3))
                            (price_of c) = true)
              (candidates_seen (mk_env tie_search) tr)).
Proof.
  apply (proj1 (selector_first_cheapest (one_way 10 11 20)
                  (mk_env tie_search) fresh_world)
           (Some (tag_best (one_way 10 11 20) offer_3))).
  vm_compute. reflexivity.
Defined.

(** C1.  The search does not return the best offer found when a candidate
    is priced NaN (a total that reads "nan" parses, and slips past the
    sentinel of [price_of]): with 5.0 on the first day and NaN then 3.0 on
    the second, [min] keeps the NaN offer, which then does not replace the
    5.0 offer; the search returns the 5.0 offer although the candidate at
    3.0 is cheaper. *)
Lemma selector_nan_counterexample :
  let res := buscar_mejor_precio_amadeus (one_way 10 11 20)
               (mk_env nan_search) fresh_world in
  fst res = Ok (Some (tag_best (one_way 10 11 20) offer_5)) /\
  In offer_3 (candidates_seen (mk_env nan_search) (trace (snd res))) /\
  fle (price_of (tag_best (one_way 10 11 20) offer_5)) (price_of offer_3)
  = false /\
  flt (price_of offer_3) (price_of (tag_best (one_way 10 11 20) offer_5))
  = true.
Proof.
  vm_compute. repeat split; auto.
Qed.



(** C7, as the code has it.  A window whose start is after its end is not
    an error: the generator stops at once, and the search (once it has its
    token) issues no request and returns [None]. *)
Theorem enumerator_empty_window
  (cfg : config) (e : env) (w : world) :
  FECHA_HASTA cfg < FECHA_DESDE cfg ->
  gen_next (daterange (FECHA_DESDE cfg) (FECHA_HASTA cfg)) = Stop /\
  buscar_mejor_precio_amadeus cfg e w
  = (match token e with Ok _ => Ok None | Err ex => Err ex end, w).
Proof.
  intros H.
  assert (Hg : gen_next (daterange (FECHA_DESDE cfg) (FECHA_HASTA cfg)) = Stop).
  { unfold daterange, gen_next, while_yield.
    destruct (Z.leb_spec (FECHA_DESDE cfg) (FECHA_HASTA cfg)); auto. lia. }
  split; auto.
  unfold buscar_mejor_precio_amadeus, bind, lift, loop_fuel.
  destruct (token e); auto. simpl for_loop.
  unfold daterange in Hg. simpl in Hg. now rewrite Hg.
Qed.

Lemma enumerator_empty_window_witness :
  gen_next (daterange 11 10) = Stop /\
  buscar_mejor_precio_amadeus (one_way 11 10 20) (mk_env tie_search)
    fresh_world
  = (Ok None, fresh_world).
Proof.
  apply (enumerator_empty_window (one_way 11 10 20) (mk_env tie_search)
           fresh_world).
  simpl. lia.
Defined.

(** C7 as stated fails: for the window from day 11 to day 10 the generator
    answers [Stop], it raises nothing. *)
Lemma enumerator_empty_window_counterexample :
  gen_next (daterange 11 10) = Stop /\
  (forall ex, gen_next (daterange 11 10) <> Raise ex) /\
  fst (buscar_mejor_precio_amadeus (one_way 11 10 20) (mk_env tie_search)
         fresh_world) = Ok None.
Proof.
  repeat split; try reflexivity. intros ex. discriminate.
Qed.

(** C8, as the code has it.  [price_of] is a total valuation: the parsed
    total, and [+inf] for a total that cannot be parsed.  When no candidate
    is priced NaN and some candidate is priced below [+inf], the offer that
    the search returns has a total that parses, below [+inf]: an offer that
    cannot be parsed is not selected. *)
Theorem unparsable_not_selected
  (cfg : config) (e : env) (w : world) (r : option offer) (w' : world) :
  buscar_mejor_precio_amadeus cfg e w = (Ok r, w') ->
  (forall o, price_of o = match o_total o with Some p => p | None => inf end) /\
  exists tr,
    trace w' = trace w ++ tr /\
    (nan_free (candidates_seen e tr) ->
     (exists c, In c (candidates_seen e tr) /\
                flt (price_of c) inf = true) ->
     exists b p, r = Some b /\ o_total b = Some p /\ flt p inf = true).
Proof.
  intros H. split; [reflexivity|].
  destruct (selector_best_le cfg e w r w' H) as (tr & Ht & Hsel).
  exists tr. split; auto. intros Hn (c & Hc & Hlt).
  specialize (Hsel Hn). destruct r as [b|].
  - assert (Hb : flt (price_of b) inf = true).
    { apply fle_flt_trans with (price_of c); auto.
      rewrite Forall_forall in Hsel. now apply Hsel. }
    unfold price_of in Hb. destruct (o_total b) as [p|] eqn:Hp.
    + now exists b, p.
    + discriminate Hb.
  - rewrite Hsel in Hc. destruct Hc.
Qed.

Lemma unparsable_not_selected_witness :
  (forall o, price_of o = match o_total o with Some p => p | None => inf end) /\
  exists tr,
    trace (snd (buscar_mejor_precio_amadeus (one_way 10 11 20)
                  (mk_env mixed_search) fresh_world))
    = trace fresh_world ++ tr /\
    (nan_free (candidates_seen (mk_env mixed_search) tr) ->
     (exists c, In c (candidates_seen (mk_env mixed_search) tr) /\
                flt (price_of c) inf = true) ->
     exists b p,
       Some (tag_best (one_way 10 11 20) offer_5) = Some b /\
       o_total b = Some p /\ flt p inf = true).
Proof.
  apply (unparsable_not_selected (one_way 10 11 20) (mk_env mixed_search)
           fresh_world (Some (tag_best (one_way 10 11 20) offer_5))).
  vm_compute. reflexivity.
Defined.

(** C8 as stated fails when every candidate is unparsable: the only
    candidate, whose total cannot be parsed, is the one selected. *)
Lemma unparsable_selected_counterexample :
  candidates_seen (mk_env malformed_search)
    (trace (snd (buscar_mejor_precio_amadeus (one_way 10 11 20)
                   (mk_env malformed_search) fresh_world)))
  = [offer_malformed] /\
  fst (buscar_mejor_precio_amadeus (one_way 10 11 20)
         (mk_env malformed_search) fresh_world)
  = Ok (Some (tag_best (one_way 10 11 20) offer_malformed)) /\
  o_total (tag_best (one_way 10 11 20) offer_malformed) = None.
Proof.
  vm_compute. repeat split.
Qed.

(** ** Signs through float arithmetic *)

Lemma has_sign_nonpos (x : pyfloat) : has_sign true x -> nonpos_or_nan x = true.
Proof. destruct x; simpl; auto. Qed.

Lemma shr_1_nonneg (mrs : shr_record) : 0 <= shr_m mrs -> 0 <= shr_m (shr_1 mrs).
Proof.
  destruct mrs as [m r s]. simpl. destruct m as [|[p|p|]|[p|p|]]; simpl; lia.
Qed.

Lemma iter_shr_1_nonneg (p : positive) :
  forall mrs, 0 <= shr_m mrs -> 0 <= shr_m (iter_pos shr_1 p mrs).
Proof.
  induction p as [p IH|p IH|]; intros mrs H; simpl;
    auto using shr_1_nonneg.
Qed.

Lemma shr_fexp_nonneg (m e : Z) (l : location) :
  0 <= m -> 0 <= shr_m (fst (shr_fexp prec emax m e l)).
Proof.
  intros H. unfold shr_fexp, shr.
  assert (H0 : 0 <= shr_m (shr_record_of_loc m l))
    by (destruct l as [|[]]; simpl; auto).
  destruct (fexp prec emax (Zdigits2 m + e) - e); simpl; auto.
  now apply iter_shr_1_nonneg.
Qed.

(** Rounding keeps the sign it is given. *)
Lemma binary_round_aux_sign (s : bool) (m e : Z) (l : location) :
  has_sign s (binary_round_aux prec emax s m e l).
Proof.
  unfold binary_round_aux.
  destruct (shr_fexp prec emax m e l) as [mrs' e'].
  destruct (shr_fexp prec emax _ e' loc_Exact) as [mrs'' e''].
  destruct (shr_m mrs''); [reflexivity| |exact I].
  destruct (Z.leb _ _); reflexivity.
Qed.

(** Rounding a non-negative mantissa never gives NaN. *)
Lemma binary_round_aux_not_nan (s : bool) (m e : Z) (l : location) :
  0 <= m -> is_nan (binary_round_aux prec emax s m e l) = false.
Proof.
  intros H. unfold binary_round_aux.
  pose proof (shr_fexp_nonneg m e l H) as H1.
  destruct (shr_fexp prec emax m e l) as [mrs' e']. simpl in H1.
  assert (H2 : 0 <= round_nearest_even (shr_m mrs') (loc_of_shr_record mrs')).
  { unfold round_nearest_even.
    destruct (loc_of_shr_record mrs') as [|[]]; try lia.
    destruct (Z.even (shr_m mrs')); lia. }
  pose proof (shr_fexp_nonneg _ e' loc_Exact H2) as H3.
  destruct (shr_fexp prec emax _ e' loc_Exact) as [mrs'' e'']. simpl in H3.
  destruct (shr_m mrs'') eqn:Hm; [reflexivity| |lia].
  destruct (Z.leb _ _); reflexivity.
Qed.

Lemma binary_normalize_nonpos (m e : Z) :
  m <= 0 ->
  nonpos_or_nan (binary_normalize prec emax m e false) = true /\
  is_nan (binary_normalize prec emax m e false) = false.
Proof.
  intros H. destruct m as [|p|p]; simpl; auto; [lia|].
  unfold binary_round.
  destruct (shl_align p e _) as [mz ez]. split.
  - apply has_sign_nonpos, binary_round_aux_sign.
  - apply binary_round_aux_not_nan. lia.
Qed.

(** *** Valid floats and their order *)

Lemma pow2_Zpos_succ (d : positive) : 2 ^ Zpos (Pos.succ d) = 2 * 2 ^ Zpos d.
Proof.
  rewrite Pos2Z.inj_succ. apply Z.pow_succ_r. lia.
Qed.

Lemma digits2_pos_bounds (m : positive) :
  2 ^ (Zpos (digits2_pos m) - 1) <= Zpos m < 2 ^ Zpos (digits2_pos m).
Proof.
  induction m as [p IH|p IH|]; simpl digits2_pos.
  - rewrite pow2_Zpos_succ.
    replace (Zpos (Pos.succ (digits2_pos p)) - 1) with (Z.succ (Zpos (digits2_pos p) - 1)) by lia.
    rewrite Z.pow_succ_r by lia. lia.
  - rewrite pow2_Zpos_succ.
    replace (Zpos (Pos.succ (digits2_pos p)) - 1) with (Z.succ (Zpos (digits2_pos p) - 1)) by lia.
    rewrite Z.pow_succ_r by lia. lia.
  - simpl. lia.
Qed.

Lemma iter_xO_value (d : positive) :
  forall m, Zpos (Pos.iter xO m d) = Zpos m * 2 ^ Zpos d.
Proof.
  induction d as [|d IH] using Pos.peano_ind; intros m.
  - simpl. lia.
  - rewrite Pos.iter_succ, pow2_Zpos_succ, Pos2Z.inj_xO, IH. lia.
Qed.

Lemma shl_align_value (m : positive) (e e' : Z) :
  e' <= e -> Zpos (fst (shl_align m e e')) = Zpos m * 2 ^ (e - e').
Proof.
  intros H. unfold shl_align. destruct (e' - e) as [|p|p] eqn:Hd.
  - replace (e - e') with 0 by lia. simpl. lia.
  - lia.
  - simpl fst. rewrite iter_xO_value. f_equal. f_equal. lia.
Qed.

(** The mantissa of a valid float has at most 53 bits, and exactly 53 above
    the least exponent. *)
Lemma valid_finite (s : bool) (m : positive) (e : Z) :
  valid (S754_finite s m e) = true ->
  -1074 <= e /\ Zpos m < 2 ^ 53 /\ (-1074 < e -> 2 ^ 52 <= Zpos m).
Proof.
  unfold valid, valid_binary, bounded, canonical_mantissa, fexp, emin.
  intros H. apply andb_prop in H. destruct H as [H _].
  apply Z.eqb_eq in H.
  pose proof (digits2_pos_bounds m) as [Hlo Hhi].
  change (3 - emax - prec) with (-1074) in H. change prec with 53 in H.
  assert (Hd : Zpos (digits2_pos m) <= 53) by lia.
  repeat split.
  - lia.
  - eapply Z.lt_le_trans; [exact Hhi|]. apply Z.pow_le_mono_r; lia.
  - intros He. assert (Zpos (digits2_pos m) = 53) by lia.
    replace 52 with (Zpos (digits2_pos m) - 1) by lia. exact Hlo.
Qed.

(** For valid positive floats, [x <= y] bounds the aligned mantissas. *)
Lemma fle_aligned (mx my : positive) (ex ey : Z) :
  valid (S754_finite false mx ex) = true ->
  valid (S754_finite false my ey) = true ->
  fle (S754_finite false mx ex) (S754_finite false my ey) = true ->
  Zpos (fst (shl_align mx ex (Z.min ex ey)))
  <= Zpos (fst (shl_align my ey (Z.min ex ey))).
Proof.
  intros Hx Hy Hle.
  apply valid_finite in Hx. destruct Hx as (Hex & Hmx & _).
  apply valid_finite in Hy. destruct Hy as (Hey & _ & Hmy).
  rewrite !shl_align_value by lia.
  unfold fle, SFleb in Hle. simpl in Hle.
  change (Pos.compare_cont Eq mx my) with (Pos.compare mx my) in Hle.
  destruct (Z.compare_spec ex ey) as [->|Hlt|Hgt].
  - rewrite Z.min_id, Z.sub_diag. simpl.
    destruct (Pos.compare_spec mx my); try discriminate Hle; lia.
  - rewrite Z.min_l, Z.sub_diag by lia.
    specialize (Hmy ltac:(lia)).
    assert (H2 : 2 ^ 1 <= 2 ^ (ey - ex)) by (apply Z.pow_le_mono_r; lia).
    change (2 ^ 1) with 2 in H2. change (2 ^ 0) with 1.
    change (2 ^ 53) with 9007199254740992 in Hmx.
    change (2 ^ 52) with 4503599627370496 in Hmy. nia.
  - discriminate Hle.
Qed.

(** *** The drop against a positive stored minimum *)

Lemma SFdiv_finite (sx sy : bool) (mx my : positive) (ex ey : Z) :
  has_sign (xorb sx sy)
    (SFdiv prec emax (S754_finite sx mx ex) (S754_finite sy my ey)) /\
  is_nan (SFdiv prec emax (S754_finite sx mx ex) (S754_finite sy my ey))
  = false.
Proof.
  unfold SFdiv.
  destruct (SFdiv_core_binary prec emax (Zpos mx) ex (Zpos my) ey)
    as [[mz ez] lz] eqn:Hc.
  split; [apply binary_round_aux_sign|].
  apply binary_round_aux_not_nan.
  unfold SFdiv_core_binary in Hc.
  match type of Hc with
  | context [Z.div_eucl ?a ?b] =>
      assert (Ha : 0 <= a);
      [|pose proof (Z.div_pos a b Ha ltac:(lia)) as Hq;
        unfold Z.div in Hq; destruct (Z.div_eucl a b) as [q r]]
  end.
  - destruct (_ - _ - _) as [|p|p]; try lia.
    apply Z.shiftl_nonneg. lia.
  - injection Hc as <- _ _. exact Hq.
Qed.

Lemma fsub_nonpos (x y : pyfloat) :
  valid x = true -> valid y = true ->
  is_positive x = true -> fle x y = true ->
  nonpos_or_nan (fsub x y) = true /\
  (is_finite x = true -> is_nan (fsub x y) = false).
Proof.
  intros Vx Vy Px Hle.
  destruct x as [[|]|[|]| |[|] mx ex]; try discriminate Px;
    destruct y as [[|]|[|]| |[|] my ey]; try discriminate Hle;
    try (split; [reflexivity|intros; (reflexivity || discriminate)]).
  unfold fsub, SFsub, cond_Zopp.
  pose proof (fle_aligned mx my ex ey Vx Vy Hle) as Ha.
  split; [|intros _]; apply binary_normalize_nonpos; lia.
Qed.

Lemma fmul_100_nonpos (x : pyfloat) :
  nonpos_or_nan x = true ->
  nonpos_or_nan (fmul x (of_int 100)) = true /\
  (is_nan x = false -> is_nan (fmul x (of_int 100)) = false).
Proof.
  intros H.
  replace (of_int 100) with (S754_finite false 7036874417766400 (-46))
    by reflexivity.
  destruct x as [s|s| |s m e]; simpl in H; subst;
    try (split; [reflexivity|intros; (reflexivity || discriminate)]).
  unfold fmul, SFmul. split.
  - apply has_sign_nonpos. apply (binary_round_aux_sign true).
  - intros _. apply binary_round_aux_not_nan. lia.
Qed.

Lemma SFdiv_nonpos (x p : pyfloat) :
  nonpos_or_nan x = true -> is_positive p = true ->
  nonpos_or_nan (SFdiv prec emax x p) = true /\
  (is_nan x = false -> is_finite p = true ->
   is_nan (SFdiv prec emax x p) = false).
Proof.
  intros H Pp.
  destruct p as [[|]|[|]| |[|] mp ep]; try discriminate Pp;
    destruct x as [s|s| |s m e]; simpl in H; subst;
    try (split; [reflexivity|intros; (reflexivity || discriminate)]).
  destruct (SFdiv_finite true false m mp e ep) as [Hs Hn]. split.
  - now apply has_sign_nonpos.
  - intros _ _. exact Hn.
Qed.

Lemma round2_nonpos (x : pyfloat) :
  nonpos_or_nan x = true ->
  nonpos_or_nan (round2 x) = true /\
  (is_nan x = false -> is_nan (round2 x) = false).
Proof.
  intros H. destruct x as [s|s| |s m e]; simpl in H; subst;
    try (split; [reflexivity|intros; (reflexivity || discriminate)]).
  unfold round2.
  destruct (match e with Zneg k => _ | _ => _ end) as [|p|p];
    try (split; reflexivity).
  destruct (SFdiv_finite true false p 100 0 0) as [Hs Hn]. split.
  - now apply has_sign_nonpos.
  - intros _. exact Hn.
Qed.

Lemma nonpos_le_zero (d : pyfloat) :
  nonpos_or_nan d = true -> is_nan d = false ->
  fle d (S754_zero false) = true.
Proof.
  destruct d as [s|s| |s m e]; simpl; intros H N; subst;
    try reflexivity; discriminate.
Qed.

(** A float that is zero, negative or NaN does not reach a positive
    threshold. *)
Lemma fge_num_nonpos (d : pyfloat) (thr : pynum) :
  nonpos_or_nan d = true -> num_positive thr = true -> fge_num d thr = false.
Proof.
  intros H P. unfold fge_num, cmp_num. destruct thr as [z|f]; simpl in P.
  - apply Z.ltb_lt in P. unfold cmp_int, cond_Zopp.
    destruct d as [s|s| |s m e]; simpl in H; subst; auto.
    + destruct (Z.compare_spec 0 z); auto; lia.
    + destruct e as [|k|k].
      * destruct (Z.compare_spec (- Zpos m * 2 ^ 0) z); auto; lia.
      * assert (0 < 2 ^ Zpos k) by (apply Z.pow_pos_nonneg; lia).
        destruct (Z.compare_spec (- Zpos m * 2 ^ Zpos k) z); auto; nia.
      * assert (0 < 2 ^ Zpos k) by (apply Z.pow_pos_nonneg; lia).
        destruct (Z.compare_spec (- Zpos m) (z * 2 ^ Zpos k)); auto; nia.
  - destruct f as [[|]|[|]| |[|] mf ef]; try discriminate P;
      destruct d as [s|s| |s m e]; simpl in H |- *; subst; reflexivity.
Qed.

Section Drop.

Variable cfg : config.
Variable e : env.

(** With a valid, strictly positive stored minimum and a price that is not
    below it, the drop is computed, is zero, negative or NaN (NaN only
    for an infinite minimum), and does not reach a positive threshold. *)
Lemma drop_pct_nonpos (prev_min total_price : pyfloat) :
  valid prev_min = true -> valid total_price = true ->
  is_positive prev_min = true ->
  fle prev_min total_price = true ->
  exists d,
    drop_pct prev_min total_price = Ok d /\
    nonpos_or_nan d = true /\
    (is_finite prev_min = true -> fle d (S754_zero false) = true) /\
    (num_positive (BAJA_MINIMA_PCT cfg) = true ->
     fge_num d (BAJA_MINIMA_PCT cfg) = false).
Proof.
  intros Vp Vt Pp Hle.
  destruct (fsub_nonpos _ _ Vp Vt Pp Hle) as [S1 S2].
  destruct (fmul_100_nonpos _ S1) as [M1 M2].
  destruct (SFdiv_nonpos _ _ M1 Pp) as [D1 D2].
  destruct (round2_nonpos _ D1) as [R1 R2].
  unfold drop_pct, fdiv.
  assert (Hz : is_zero prev_min = false)
    by (destruct prev_min as [[|]| | |]; try discriminate Pp; reflexivity).
  rewrite Hz. simpl. eexists. split; [reflexivity|].
  repeat split; auto.
  - intros Hf. apply nonpos_le_zero; auto.
  - intros Hthr. now apply fge_num_nonpos.
Qed.

End Drop.

(** ** The alert decision *)

Section Decision.

Variable cfg : config.

(** The branches of the decision: the flag goes with the reasons, and the
    state is either kept or gets the price as its new minimum, the latter
    only without a stored minimum or strictly below it. *)
Lemma alert_decision_cases (e : env) (total_price : pyfloat) (route_sum : route)
      (st : price_state) (a : bool) (ms : list motivo) (st' : price_state) :
  alert_decision cfg e total_price route_sum st = Ok (a, ms, st') ->
  (a = true <-> ms <> []) /\
  ((st' = st /\
    exists p, min_price st = Some p /\ flt total_price p = false) \/
   (st' = record_min e total_price route_sum st /\
    match min_price st with
    | None => True
    | Some p => flt total_price p = true
    end)).
Proof.
  unfold alert_decision.
  destruct (min_price st) as [p|] eqn:Hmin; simpl.
  - destruct (flt total_price p) eqn:Hlt;
      destruct (drop_pct p total_price) as [d|ex]; simpl;
      try discriminate.
    + destruct (fle_num total_price (PRECIO_OBJETIVO cfg));
        intros [= <- <- <-]; (split; [split; [discriminate|reflexivity]|]);
        right; auto.
    + destruct (fge_num d (BAJA_MINIMA_PCT cfg));
        destruct (fle_num total_price (PRECIO_OBJETIVO cfg));
        intros [= <- <- <-];
        (split; [split; (discriminate || reflexivity || congruence)|]);
        left; eauto.
  - destruct (fle_num total_price (PRECIO_OBJETIVO cfg));
      intros [= <- <- <-]; (split; [split; [discriminate|reflexivity]|]);
      right; auto.
Qed.

(** The decision fails only on a stored minimum that is zero. *)
Lemma alert_decision_total (e : env) (total_price : pyfloat)
      (route_sum : route) (st : price_state) :
  match min_price st with
  | Some p => is_zero p = false
  | None => True
  end ->
  exists a ms st',
    alert_decision cfg e total_price route_sum st = Ok (a, ms, st').
Proof.
  unfold alert_decision, drop_pct, fdiv.
  destruct (min_price st) as [p|]; simpl.
  - intros ->. simpl.
    destruct (flt total_price p); simpl;
      [|destruct (fge_num _ _)]; simpl;
      destruct (fle_num total_price (PRECIO_OBJETIVO cfg));
      do 3 eexists; reflexivity.
  - intros _.
    destruct (fle_num total_price (PRECIO_OBJETIVO cfg));
      do 3 eexists; reflexivity.
Qed.

(** When the price is not strictly below the stored minimum, the decision
    does not depend on the clock or on the route. *)
Lemma alert_decision_keep (e1 e2 : env) (total_price : pyfloat)
      (route1 route2 : route) (st : price_state) (p : pyfloat) :
  min_price st = Some p -> flt total_price p = false ->
  alert_decision cfg e2 total_price route2 st
  = alert_decision cfg e1 total_price route1 st.
Proof.
  intros Hmin Hlt. unfold alert_decision. now rewrite Hmin, Hlt.
Qed.

End Decision.

(** ** The run *)

Section Run.

Variable cfg : config.
Variable e : env.

Lemma buscar_state (w : world) res w' :
  buscar_mejor_precio_amadeus cfg e w = (res, w') ->
  state_file w' = state_file w /\
  exists tr, trace w' = trace w ++ tr /\
             forallb is_search_event tr = true.
Proof.
  intros H. apply buscar_trace in H.
  destruct H as (tr & Ht & Hf & Hs & _). eauto.
Qed.

(** [main] with its credentials, case by case after the search. *)
Lemma main_eq (w : world) :
  telegram_credentials e && amadeus_credentials e = true ->
  main cfg e w
  = main_after_search cfg e (loaded_state w)
      (fst (buscar_mejor_precio_amadeus cfg e (logged LogBuscando w)))
      (snd (buscar_mejor_precio_amadeus cfg e (logged LogBuscando w))).
Proof.
  intros Hc. unfold main. rewrite Hc. simpl.
  unfold bind at 1, log at 1, emit at 1.
  change {| state_file := state_file w;
            trace := trace w ++ [EvLog LogBuscando] |}
    with (logged LogBuscando w).
  unfold bind at 1.
  destruct (buscar_mejor_precio_amadeus cfg e (logged LogBuscando w))
    as [[[offer|]|ex] w1] eqn:Hb; simpl; try reflexivity.
  destruct (buscar_state _ _ _ Hb) as [Hsf _]. simpl in Hsf.
  unfold bind at 1, lift at 1, total_of.
  destruct (o_total offer) as [total_price|]; [|reflexivity].
  unfold bind at 1, lift at 1.
  destruct (carriers_str offer) as [cs|ex]; [|reflexivity].
  unfold bind at 1, load_state, bind at 1, emit at 1. simpl.
  assert (Hl : match state_file w1 with
               | Some st => st
               | None => empty_state
               end = loaded_state w)
    by (unfold loaded_state; now rewrite Hsf).
  rewrite Hl. unfold bind at 1, lift at 1.
  destruct (alert_decision cfg e total_price (route_sum_of cfg offer)
              (loaded_state w)) as [[[a ms] st']|ex]; [|reflexivity].
  unfold bind at 1, save_state. simpl.
  destruct a.
  - unfold send_telegram, bind, emit, lift, log. simpl.
    rewrite <- !app_assoc. simpl.
    destruct (telegram e) as [[]|ex]; unfold emit; simpl;
      rewrite <- ?app_assoc; reflexivity.
  - unfold log, emit. simpl. rewrite <- !app_assoc. reflexivity.
Qed.



(** A run of [main] keeps the state file, or saves the state of a decision
    made on the state it loaded. *)
Lemma main_state (w : world) :
  state_file (snd (main cfg e w)) = state_file w \/
  exists total_price route_sum a ms st',
    alert_decision cfg e total_price route_sum (loaded_state w)
    = Ok (a, ms, st') /\
    state_file (snd (main cfg e w)) = Some st'.
Proof.
  destruct (telegram_credentials e && amadeus_credentials e) eqn:Hc.
  2:{ left. unfold main. now rewrite Hc. }
  rewrite (main_eq w Hc).
  destruct (buscar_mejor_precio_amadeus cfg e (logged LogBuscando w))
    as [resb w1] eqn:Hb.
  destruct (buscar_state _ _ _ Hb) as [Hsf _]. simpl in Hsf. simpl.
  unfold main_after_search.
  destruct resb as [[offer|]|ex]; simpl; auto.
  destruct (o_total offer) as [total_price|]; simpl; auto.
  destruct (carriers_str offer) as [cs|ex]; simpl; auto.
  destruct (alert_decision cfg e total_price (route_sum_of cfg offer)
              (loaded_state w)) as [[[a ms] st']|ex] eqn:Hd; simpl; auto.
  right. exists total_price, (route_sum_of cfg offer), a, ms, st'.
  split; auto. now destruct a.
Qed.

(** The handler of the script does not touch the state file. *)
Lemma script_state (w : world) :
  state_file (snd (script cfg e w)) = state_file (snd (main cfg e w)).
Proof.
  unfold script. destruct (main cfg e w) as [[[]|ex] w1]; simpl; auto.
  unfold bind, log, emit, raise. simpl.
  destruct (telegram_credentials e); reflexivity.
Qed.

End Run.

(** ** The claims on the decision *)

Lemma fle_not_flt (x y : pyfloat) : fle x y = true -> flt y x = false.
Proof.
  unfold flt, fle, SFltb, SFleb.
  float_cases x; float_cases y; simpl; intros H; cmp_spec.
Qed.

(** C2.  With a stored minimum of 650, a price of 600 and a target of 600,
    the decision alerts with two reasons, the new minimum (a drop of 7.69
    per cent) and the target price, and the state to save has 600 as its
    minimum; a run of the script that finds an offer at 600 over a stored
    minimum of 650 ends with 600 stored and that alert sent. *)
Theorem scenario_new_minimum_and_target
  (cfg : config) (e : env) (route_sum : route) (st : price_state) :
  PRECIO_OBJETIVO cfg = PyInt 600 ->
  min_price st = Some (of_int 650) ->
  (exists st',
     alert_decision cfg e (of_int 600) route_sum st
     = Ok (true, [NuevoMinimo pct_7_69; PrecioObjetivo], st') /\
     min_price st' = Some (of_int 600)) /\
  stored_min (run (one_way 10 11 20, mk_env search_600)
                (world_with_min (of_int 650)))
  = Some (of_int 600) /\
  exists m,
    In (EvTelegram m)
       (trace (run (one_way 10 11 20, mk_env search_600)
                 (world_with_min (of_int 650)))) /\
    msg_motivos m = [NuevoMinimo pct_7_69; PrecioObjetivo].
Proof.
  intros Ht Hm. split; [|split].
  - unfold alert_decision. rewrite Hm, Ht. eexists. split; reflexivity.
  - reflexivity.
  - eexists. split; [vm_compute; do 7 right; left; reflexivity|reflexivity].
Qed.

Lemma scenario_new_minimum_and_target_witness :
  (exists st',
     alert_decision source_config (mk_env single_search) (of_int 600)
       ("EZE"%string, "MAD"%string) (mk_state (of_int 650))
     = Ok (true, [NuevoMinimo pct_7_69; PrecioObjetivo], st') /\
     min_price st' = Some (of_int 600)) /\
  stored_min (run (one_way 10 11 20, mk_env search_600)
                (world_with_min (of_int 650)))
  = Some (of_int 600) /\
  exists m,
    In (EvTelegram m)
       (trace (run (one_way 10 11 20, mk_env search_600)
                 (world_with_min (of_int 650)))) /\
    msg_motivos m = [NuevoMinimo pct_7_69; PrecioObjetivo].
Proof.
  apply (scenario_new_minimum_and_target source_config (mk_env single_search)
           ("EZE"%string, "MAD"%string) (mk_state (of_int 650)));
    reflexivity.
Defined.

(** C10.  Whenever the decision is made, the alert flag is set exactly when
    the list of reasons is not empty; and the decision is made whenever the
    stored minimum, if there is one, is not zero. *)
Theorem alert_iff_reasons
  (cfg : config) (e : env) (total_price : pyfloat) (route_sum : route)
  (st : price_state) :
  (forall a ms st',
     alert_decision cfg e total_price route_sum st = Ok (a, ms, st') ->
     (a = true <-> ms <> [])) /\
  ((forall p, min_price st = Some p -> is_zero p = false) ->
   exists a ms st',
     alert_decision cfg e total_price route_sum st = Ok (a, ms, st')).
Proof.
  split.
  - intros a ms st' H. now apply alert_decision_cases in H.
  - intros Hz. apply alert_decision_total.
    destruct (min_price st) as [p|]; auto.
Qed.

Lemma alert_iff_reasons_witness : false = true <-> @nil motivo <> [].
Proof.
  apply (proj1 (alert_iff_reasons source_config (mk_env single_search)
                  (of_int 700) ("EZE"%string, "MAD"%string)
                  (mk_state (of_int 650)))
           false [] (mk_state (of_int 650))).
  reflexivity.
Defined.

(** C4.  If a decision leaves the stored minimum as it was, a second
    decision on the state it saved, with the same price (whatever the clock
    and the route), gives the same flag and the same reasons and leaves the
    stored minimum as it is. *)
Theorem decision_idempotent
  (cfg : config) (e1 e2 : env) (total_price : pyfloat) (route1 route2 : route)
  (st : price_state) (a : bool) (ms : list motivo) (st1 : price_state) :
  alert_decision cfg e1 total_price route1 st = Ok (a, ms, st1) ->
  min_price st1 = min_price st ->
  exists st2,
    alert_decision cfg e2 total_price route2 st1 = Ok (a, ms, st2) /\
    min_price st2 = min_price st1.
Proof.
  intros H Hmin. pose proof H as Hc. apply alert_decision_cases in Hc.
  destruct Hc as [_ [[-> (p & Hp & Hlt)]|[-> Hnew]]].
  - exists st. split; auto.
    now rewrite (alert_decision_keep cfg e1 e2 _ route1 route2 st p).
  - simpl in Hmin. destruct (min_price st) as [p|]; [|discriminate].
    injection Hmin as <-. now rewrite flt_irrefl in Hnew.
Qed.

Lemma decision_idempotent_witness :
  exists st2,
    alert_decision source_config (mk_env tie_search) (of_int 520)
      ("EZE"%string, "MAD"%string) (mk_state (of_int 500))
    = Ok (true, [PrecioObjetivo], st2) /\
    min_price st2 = min_price (mk_state (of_int 500)).
Proof.
  apply (decision_idempotent source_config (mk_env single_search)
           (mk_env tie_search) (of_int 520)
           ("EZE"%string, "MAD"%string) ("EZE"%string, "MAD"%string)
           (mk_state (of_int 500)) true [PrecioObjetivo]
           (mk_state (of_int 500)));
    reflexivity.
Defined.

(** C5, as the code has it.  With a valid stored minimum that is strictly
    positive, a valid price that is not below it and a positive threshold,
    the drop is computed, it is zero, negative or NaN (at most zero when the
    stored minimum is finite), it does not reach the threshold, and the
    decision has no drop-based reason: it keeps the state and alerts only
    for the target price. *)
Theorem no_drop_reason_above_minimum
  (cfg : config) (e : env) (total_price : pyfloat) (route_sum : route)
  (st : price_state) (prev_min : pyfloat) :
  min_price st = Some prev_min ->
  valid prev_min = true -> valid total_price = true ->
  is_positive prev_min = true ->
  fle prev_min total_price = true ->
  num_positive (BAJA_MINIMA_PCT cfg) = true ->
  exists d,
    drop_pct prev_min total_price = Ok d /\
    nonpos_or_nan d = true /\
    (is_finite prev_min = true -> fle d (S754_zero false) = true) /\
    fge_num d (BAJA_MINIMA_PCT cfg) = false /\
    exists ms,
      alert_decision cfg e total_price route_sum st
      = Ok (fle_num total_price (PRECIO_OBJETIVO cfg), ms, st) /\
      existsb is_baja ms = false.
Proof.
  intros Hm Vp Vt Pp Hle Hthr.
  destruct (drop_pct_nonpos cfg prev_min total_price Vp Vt Pp Hle)
    as (d & Hd & Hn & Hz & Hge).
  specialize (Hge Hthr).
  exists d. repeat split; auto.
  unfold alert_decision. rewrite Hm, (fle_not_flt _ _ Hle), Hd. simpl.
  rewrite Hge.
  destruct (fle_num total_price (PRECIO_OBJETIVO cfg)); eexists;
    split; reflexivity.
Qed.

Lemma no_drop_reason_above_minimum_witness :
  exists d,
    drop_pct (of_int 500) (of_int 520) = Ok d /\
    nonpos_or_nan d = true /\
    (is_finite (of_int 500) = true -> fle d (S754_zero false) = true) /\
    fge_num d (BAJA_MINIMA_PCT source_config) = false /\
    exists ms,
      alert_decision source_config (mk_env single_search) (of_int 520)
        ("EZE"%string, "MAD"%string) (mk_state (of_int 500))
      = Ok (fle_num (of_int 520) (PRECIO_OBJETIVO source_config), ms,
            mk_state (of_int 500)) /\
      existsb is_baja ms = false.
Proof.
  apply (no_drop_reason_above_minimum source_config (mk_env single_search)
           (of_int 520) ("EZE"%string, "MAD"%string) (mk_state (of_int 500))
           (of_int 500));
    reflexivity.
Defined.

(** C5 as stated fails on a stored minimum that is not strictly positive.
    With a stored minimum of 0.0 and a price of 5.0 the formula divides by
    zero: no value comes out of it and the decision fails.  With a stored
    minimum of -100.0 and a price of -50.0 the drop is 50.0, which reaches
    the threshold of 8: the drop-based reason is added. *)
Lemma no_drop_reason_counterexample :
  (fle (S754_zero false) (of_int 5) = true /\
   num_positive (BAJA_MINIMA_PCT source_config) = true /\
   drop_pct (S754_zero false) (of_int 5) = Err ZeroDivisionError /\
   alert_decision source_config (mk_env single_search) (of_int 5)
     ("EZE"%string, "MAD"%string) (mk_state (S754_zero false))
   = Err ZeroDivisionError) /\
  (fle (of_int (-100)) (of_int (-50)) = true /\
   drop_pct (of_int (-100)) (of_int (-50)) = Ok (of_int 50) /\
   alert_decision source_config (mk_env single_search) (of_int (-50))
     ("EZE"%string, "MAD"%string) (mk_state (of_int (-100)))
   = Ok (true, [Baja (of_int 50); PrecioObjetivo], mk_state (of_int (-100)))).
Proof.
  vm_compute. repeat split.
Qed.

(** ** The claims on whole runs *)

(** One run keeps the stored minimum or lowers it strictly. *)
Lemma run_min (ce : config * env) (w : world) (p : pyfloat) :
  stored_min w = Some p ->
  exists q, stored_min (run ce w) = Some q /\ (q = p \/ flt q p = true).
Proof.
  intros Hp. destruct ce as [cfg e]. unfold run. simpl.
  unfold stored_min in *. rewrite script_state.
  destruct (main_state cfg e w)
    as [Hsame|(total_price & route_sum & a & ms & st' & Hd & Hst)].
  - rewrite Hsame. eauto.
  - rewrite Hst. apply alert_decision_cases in Hd.
    assert (Hl : min_price (loaded_state w) = Some p).
    { unfold loaded_state. destruct (state_file w); [exact Hp|discriminate]. }
    destruct Hd as [_ [[-> _]|[-> Hnew]]].
    + eauto.
    + rewrite Hl in Hnew. simpl. eauto.
Qed.

(** C3.  Over any sequence of runs, each with its own configuration and
    environment, a stored minimum stays stored and never increases: at the
    end it is the minimum it was or a strictly smaller one. *)
Theorem stored_min_never_increases
  (ces : list (config * env)) (w : world) (p : pyfloat) :
  stored_min w = Some p ->
  exists q,
    stored_min (runs ces w) = Some q /\
    (q = p \/ flt q p = true) /\
    flt p q = false.
Proof.
  revert w p. unfold runs.
  induction ces as [|ce ces IH]; intros w p Hp; simpl.
  - exists p. repeat split; auto using flt_irrefl.
  - destruct (run_min ce w p Hp) as (q1 & Hq1 & Hle1).
    destruct (IH (run ce w) q1 Hq1) as (q & Hq & Hle & _).
    exists q. split; auto.
    assert (Hqp : q = p \/ flt q p = true).
    { destruct Hle as [->|Hlt]; auto.
      destruct Hle1 as [->|Hlt1]; auto.
      right. now apply flt_trans with q1. }
    split; auto. destruct Hqp as [->|Hlt].
    + apply flt_irrefl.
    + now apply flt_asym.
Qed.

Lemma stored_min_never_increases_witness :
  exists q,
    stored_min (runs [(one_way 10 11 20, mk_env single_search);
                      (one_way 10 11 20, mk_env tie_search);
                      (one_way 10 11 20, mk_env single_search)]
                  (world_with_min (of_int 650)))
    = Some q /\
    (q = of_int 650 \/ flt q (of_int 650) = true) /\
    flt (of_int 650) q = false.
Proof.
  apply (stored_min_never_increases
           [(one_way 10 11 20, mk_env single_search);
            (one_way 10 11 20, mk_env tie_search);
            (one_way 10 11 20, mk_env single_search)]
           (world_with_min (of_int 650)) (of_int 650)).
  reflexivity.
Defined.

(** C9.  The claim fails on the runs that fail between the selection and
    the save: in each of the three runs below an offer is selected and the
    state file is not written.  A search whose only offer has a total that
    does not parse selects that offer, and [main] fails on
    [float(offer["price"]["total"])] before it loads the state: the same
    expression is guarded in [price_of] and is not in [main].  An offer
    with the carrier code [null] makes the join of the carriers raise
    [TypeError], also before the state is loaded.  A stored minimum of 0.0
    with an offer at 5.0 makes the drop divide by zero after the state is
    loaded. *)
Lemma state_not_saved_counterexample :
  (fst (buscar_mejor_precio_amadeus (one_way 10 11 20)
          (mk_env malformed_search) (logged LogBuscando fresh_world))
   = Ok (Some (tag_best (one_way 10 11 20) offer_malformed)) /\
   fst (script (one_way 10 11 20) (mk_env malformed_search) fresh_world)
   = Err TotalError /\
   state_file (snd (script (one_way 10 11 20) (mk_env malformed_search)
                      fresh_world)) = None /\
   existsb is_state_event
     (trace (snd (script (one_way 10 11 20) (mk_env malformed_search)
                    fresh_world))) = false) /\
  (fst (buscar_mejor_precio_amadeus (one_way 10 11 20)
          (mk_env null_carrier_search) (logged LogBuscando fresh_world))
   = Ok (Some (tag_best (one_way 10 11 20) offer_null_carrier)) /\
   fst (script (one_way 10 11 20) (mk_env null_carrier_search) fresh_world)
   = Err TypeError /\
   state_file (snd (script (one_way 10 11 20) (mk_env null_carrier_search)
                      fresh_world)) = None /\
   existsb is_state_event
     (trace (snd (script (one_way 10 11 20) (mk_env null_carrier_search)
                    fresh_world))) = false) /\
  (fst (buscar_mejor_precio_amadeus (one_way 10 11 20)
          (mk_env single_search)
          (logged LogBuscando (world_with_min (S754_zero false))))
   = Ok (Some (tag_best (one_way 10 11 20) offer_5)) /\
   fst (script (one_way 10 11 20) (mk_env single_search)
          (world_with_min (S754_zero false)))
   = Err ZeroDivisionError /\
   existsb (fun ev => match ev with EvSaveState _ => true | _ => false end)
     (trace (snd (script (one_way 10 11 20) (mk_env single_search)
                    (world_with_min (S754_zero false))))) = false).
Proof.
  vm_compute. repeat split.
Qed.

(** * Further properties *)

(** ** The requests of a search *)

Lemma gen_next_Stop (g : gen) : gen_next g = Stop -> last_date g < next_date g.
Proof.
  unfold gen_next, while_yield. destruct g as [d1 d2|d1 d2]; simpl.
  - destruct (Z.leb_spec d1 d2); [discriminate|auto].
  - destruct (date_add d1 1) as [d1'|ex] eqn:Ha; [|discriminate].
    apply date_add_Ok in Ha. subst d1'.
    destruct (Z.leb_spec (d1 + 1) d2); [discriminate|auto].
Qed.

Lemma py_range_length (a b : Z) : List.length (py_range a b) = Z.to_nat (b - a).
Proof.
  unfold py_range. now rewrite length_map, length_seq.
Qed.

Lemma flat_map_length_le {A B : Type} (f : A -> list B) (n : nat) (l : list A) :
  Forall (fun a => (List.length (f a) <= n)%nat) l ->
  (List.length (flat_map f l) <= List.length l * n)%nat.
Proof.
  induction 1 as [|a l Ha Hl IH]; simpl; [lia|].
  rewrite length_app. lia.
Qed.

Section SearchMore.

Variable cfg : config.
Variable e : env.

Lemma sweep_request_count (dep : date) (ns : list Z) :
forall (cands : list offer) (w : world) res w' tr,
  sweep e dep ns cands w = (res, w') ->
  trace w' = trace w ++ tr ->
  (List.length (requests_of tr) <= List.length ns)%nat.
Proof.
induction ns as [|n ns IH]; intros cands w res w' tr H Htr; simpl in H.
- injection H as <- <-. apply trace_ext_nil in Htr. subst tr. simpl. lia.
- unfold bind, lift, do_request, emit in H. simpl in H.
  destruct (date_add dep n) as [r0|ex] eqn:Ha.
  + destruct (search e dep (Some r0)) as [data|ex] eqn:Hs.
    * pose proof H as Ht. apply sweep_trace in Ht.
      destruct Ht as (tr' & Ht & _). simpl in Ht.
      pose proof (IH _ _ _ _ tr' H Ht) as Hlen.
      rewrite Ht, <- app_assoc in Htr. apply app_inv_head in Htr.
      subst tr. simpl. lia.
    * injection H as <- <-. simpl in Htr. apply app_inv_head in Htr.
      subst tr. simpl. lia.
  + injection H as <- <-. apply trace_ext_nil in Htr. subst tr. simpl. lia.
Qed.

(** The requests of one departure date: all for that date, of the shape of
  the search mode, no more than [requests_per_date], and nothing else in
  its trace. *)
Lemma date_trace_requests (seg : date * list event) :
date_trace cfg e seg ->
forallb is_request (snd seg) = true /\
(List.length (requests_of (snd seg)) <= requests_per_date cfg)%nat /\
Forall (fun r => fst r = fst seg /\ request_ok cfg r) (requests_of (snd seg)).
Proof.
destruct seg as [d t]. intros (w & res & w' & H & Ht). simpl in *.
split.
{ destruct (candidates_of_trace cfg e d w _ _ H) as (t' & Ht' & _ & Hr & _).
  rewrite Ht in Ht'. apply app_inv_head in Ht'. now subst t'. }
unfold candidates_of in H. unfold requests_per_date, request_ok.
destruct (SOLO_IDA cfg).
- unfold do_request, bind, emit, lift in H. simpl in H.
  injection H as <- <-. simpl in Ht. apply app_inv_head in Ht. subst t.
  simpl. split; [lia|]. repeat constructor.
- split.
  + pose proof (sweep_request_count _ _ _ _ _ _ t H Ht) as Hlen.
    rewrite py_range_length in Hlen. exact Hlen.
  + destruct (sweep_requests e _ _ _ _ _ _ t H Ht) as (ns' & Hin & _ & Hreq).
    rewrite Hreq. apply Forall_forall. intros r Hr.
    apply in_map_iff in Hr. destruct Hr as (n & <- & Hn). simpl.
    split; auto. exists n. split; auto.
    apply Hin, py_range_In in Hn. lia.
Qed.

(** The trace of the loop, date by date. *)
Lemma for_loop_segments (fuel : nat) :
forall (g : gen) (count : Z) (best : option offer) (w : world) res w',
  for_loop cfg e fuel g count best w = (res, w') ->
  exists segs,
    trace w' = trace w ++ flat_map seg_events segs /\
    Forall (date_trace cfg e) segs.
Proof.
assert (Hnil : forall w : world,
           exists segs,
             trace w = trace w ++ flat_map seg_events segs /\
             Forall (date_trace cfg e) segs).
{ intros w. exists []. simpl. rewrite app_nil_r. split; auto. }
induction fuel as [|fuel IH]; intros g count best w res w' H; simpl in H.
- injection H as <- <-. apply Hnil.
- destruct (gen_next g) as [d g'| |ex] eqn:Hg;
    try (injection H as <- <-; apply Hnil).
  destruct (MAX_DIAS cfg <=? count) eqn:Hcap;
    try (injection H as <- <-; apply Hnil).
  unfold bind at 1, emit at 1 in H. unfold bind at 1 in H.
  match type of H with
  | context [candidates_of cfg e d ?w1] =>
      destruct (candidates_of cfg e d w1) as [[cands|ex] w2] eqn:Hc;
      pose proof Hc as Hc';
      apply candidates_of_trace in Hc';
      destruct Hc' as (tr1 & Ht1 & _)
  end; simpl in Ht1.
  + apply IH in H. destruct H as (segs & Ht2 & Hsegs).
    exists ((d, tr1) :: segs). split.
    * rewrite Ht2, Ht1, <- !app_assoc. reflexivity.
    * constructor; auto. do 3 eexists. split; [exact Hc|exact Ht1].
  + injection H as <- <-. exists [(d, tr1)]. split.
    * rewrite Ht1, <- !app_assoc. simpl. now rewrite app_nil_r.
    * repeat constructor. do 3 eexists. split; [exact Hc|exact Ht1].
Qed.

Lemma segments_dates (segs : list (date * list event)) :
Forall (date_trace cfg e) segs ->
dates_of (flat_map seg_events segs) = map fst segs /\
requests_of (flat_map seg_events segs)
= flat_map (fun seg => requests_of (snd seg)) segs.
Proof.
induction 1 as [|seg segs Hs Hl [IH1 IH2]]; simpl; auto.
apply date_trace_requests in Hs. destruct Hs as (Hr & _).
rewrite dates_of_app, requests_of_app, IH1, IH2.
rewrite (dates_of_requests _ Hr). split; reflexivity.
Qed.

(** The requests of a search: their number is bounded by the days taken up
  times [requests_per_date], and each is for a consumed date and of the
  shape of the search mode. *)
Lemma buscar_requests_bound (w : world) res w' tr :
buscar_mejor_precio_amadeus cfg e w = (res, w') ->
trace w' = trace w ++ tr ->
(List.length (requests_of tr)
 <= List.length (dates_of tr) * requests_per_date cfg)%nat /\
Forall (fun r => In (fst r) (dates_of tr) /\ request_ok cfg r)
       (requests_of tr).
Proof.
unfold buscar_mejor_precio_amadeus, bind at 1, lift.
destruct (token e) as [u|ex].
- intros H Ht. apply for_loop_segments in H.
  destruct H as (segs & Hs & Hsegs).
  rewrite Hs in Ht. apply app_inv_head in Ht. subst tr.
  destruct (segments_dates segs Hsegs) as [-> ->]. split.
  + rewrite length_map. apply flat_map_length_le.
    eapply Forall_impl; [|exact Hsegs]. intros seg Hseg.
    now apply date_trace_requests in Hseg.
  + apply Forall_forall. intros r Hr. apply in_flat_map in Hr.
    destruct Hr as (seg & Hseg & Hr).
    rewrite Forall_forall in Hsegs.
    destruct (date_trace_requests seg (Hsegs seg Hseg)) as (_ & _ & Hok).
    rewrite Forall_forall in Hok. destruct (Hok r Hr) as [Hd Hrok].
    split; auto. rewrite Hd. now apply in_map.
- intros [= <- <-] Ht. apply trace_ext_nil in Ht. subst tr. simpl.
  split; [lia|constructor].
Qed.

(** When the loop returns, it has taken up every date that the cap and the
  window leave. *)
Lemma for_loop_dates_exact (fuel : nat) :
forall (g : gen) (count : Z) (best : option offer) (w : world) r w' tr,
  for_loop cfg e fuel g count best w = (Ok r, w') ->
  trace w' = trace w ++ tr ->
  Z.of_nat (List.length (dates_of tr))
  = Z.max 0 (Z.min (MAX_DIAS cfg - count)
                   (last_date g - next_date g + 1)).
Proof.
induction fuel as [|fuel IH]; intros g count best w r w' tr H; simpl in H.
- discriminate H.
- destruct (gen_next g) as [d g'| |ex] eqn:Hg.
  3:{ discriminate H. }
  2:{ injection H as <- <-. intros Ht. apply trace_ext_nil in Ht. subst tr.
      apply gen_next_Stop in Hg. simpl. lia. }
  apply gen_next_Yield in Hg. destruct Hg as (Hd & Hle & Hn & Hl).
  destruct (MAX_DIAS cfg <=? count) eqn:Hcap.
  { injection H as <- <-. intros Ht. apply trace_ext_nil in Ht. subst tr.
    apply Z.leb_le in Hcap. simpl. lia. }
  apply Z.leb_gt in Hcap.
  unfold bind at 1, emit at 1 in H. unfold bind at 1 in H.
  match type of H with
  | context [candidates_of cfg e d ?w1] =>
      destruct (candidates_of cfg e d w1) as [[cands|ex] w2] eqn:Hc;
      [|discriminate H];
      apply candidates_of_trace in Hc;
      destruct Hc as (tr1 & Ht1 & _ & Hr1 & _)
  end; simpl in Ht1.
  destruct (for_loop_trace cfg e _ _ _ _ _ _ _ H) as (tr2 & Ht2 & _).
  pose proof (IH _ _ _ _ _ _ tr2 H Ht2) as Hlen.
  intros Ht. rewrite Ht2, Ht1, <- !app_assoc in Ht.
  apply app_inv_head in Ht. subst tr. simpl.
  rewrite dates_of_app, (dates_of_requests _ Hr1). simpl. lia.
Qed.

End SearchMore.

(** ** The whole of [main], case by case *)

Section MainCases.

Variable cfg : config.
Variable e : env.

Lemma main_without_credentials (w : world) :
telegram_credentials e && amadeus_credentials e = false ->
main cfg e w = (Err RuntimeError, w).
Proof.
intros Hc. unfold main. now rewrite Hc.
Qed.

(** After the search, [main] adds no search event, and it only adds. *)
Lemma main_after_search_trace (st0 : price_state)
    (resb : result (option offer)) (w1 : world) :
exists rest,
  trace (snd (main_after_search cfg e st0 resb w1)) = trace w1 ++ rest /\
  existsb is_search_event rest = false.
Proof.
unfold main_after_search.
destruct resb as [[offer|]|ex].
- destruct (o_total offer) as [total_price|].
  + destruct (carriers_str offer) as [cs|ex].
    * destruct (alert_decision _ _ _ _ _) as [[[[|] ms] st']|ex]; simpl.
      -- eexists. split; [reflexivity|]. now destruct (telegram e).
      -- eexists. split; reflexivity.
      -- eexists. split; reflexivity.
    * exists []. simpl. now rewrite app_nil_r.
  + exists []. simpl. now rewrite app_nil_r.
- simpl. eexists. split; reflexivity.
- exists []. simpl. now rewrite app_nil_r.
Qed.

(** What the handler of the script adds after [main]. *)
Lemma script_eq (w : world) :
script cfg e w
= match fst (main cfg e w) with
  | Ok _ => (Ok tt, snd (main cfg e w))
  | Err ex =>
      (Err ex,
       {| state_file := state_file (snd (main cfg e w));
          trace := trace (snd (main cfg e w))
                   ++ EvLog (LogError ex)
                      :: (if telegram_credentials e
                          then [EvTelegramError ex] else []) |})
  end.
Proof.
unfold script. destruct (main cfg e w) as [[[]|ex] w1]; simpl; auto.
unfold bind, log, emit, raise. simpl.
destruct (telegram_credentials e); simpl; rewrite <- ?app_assoc; reflexivity.
Qed.

(** A run only adds to the trace; with the credentials, what it adds is the
  first line of the log, the events of the search, and then events that
  are not of the search. *)
Lemma script_trace (w : world) :
trace (snd (script cfg e w)) = trace w ++ new_events cfg e w /\
(telegram_credentials e && amadeus_credentials e = false ->
 existsb is_search_event (new_events cfg e w) = false) /\
(telegram_credentials e && amadeus_credentials e = true ->
 exists trb rest,
   trace (snd (buscar_mejor_precio_amadeus cfg e (logged LogBuscando w)))
   = trace (logged LogBuscando w) ++ trb /\
   new_events cfg e w = EvLog LogBuscando :: trb ++ rest /\
   existsb is_search_event rest = false).
Proof.
assert (Hskip : forall tr, trace (snd (script cfg e w)) = trace w ++ tr ->
                           new_events cfg e w = tr).
{ intros tr Ht. unfold new_events. rewrite Ht, skipn_app, skipn_all.
  now rewrite Nat.sub_diag. }
destruct (telegram_credentials e && amadeus_credentials e) eqn:Hc.
- destruct (buscar_mejor_precio_amadeus cfg e (logged LogBuscando w))
    as [resb w1] eqn:Hb.
  destruct (buscar_state cfg e _ _ _ Hb) as (_ & trb & Htb & _).
  destruct (main_after_search_trace (loaded_state w) resb w1)
    as (rest & Hrest & Hns).
  pose proof (main_eq cfg e w Hc) as Hm. rewrite Hb in Hm. simpl in Hm.
  assert (Ht : exists rest',
             trace (snd (script cfg e w))
             = trace w ++ EvLog LogBuscando :: trb ++ rest' /\
             existsb is_search_event rest' = false).
  { rewrite script_eq, Hm.
    destruct (fst (main_after_search cfg e (loaded_state w) resb w1)).
    - exists rest. simpl. rewrite Hrest, Htb. simpl.
      rewrite <- !app_assoc. auto.
    - eexists (rest ++ _). simpl. rewrite Hrest, Htb. simpl.
      rewrite <- !app_assoc. split; [reflexivity|].
      rewrite existsb_app, Hns. simpl.
      now destruct (telegram_credentials e). }
  destruct Ht as (rest' & Ht & Hns').
  rewrite (Hskip _ Ht). repeat split; auto; try discriminate.
  intros _. exists trb, rest'. auto.
- rewrite script_eq, (main_without_credentials w Hc). simpl.
  match goal with
  | |- trace w ++ ?t = _ /\ _ =>
      assert (Hn : new_events cfg e w = t)
  end.
  { apply Hskip. rewrite script_eq, (main_without_credentials w Hc).
    reflexivity. }
  rewrite Hn. repeat split; auto; try discriminate.
  intros _. now destruct (telegram_credentials e).
Qed.

End MainCases.

(** ** More on what the search asks and returns *)

Lemma py_min_In (others : list offer) :
  forall first, In (py_min first others) (first :: others).
Proof.
  unfold py_min. induction others as [|v others IH]; intros first; simpl.
  - now left.
  - destruct (flt (price_of v) (price_of first)).
    + right. apply IH.
    + destruct (IH first) as [H|H]; [now left|right; now right].
Qed.

Section SearchProps.

Variable cfg : config.
Variable e : env.

Lemma update_best_picked (best : option offer) (cs cd : list offer) :
picked_from cfg best cs ->
picked_from cfg (update_best cfg best cd) (cs ++ cd).
Proof.
intros Hb.
assert (Hkeep : picked_from cfg best (cs ++ cd)).
{ destruct best as [b|]; simpl in *; auto.
  destruct Hb as (o & Ho & ->). exists o. split; auto.
  apply in_or_app. now left. }
destruct cd as [|c cd]; simpl; auto.
destruct (match best with
          | Some b => flt (price_of (py_min c cd)) (price_of b)
          | None => true
          end); auto.
exists (py_min c cd). split; auto.
apply in_or_app. right. apply py_min_In.
Qed.

Lemma for_loop_picked (fuel : nat) :
forall (g : gen) (count : Z) (best : option offer) (w : world) r w' tr,
  for_loop cfg e fuel g count best w = (Ok r, w') ->
  trace w' = trace w ++ tr ->
  forall cs0, picked_from cfg best cs0 ->
              picked_from cfg r (cs0 ++ candidates_seen e tr).
Proof.
assert (Hstay : forall (best : option offer) (w : world) tr cs0,
           trace w = trace w ++ tr -> picked_from cfg best cs0 ->
           picked_from cfg best (cs0 ++ candidates_seen e tr)).
{ intros best w tr cs0 Ht Hb. apply trace_ext_nil in Ht. subst tr.
  simpl. now rewrite app_nil_r. }
induction fuel as [|fuel IH]; intros g count best w r w' tr H; simpl in H.
- discriminate H.
- destruct (gen_next g) as [d g'| |ex] eqn:Hg.
  2:{ injection H as <- <-. eauto. }
  2:{ discriminate H. }
  destruct (MAX_DIAS cfg <=? count) eqn:Hcap.
  { injection H as <- <-. eauto. }
  unfold bind at 1, emit at 1 in H. unfold bind at 1 in H.
  match type of H with
  | context [candidates_of cfg e d ?w1] =>
      destruct (candidates_of cfg e d w1) as [[cands|ex] w2] eqn:Hc;
      [|discriminate H];
      apply candidates_of_trace in Hc;
      destruct Hc as (tr1 & Ht1 & _ & _ & Hr1)
  end; simpl in Ht1.
  specialize (Hr1 cands eq_refl).
  destruct (for_loop_trace cfg e _ _ _ _ _ _ _ H) as (tr2 & Ht2 & _).
  intros Ht cs0 Hb.
  rewrite Ht2, Ht1, <- !app_assoc in Ht. apply app_inv_head in Ht.
  subst tr. simpl.
  rewrite candidates_seen_app, <- Hr1, app_assoc.
  apply (IH _ _ _ _ _ _ tr2 H Ht2). now apply update_best_picked.
Qed.

(** The offers brought by round-trip requests carry the nights of their
  request. *)
Lemma candidates_seen_nights (tr : list event) :
SOLO_IDA cfg = false ->
Forall (request_ok cfg) (requests_of tr) ->
forall o, In o (candidates_seen e tr) ->
          exists n, o_nights o = Some n /\
                    NOCHES_MIN cfg <= n <= NOCHES_MAX cfg.
Proof.
intros Hmode. unfold request_ok. rewrite Hmode.
induction tr as [|ev tr IH]; simpl; intros Hreq o Ho; [destruct Ho|].
apply in_app_or in Ho.
destruct ev as [d|dep ret| | | | |]; simpl in *;
  try (destruct Ho as [[]|Ho]; now apply IH).
inversion Hreq as [|? ? (n & Hret & Hn) Hreq']; subst. simpl in *.
destruct Ho as [Ho|Ho]; [|now apply IH].
subst ret. destruct (search e dep (Some (dep + n))) as [data|ex];
  [|destruct Ho].
apply in_map_iff in Ho. destruct Ho as (o0 & <- & _).
exists n. split; auto. simpl. f_equal. lia.
Qed.

(** A failed request ends the sweep, the date and the loop with its own
  error. *)
Lemma sweep_failed_request (dep : date) (ns : list Z) :
forall (cands : list offer) (w : world) res w' tr,
  sweep e dep ns cands w = (res, w') ->
  trace w' = trace w ++ tr ->
  forall r ex, In r (requests_of tr) ->
               search e (fst r) (snd r) = Err ex -> res = Err ex.
Proof.
induction ns as [|n ns IH]; intros cands w res w' tr H Htr; simpl in H.
- injection H as <- <-. apply trace_ext_nil in Htr. subst tr.
  intros r ex [].
- unfold bind, lift, do_request, emit in H. simpl in H.
  destruct (date_add dep n) as [r0|ex0] eqn:Ha.
  + destruct (search e dep (Some r0)) as [data|ex0] eqn:Hs.
    * pose proof H as Ht. apply sweep_trace in Ht.
      destruct Ht as (tr' & Ht & _). simpl in Ht.
      pose proof (IH _ _ _ _ tr' H Ht) as Hfail.
      rewrite Ht, <- app_assoc in Htr. apply app_inv_head in Htr.
      subst tr. simpl. intros r ex [<-|Hr] Hex.
      -- simpl in Hex. congruence.
      -- eauto.
    * injection H as <- <-. simpl in Htr. apply app_inv_head in Htr.
      subst tr. simpl. intros r ex [<-|[]] Hex. simpl in Hex. congruence.
  + injection H as <- <-. apply trace_ext_nil in Htr. subst tr.
    intros r ex [].
Qed.

Lemma candidates_of_failed_request (dep : date) (w : world) res w' tr :
candidates_of cfg e dep w = (res, w') ->
trace w' = trace w ++ tr ->
forall r ex, In r (requests_of tr) ->
             search e (fst r) (snd r) = Err ex -> res = Err ex.
Proof.
unfold candidates_of. destruct (SOLO_IDA cfg).
- unfold do_request, bind, emit, lift. simpl. intros [= <- <-] Ht.
  simpl in Ht. apply app_inv_head in Ht. subst tr. simpl.
  intros r ex [<-|[]] Hex. exact Hex.
- apply sweep_failed_request.
Qed.

Lemma for_loop_failed_request (fuel : nat) :
forall (g : gen) (count : Z) (best : option offer) (w : world) res w' tr,
  for_loop cfg e fuel g count best w = (res, w') ->
  trace w' = trace w ++ tr ->
  forall r ex, In r (requests_of tr) ->
               search e (fst r) (snd r) = Err ex -> res = Err ex.
Proof.
assert (Hnil : forall (w : world) tr (res : result (option offer)),
           trace w = trace w ++ tr ->
           forall r ex, In r (requests_of tr) ->
                        search e (fst r) (snd r) = Err ex -> res = Err ex).
{ intros w tr res Ht. apply trace_ext_nil in Ht. subst tr.
  intros r ex []. }
induction fuel as [|fuel IH]; intros g count best w res w' tr H;
  simpl in H.
- injection H as <- <-. apply Hnil.
- destruct (gen_next g) as [d g'| |ex0] eqn:Hg;
    try (injection H as <- <-; apply Hnil).
  destruct (MAX_DIAS cfg <=? count) eqn:Hcap;
    try (injection H as <- <-; apply Hnil).
  unfold bind at 1, emit at 1 in H. unfold bind at 1 in H.
  match type of H with
  | context [candidates_of cfg e d ?w1] =>
      destruct (candidates_of cfg e d w1) as [[cands|ex0] w2] eqn:Hc;
      pose proof Hc as Hc';
      apply candidates_of_trace in Hc';
      destruct Hc' as (tr1 & Ht1 & _)
  end; simpl in Ht1;
    pose proof (candidates_of_failed_request _ _ _ _ tr1 Hc Ht1) as Hf1.
  + destruct (for_loop_trace cfg e _ _ _ _ _ _ _ H) as (tr2 & Ht2 & _).
    pose proof (IH _ _ _ _ _ _ tr2 H Ht2) as Hf2.
    intros Ht. rewrite Ht2, Ht1, <- !app_assoc in Ht.
    apply app_inv_head in Ht. subst tr. simpl.
    rewrite requests_of_app. intros r ex Hr Hex.
    apply in_app_or in Hr. destruct Hr as [Hr|Hr]; eauto.
    specialize (Hf1 r ex Hr Hex). discriminate Hf1.
  + injection H as <- <-. intros Ht. rewrite Ht1, <- app_assoc in Ht.
    apply app_inv_head in Ht. subst tr. simpl.
    intros r ex Hr Hex. specialize (Hf1 r ex Hr Hex).
    now injection Hf1 as ->.
Qed.

Lemma buscar_failed_request (w : world) res w' tr :
buscar_mejor_precio_amadeus cfg e w = (res, w') ->
trace w' = trace w ++ tr ->
forall r ex, In r (requests_of tr) ->
             search e (fst r) (snd r) = Err ex -> res = Err ex.
Proof.
unfold buscar_mejor_precio_amadeus, bind at 1, lift.
destruct (token e) as [u|ex0].
- apply for_loop_failed_request.
- intros [= <- <-] Ht. apply trace_ext_nil in Ht. subst tr.
  intros r ex [].
Qed.

(** When the sweep returns, it has asked for every number of nights. *)
Lemma sweep_requests_all (dep : date) (ns : list Z) :
forall (cands : list offer) (w : world) r w' tr,
  sweep e dep ns cands w = (Ok r, w') ->
  trace w' = trace w ++ tr ->
  requests_of tr = map (fun n => (dep, Some (dep + n))) ns.
Proof.
induction ns as [|n ns IH]; intros cands w r w' tr H Htr; simpl in H.
- injection H as <- <-. apply trace_ext_nil in Htr. now subst tr.
- unfold bind, lift, do_request, emit in H. simpl in H.
  destruct (date_add dep n) as [r0|ex0] eqn:Ha; [|discriminate H].
  apply date_add_Ok in Ha. subst r0.
  destruct (search e dep (Some (dep + n))) as [data|ex0] eqn:Hs;
    [|discriminate H].
  pose proof H as Ht. apply sweep_trace in Ht.
  destruct Ht as (tr' & Ht & _). simpl in Ht.
  pose proof (IH _ _ _ _ tr' H Ht) as Hall.
  rewrite Ht, <- app_assoc in Htr. apply app_inv_head in Htr.
  subst tr. simpl. now rewrite Hall.
Qed.

Lemma for_loop_requests_all (fuel : nat) :
forall (g : gen) (count : Z) (best : option offer) (w : world) r w' tr,
  for_loop cfg e fuel g count best w = (Ok r, w') ->
  trace w' = trace w ++ tr ->
  requests_of tr = flat_map (date_requests cfg) (dates_of tr).
Proof.
induction fuel as [|fuel IH]; intros g count best w r w' tr H; simpl in H.
- discriminate H.
- destruct (gen_next g) as [d g'| |ex] eqn:Hg.
  3:{ discriminate H. }
  2:{ injection H as <- <-. intros Ht. apply trace_ext_nil in Ht.
      now subst tr. }
  destruct (MAX_DIAS cfg <=? count) eqn:Hcap.
  { injection H as <- <-. intros Ht. apply trace_ext_nil in Ht.
    now subst tr. }
  unfold bind at 1, emit at 1 in H. unfold bind at 1 in H.
  match type of H with
  | context [candidates_of cfg e d ?w1] =>
      destruct (candidates_of cfg e d w1) as [[cands|ex] w2] eqn:Hc;
      [|discriminate H];
      pose proof Hc as Hc';
      apply candidates_of_trace in Hc';
      destruct Hc' as (tr1 & Ht1 & _ & Hr1 & _)
  end; simpl in Ht1.
  assert (Hd : requests_of tr1 = date_requests cfg d).
  { unfold candidates_of in Hc. unfold date_requests.
    destruct (SOLO_IDA cfg).
    - unfold do_request, bind, emit, lift in Hc. simpl in Hc.
      destruct (search e d None); [|discriminate Hc].
      injection Hc as _ <-. simpl in Ht1. apply app_inv_head in Ht1.
      now subst tr1.
    - apply (sweep_requests_all _ _ _ _ _ _ tr1 Hc Ht1). }
  destruct (for_loop_trace cfg e _ _ _ _ _ _ _ H) as (tr2 & Ht2 & _).
  pose proof (IH _ _ _ _ _ _ tr2 H Ht2) as Hall.
  intros Ht. rewrite Ht2, Ht1, <- !app_assoc in Ht.
  apply app_inv_head in Ht. subst tr. simpl.
  rewrite requests_of_app, dates_of_app, (dates_of_requests _ Hr1).
  simpl. now rewrite Hd, Hall.
Qed.

End SearchProps.

(** ** Properties of the search and of the run around it *)

Lemma no_search_events (l : list event) :
  existsb is_search_event l = false -> requests_of l = [] /\ dates_of l = [].
Proof.
  induction l as [|ev l IH]; simpl; auto.
  intros H. apply orb_false_elim in H. destruct H as [H1 H2].
  destruct (IH H2) as [-> ->]. now destruct ev.
Qed.

Lemma search_not_state_events (l : list event) :
  forallb is_search_event l = true -> existsb is_state_event l = false.
Proof.
  induction l as [|ev l IH]; simpl; auto.
  intros H. apply andb_prop in H. destruct H as [H1 H2].
  rewrite (IH H2). now destruct ev.
Qed.

(** The search events of a run are those of its search. *)
Lemma run_search_events (cfg : config) (e : env) (w : world) :
  (requests_of (new_events cfg e w) = [] /\
   dates_of (new_events cfg e w) = []) \/
  exists trb,
    telegram_credentials e && amadeus_credentials e = true /\
    trace (snd (buscar_mejor_precio_amadeus cfg e (logged LogBuscando w)))
    = trace (logged LogBuscando w) ++ trb /\
    requests_of (new_events cfg e w) = requests_of trb /\
    dates_of (new_events cfg e w) = dates_of trb.
Proof.
  destruct (script_trace cfg e w) as (_ & Hno & Hyes).
  destruct (telegram_credentials e && amadeus_credentials e).
  - right. destruct (Hyes eq_refl) as (trb & rest & Ht & -> & Hrest).
    exists trb. apply no_search_events in Hrest. destruct Hrest as [Hr Hd].
    simpl. rewrite requests_of_app, dates_of_app, Hr, Hd, !app_nil_r. auto.
  - left. now apply no_search_events, Hno.
Qed.

(** A run calls [do_request] at most as many times as the days that the
    cap and the window leave, times the calls of one day (one for a one-way
    search, one per number of nights for a round trip), whatever the calls
    give. *)
Lemma run_call_budget (cfg : config) (e : env) (w : world) :
  (List.length (requests_of (new_events cfg e w))
   <= days_searched cfg * requests_per_date cfg)%nat.
Proof.
  destruct (run_search_events cfg e w) as [[-> _]|(trb & _ & Ht & -> & _)];
    [simpl; lia|].
  destruct (buscar_mejor_precio_amadeus cfg e (logged LogBuscando w))
    as [resb w1] eqn:Hb. simpl in Ht.
  destruct (buscar_requests_bound cfg e _ _ _ trb Hb Ht) as [Hlen _].
  destruct (buscar_trace cfg e _ _ _ Hb) as (tr & Ht' & _ & _ & Hn & _).
  rewrite Ht in Ht'. apply app_inv_head in Ht'. subst tr.
  destruct Hn as (n & Hd & Hn1 & Hn2).
  rewrite Hd, consecutive_length in Hlen.
  assert (Hle : (n <= days_searched cfg)%nat) by (unfold days_searched; lia).
  eapply Nat.le_trans; [exact Hlen|]. now apply Nat.mul_le_mono_r.
Qed.

(** X2.  Every request of a run is for a departure date of the window,
    among its first [MAX_DIAS] days; a one-way search never sends a return
    date, and a round trip always sends one, the departure plus a number of
    nights between [NOCHES_MIN] and [NOCHES_MAX].  The requests go out in
    the order of the enumeration. *)
Theorem run_requests_shape (cfg : config) (e : env) (w : world) :
  Forall (fun r => FECHA_DESDE cfg <= fst r <= FECHA_HASTA cfg /\
                   fst r < FECHA_DESDE cfg + MAX_DIAS cfg /\
                   request_ok cfg r)
         (requests_of (new_events cfg e w)) /\
  StronglySorted request_before (requests_of (new_events cfg e w)).
Proof.
  destruct (run_search_events cfg e w) as [[-> _]|(trb & _ & Ht & -> & _)];
    [split; constructor|].
  destruct (buscar_mejor_precio_amadeus cfg e (logged LogBuscando w))
    as [resb w1] eqn:Hb. simpl in Ht.
  destruct (buscar_requests_bound cfg e _ _ _ trb Hb Ht) as [_ Hok].
  destruct (buscar_trace cfg e _ _ _ Hb) as (tr & Ht' & _ & _ & Hn & _).
  rewrite Ht in Ht'. apply app_inv_head in Ht'. subst tr.
  destruct Hn as (n & Hd & Hn1 & Hn2). split.
  - eapply Forall_impl; [|exact Hok]. simpl. intros r [Hin Hr].
    rewrite Hd in Hin. apply consecutive_In in Hin. repeat split; auto; lia.
  - apply (buscar_requests cfg e _ _ _ trb Hb Ht).
Qed.

(** X3.  A search that returns has taken up exactly the first days of the
    window that the cap leaves, none skipped, and has called [do_request]
    exactly once for each planned request, in order: for each of those days
    the one-way request or one request per number of nights.  (A call sends
    its GET once, or twice after a 401: see [do_request_http].) *)
Theorem search_asks_all_planned
  (cfg : config) (e : env) (w : world) (r : option offer) (w' : world) :
  buscar_mejor_precio_amadeus cfg e w = (Ok r, w') ->
  exists tr,
    trace w' = trace w ++ tr /\
    dates_of tr = consecutive (FECHA_DESDE cfg) (days_searched cfg) /\
    requests_of tr = planned_requests cfg.
Proof.
  intros H.
  destruct (buscar_trace cfg e _ _ _ H) as (tr & Ht & _ & _ & Hn & _).
  destruct Hn as (n & Hd & _).
  exists tr. split; auto.
  revert H Ht. unfold buscar_mejor_precio_amadeus, bind at 1, lift.
  destruct (token e) as [u|ex]; [|discriminate].
  intros H Ht.
  pose proof (for_loop_dates_exact cfg e _ _ _ _ _ _ _ tr H Ht) as Hlen.
  pose proof (for_loop_requests_all cfg e _ _ _ _ _ _ _ tr H Ht) as Hall.
  simpl in Hlen. rewrite Hd, consecutive_length in Hlen.
  assert (Hn : n = days_searched cfg) by (unfold days_searched; lia).
  subst n. split; auto. unfold planned_requests. now rewrite Hall, Hd.
Qed.

Lemma search_asks_all_planned_witness :
  exists tr,
    trace (snd (buscar_mejor_precio_amadeus (round_trip 10 40 2)
                  (mk_env tie_search) fresh_world))
    = trace fresh_world ++ tr /\
    dates_of tr = consecutive 10 (days_searched (round_trip 10 40 2)) /\
    requests_of tr = planned_requests (round_trip 10 40 2).
Proof.
  apply (search_asks_all_planned (round_trip 10 40 2) (mk_env tie_search)
           fresh_world
           (Some (tag_best (round_trip 10 40 2) (set_nights 7 offer_3)))).
  vm_compute. reflexivity.
Defined.

(** X4.  Whatever the prices are (NaN included), the offer that a search
    returns is one of the candidates that its requests brought, with the
    route summary set to the configured origin and destination and its
    total untouched; for a round trip it carries the nights of the request
    that brought it, between [NOCHES_MIN] and [NOCHES_MAX]. *)
Theorem selected_is_a_candidate
  (cfg : config) (e : env) (w : world) (b : offer) (w' : world) :
  buscar_mejor_precio_amadeus cfg e w = (Ok (Some b), w') ->
  exists tr o,
    trace w' = trace w ++ tr /\
    In o (candidates_seen e tr) /\
    b = tag_best cfg o /\
    o_total b = o_total o /\
    o_id b = o_id o /\
    o_route_summary b = Some (ORIGEN cfg, DESTINO cfg) /\
    (SOLO_IDA cfg = false ->
     exists n, o_nights b = Some n /\
               NOCHES_MIN cfg <= n <= NOCHES_MAX cfg).
Proof.
  intros H.
  destruct (buscar_trace cfg e _ _ _ H) as (tr & Ht & _).
  destruct (buscar_requests_bound cfg e _ _ _ tr H Ht) as [_ Hok].
  revert H Ht. unfold buscar_mejor_precio_amadeus, bind at 1, lift.
  destruct (token e) as [u|ex]; [|discriminate].
  intros H Ht.
  pose proof (for_loop_picked cfg e _ _ _ _ _ _ _ tr H Ht [] I) as Hp.
  simpl in Hp. destruct Hp as (o & Ho & ->).
  exists tr, o. repeat split; auto.
  - apply o_total_tag_best.
  - unfold tag_best. now destruct (SOLO_IDA cfg).
  - unfold tag_best. now destruct (SOLO_IDA cfg).
  - intros Hmode.
    assert (Hreq : Forall (request_ok cfg) (requests_of tr)).
    { eapply Forall_impl; [|exact Hok]. simpl. tauto. }
    destruct (candidates_seen_nights cfg e tr Hmode Hreq o Ho) as (n & Hn & Hr).
    exists n. split; auto. unfold tag_best. rewrite Hmode. exact Hn.
Qed.

Lemma selected_is_a_candidate_witness :
  exists tr o,
    trace (snd (buscar_mejor_precio_amadeus (round_trip 10 11 20)
                  (mk_env nan_search) fresh_world))
    = trace fresh_world ++ tr /\
    In o (candidates_seen (mk_env nan_search) tr) /\
    tag_best (round_trip 10 11 20) (set_nights 7 offer_5)
    = tag_best (round_trip 10 11 20) o /\
    o_total (tag_best (round_trip 10 11 20) (set_nights 7 offer_5))
    = o_total o /\
    o_id (tag_best (round_trip 10 11 20) (set_nights 7 offer_5)) = o_id o /\
    o_route_summary (tag_best (round_trip 10 11 20) (set_nights 7 offer_5))
    = Some (ORIGEN (round_trip 10 11 20), DESTINO (round_trip 10 11 20)) /\
    (SOLO_IDA (round_trip 10 11 20) = false ->
     exists n,
       o_nights (tag_best (round_trip 10 11 20) (set_nights 7 offer_5))
       = Some n /\
       NOCHES_MIN (round_trip 10 11 20) <= n
       <= NOCHES_MAX (round_trip 10 11 20)).
Proof.
  apply (selected_is_a_candidate (round_trip 10 11 20) (mk_env nan_search)
           fresh_world
           (tag_best (round_trip 10 11 20) (set_nights 7 offer_5))).
  vm_compute. reflexivity.
Defined.

(** X5.  A single failed request is fatal to the run: if any request of a
    run is answered by a failure, the run ends with that failure, it is
    logged, and the state file is neither read nor written. *)
Theorem failed_request_fails_run
  (cfg : config) (e : env) (w : world) (r : date * option date) (ex : exn) :
  In r (requests_of (new_events cfg e w)) ->
  search e (fst r) (snd r) = Err ex ->
  fst (script cfg e w) = Err ex /\
  state_file (snd (script cfg e w)) = state_file w /\
  In (EvLog (LogError ex)) (new_events cfg e w) /\
  existsb is_state_event (new_events cfg e w) = false.
Proof.
  intros Hr Hex.
  destruct (script_trace cfg e w) as (Hnew & Hno & Hyes).
  destruct (telegram_credentials e && amadeus_credentials e) eqn:Hc.
  2:{ destruct (no_search_events _ (Hno eq_refl)) as [Hnil _].
      rewrite Hnil in Hr. destruct Hr. }
  destruct (Hyes eq_refl) as (trb & rest & Ht & Hev & Hns). clear Hno Hyes.
  destruct (buscar_mejor_precio_amadeus cfg e (logged LogBuscando w))
    as [resb w1] eqn:Hb.
  destruct (buscar_trace cfg e _ _ _ Hb) as (trb' & Ht' & Hsf & Hs & _).
  simpl in Ht, Ht', Hsf.
  rewrite Ht in Ht'. apply app_inv_head in Ht'. subst trb'.
  pose proof (main_eq cfg e w Hc) as Hm. rewrite Hb in Hm. simpl in Hm.
  assert (Hres : resb = Err ex).
  { apply (buscar_failed_request cfg e _ _ _ trb Hb Ht r ex); auto.
    rewrite Hev in Hr. simpl in Hr. rewrite requests_of_app in Hr.
    destruct (no_search_events _ Hns) as [Hnil _].
    now rewrite Hnil, app_nil_r in Hr. }
  subst resb. simpl in Hm.
  rewrite script_eq, Hm in Hnew |- *. simpl in Hnew |- *.
  rewrite Ht in Hnew. simpl in Hnew. rewrite <- !app_assoc in Hnew.
  apply app_inv_head in Hnew. simpl in Hnew. rewrite <- Hnew.
  repeat split; auto.
  - right. apply in_or_app. right. now left.
  - simpl. rewrite existsb_app, (search_not_state_events _ Hs). simpl.
    now destruct (telegram_credentials e).
Qed.

Lemma failed_request_fails_run_witness :
  fst (script (one_way 10 12 20) (mk_env failing_search) fresh_world)
  = Err RequestException /\
  state_file (snd (script (one_way 10 12 20) (mk_env failing_search)
                     fresh_world))
  = state_file fresh_world /\
  In (EvLog (LogError RequestException))
     (new_events (one_way 10 12 20) (mk_env failing_search) fresh_world) /\
  existsb is_state_event
    (new_events (one_way 10 12 20) (mk_env failing_search) fresh_world)
  = false.
Proof.
  apply (failed_request_fails_run (one_way 10 12 20) (mk_env failing_search)
           fresh_world (11, None) RequestException).
  - vm_compute. right. now left.
  - reflexivity.
Defined.

(** ** The generator, run to its end *)

Lemma collect_window (n : nat) :
  forall g : gen,
    gen_wf g -> 1 <= next_date g -> last_date g < MAXORDINAL ->
    n = Z.to_nat (last_date g - next_date g + 1) ->
    collect (S n) g = Ok (consecutive (next_date g) n).
Proof.
  induction n as [|n IH]; intros g Hwf Hlo Hhi Hn.
  - assert (Hg : gen_next g = Stop).
    { unfold gen_next, while_yield, date_add.
      destruct g as [d1 d2|d1 d2]; cbn [next_date last_date gen_wf] in *.
      - destruct (Z.leb_spec d1 d2); auto. lia.
      - destruct (Z.leb_spec 1 (d1 + 1)); [|lia].
        destruct (Z.leb_spec (d1 + 1) MAXORDINAL); [|lia]. cbn [andb].
        destruct (Z.leb_spec (d1 + 1) d2); auto. lia. }
    cbn [collect]. now rewrite Hg.
  - assert (Hg : exists g', gen_next g = Yield (next_date g) g' /\
                            gen_wf g' /\ next_date g' = next_date g + 1 /\
                            last_date g' = last_date g).
    { unfold gen_next, while_yield, date_add.
      destruct g as [d1 d2|d1 d2]; cbn [next_date last_date gen_wf] in *.
      - destruct (Z.leb_spec d1 d2); [|lia].
        eexists. split; [reflexivity|].
        cbn [next_date last_date gen_wf]. repeat split; auto.
      - destruct (Z.leb_spec 1 (d1 + 1)); [|lia].
        destruct (Z.leb_spec (d1 + 1) MAXORDINAL); [|lia]. cbn [andb].
        destruct (Z.leb_spec (d1 + 1) d2); [|lia].
        eexists. split; [reflexivity|].
        cbn [next_date last_date gen_wf]. repeat split; auto. }
    destruct Hg as (g' & Hg & Hwf' & Hn' & Hl').
    change (collect (S (S n)) g)
      with (match gen_next g with
            | Stop => Ok []
            | Raise ex => Err ex
            | Yield d g' => ds <-? collect (S n) g' ;; Ok (d :: ds)
            end).
    rewrite Hg, (IH g'), consecutive_S, Hn'; auto; lia.
Qed.

Lemma collect_overflow (n : nat) :
  forall g : gen,
    gen_wf g -> 1 <= next_date g -> last_date g = MAXORDINAL ->
    match g with GFresh d1 d2 => d1 <= d2 | GSuspended _ _ => True end ->
    Z.of_nat n = MAXORDINAL - next_date g + 1 ->
    collect (S n) g = Err OverflowError.
Proof.
  induction n as [|n IH]; intros g Hwf Hlo Hhi Hfresh Hn.
  - destruct g as [d1 d2|d1 d2]; cbn [next_date last_date gen_wf] in *; [lia|].
    cbn [collect gen_next]. unfold date_add.
    destruct (Z.leb_spec (d1 + 1) MAXORDINAL); [lia|].
    now rewrite andb_false_r.
  - assert (Hg : gen_next g
                 = Yield (next_date g) (GSuspended (next_date g) MAXORDINAL)).
    { unfold gen_next, while_yield, date_add.
      destruct g as [d1 d2|d1 d2]; cbn [next_date last_date gen_wf] in *; subst d2.
      - destruct (Z.leb_spec d1 MAXORDINAL); [|lia]. reflexivity.
      - destruct (Z.leb_spec 1 (d1 + 1)); [|lia].
        destruct (Z.leb_spec (d1 + 1) MAXORDINAL); [|lia]. cbn [andb].
        destruct (Z.leb_spec (d1 + 1) MAXORDINAL); [|lia]. reflexivity. }
    change (collect (S (S n)) g)
      with (match gen_next g with
            | Stop => Ok []
            | Raise ex => Err ex
            | Yield d g' => ds <-? collect (S n) g' ;; Ok (d :: ds)
            end).
    rewrite Hg, IH; cbn [next_date last_date gen_wf bindR]; auto; lia.
Qed.

(** X6.  Run to its end, [daterange] over valid dates lists every day of
    its window, first to last; but when the window ends on [date.max] it
    raises [OverflowError] after its last date instead of stopping, since
    it steps the date before it tests it. *)
Theorem daterange_to_its_end (d1 d2 : date) :
  1 <= d1 -> d1 <= d2 -> d2 <= MAXORDINAL ->
  collect (S (Z.to_nat (d2 - d1 + 1))) (daterange d1 d2)
  = if d2 =? MAXORDINAL then Err OverflowError
    else Ok (consecutive d1 (Z.to_nat (d2 - d1 + 1))).
Proof.
  intros Hlo Hle Hhi. destruct (Z.eqb_spec d2 MAXORDINAL) as [->|Hne].
  - apply collect_overflow; cbn [daterange next_date last_date gen_wf];
      auto; lia.
  - apply (collect_window _ (daterange d1 d2));
      cbn [daterange next_date last_date gen_wf]; auto; lia.
Qed.

Lemma daterange_to_its_end_witness :
  collect (S (Z.to_nat (MAXORDINAL - (MAXORDINAL - 1) + 1)))
    (daterange (MAXORDINAL - 1) MAXORDINAL)
  = if MAXORDINAL =? MAXORDINAL then Err OverflowError
    else Ok (consecutive (MAXORDINAL - 1)
               (Z.to_nat (MAXORDINAL - (MAXORDINAL - 1) + 1))).
Proof.
  apply (daterange_to_its_end (MAXORDINAL - 1) MAXORDINAL); vm_compute;
    congruence.
Defined.

(** ** Properties of the decision and of what a run reports *)

Lemma is_positive_not_nan (x : pyfloat) :
  is_positive x = true -> is_nan x = false /\ is_zero x = false.
Proof.
  destruct x as [[|]|[|]| |[|] m ex]; simpl; auto; discriminate.
Qed.

Section DecisionMore.

Variable cfg : config.
Variable e : env.

(** A decision keeps the state, or alerts and stores the price. *)
Lemma alert_decision_new_min (total_price : pyfloat) (route_sum : route)
    (st : price_state) (a : bool) (ms : list motivo) (st' : price_state) :
alert_decision cfg e total_price route_sum st = Ok (a, ms, st') ->
st' = st \/ (a = true /\ min_price st' = Some total_price).
Proof.
unfold alert_decision.
destruct (min_price st) as [p|] eqn:Hmin; simpl.
- destruct (flt total_price p) eqn:Hlt;
    destruct (drop_pct p total_price) as [d|ex]; simpl;
    try discriminate.
  + destruct (fle_num total_price (PRECIO_OBJETIVO cfg));
      intros [= <- <- <-]; right; auto.
  + destruct (fge_num d (BAJA_MINIMA_PCT cfg));
      destruct (fle_num total_price (PRECIO_OBJETIVO cfg));
      intros [= <- <- <-]; left; auto.
- destruct (fle_num total_price (PRECIO_OBJETIVO cfg));
    intros [= <- <- <-]; right; auto.
Qed.

(** On positive prices a decision is always made, and the minimum it
  stores is the lesser of the stored minimum and the price. *)
Lemma alert_decision_positive (total_price : pyfloat) (route_sum : route)
    (st : price_state) :
is_positive total_price = true ->
(forall p, min_price st = Some p -> is_positive p = true) ->
exists a ms st' m,
  alert_decision cfg e total_price route_sum st = Ok (a, ms, st') /\
  min_price st' = Some m /\
  is_positive m = true /\
  fle m total_price = true /\
  (m = total_price \/ min_price st = Some m) /\
  (forall p, min_price st = Some p -> fle m p = true).
Proof.
intros Ht Hp.
destruct (is_positive_not_nan _ Ht) as [Hnt _].
destruct (alert_decision_total cfg e total_price route_sum st)
  as (a & ms & st' & Hd).
{ destruct (min_price st) as [p|]; auto.
  now apply is_positive_not_nan, Hp. }
exists a, ms, st'. pose proof Hd as Hc. apply alert_decision_cases in Hc.
destruct Hc as [_ [[-> (p & Hmin & Hlt)]|[-> Hnew]]].
- exists p. pose proof (Hp p Hmin) as Hpp.
  destruct (is_positive_not_nan _ Hpp) as [Hnp _].
  repeat split; auto.
  + now apply not_flt_fle.
  + intros q Hq. rewrite Hmin in Hq. injection Hq as <-.
    now apply fle_refl.
- exists total_price. simpl. repeat split; auto.
  + now apply fle_refl.
  + intros p Hmin. rewrite Hmin in Hnew. now apply flt_fle.
Qed.

End DecisionMore.

(** X7.  Over any sequence of decisions on strictly positive prices, from
    a state without a minimum or with a strictly positive one, every
    decision is made, none raises, and the state ends with the least of the
    stored minimum and the prices: a value that was stored or is one of the
    prices, at most the stored minimum and at most every price. *)
Theorem minimum_of_prices
  (cfg : config) (e : env) (route_sum : route) (totals : list pyfloat)
  (st : price_state) :
  Forall (fun t => is_positive t = true) totals ->
  (forall p, min_price st = Some p -> is_positive p = true) ->
  exists st',
    decide_all cfg e route_sum totals st = Ok st' /\
    match min_price st' with
    | Some m =>
        Forall (fun t => fle m t = true) totals /\
        (In m totals \/ min_price st = Some m) /\
        (forall p, min_price st = Some p -> fle m p = true)
    | None => totals = [] /\ min_price st = None
    end.
Proof.
  intros Ht. revert st.
  induction Ht as [|t totals Hpos Hrest IH]; intros st Hp; simpl.
  - exists st. split; auto.
    destruct (min_price st) as [m|] eqn:Hm; auto.
    repeat split; auto.
    intros p [= <-]. apply fle_refl. now apply is_positive_not_nan, Hp.
  - destruct (alert_decision_positive cfg e t route_sum st Hpos Hp)
      as (a & ms & st1 & m & Hd & Hm & Hmp & Hmt & Hfrom & Hle).
    rewrite Hd. simpl.
    assert (Hp' : forall p, min_price st1 = Some p -> is_positive p = true).
    { intros p Hq. rewrite Hm in Hq. now injection Hq as <-. }
    destruct (IH st1 Hp') as (st' & Hall' & Hmin'). exists st'.
    split; auto.
    destruct (min_price st') as [m'|].
    + destruct Hmin' as (Hall & Hin & Hle').
      specialize (Hle' m Hm). repeat split.
      * constructor; auto. now apply fle_trans with m.
      * destruct Hin as [Hin|Hin].
        -- left. now right.
        -- rewrite Hm in Hin. injection Hin as <-.
           destruct Hfrom as [->|Hst]; [left; now left|now right].
      * intros p Hq. apply fle_trans with m; auto.
    + destruct Hmin' as [_ Hnone]. rewrite Hm in Hnone. discriminate Hnone.
Qed.

Lemma minimum_of_prices_witness :
  exists st',
    decide_all source_config (mk_env single_search)
      ("EZE"%string, "MAD"%string)
      [of_int 700; of_int 650; of_int 720; of_int 600] empty_state
    = Ok st' /\
    match min_price st' with
    | Some m =>
        Forall (fun t => fle m t = true)
               [of_int 700; of_int 650; of_int 720; of_int 600] /\
        (In m [of_int 700; of_int 650; of_int 720; of_int 600] \/
         min_price empty_state = Some m) /\
        (forall p, min_price empty_state = Some p -> fle m p = true)
    | None =>
        [of_int 700; of_int 650; of_int 720; of_int 600] = [] /\
        min_price empty_state = None
    end.
Proof.
  apply (minimum_of_prices source_config (mk_env single_search)
           ("EZE"%string, "MAD"%string)
           [of_int 700; of_int 650; of_int 720; of_int 600] empty_state).
  - repeat constructor.
  - simpl. discriminate.
Defined.


Section RunReports.

Variable cfg : config.
Variable e : env.

(** What [main] adds after the search holds no report of the handler; and
  when it changes the stored minimum it has saved the new minimum and
  then called [send_telegram] with it, and ends as that call ends. *)
Lemma main_after_search_report (st0 : price_state)
    (resb : result (option offer)) (w1 : world) :
state_file w1 = None \/ state_file w1 = Some st0 ->
(state_file w1 = None -> st0 = empty_state) ->
exists rest,
  trace (snd (main_after_search cfg e st0 resb w1)) = trace w1 ++ rest /\
  existsb is_handler_report rest = false /\
  (stored_min (snd (main_after_search cfg e st0 resb w1)) <> stored_min w1 ->
   exists m st' post,
     rest = EvLoadState :: EvSaveState st' :: EvTelegram m :: post /\
     existsb is_alert post = false /\
     min_price st' = Some (msg_total m) /\
     stored_min (snd (main_after_search cfg e st0 resb w1))
     = Some (msg_total m) /\
     fst (main_after_search cfg e st0 resb w1)
     = match telegram e with
       | Ok _ => Ok tt
       | Err ex => Err ex
       end).
Proof.
intros Hsf Hempty.
assert (Hst0 : min_price st0 = stored_min w1).
{ unfold stored_min. destruct Hsf as [Hn|Hs].
  - rewrite Hn, (Hempty Hn). reflexivity.
  - now rewrite Hs. }
unfold main_after_search.
destruct resb as [[offer|]|ex].
- destruct (o_total offer) as [total_price|].
  + destruct (carriers_str offer) as [cs|ex].
    * destruct (alert_decision cfg e total_price (route_sum_of cfg offer)
                  st0) as [[[a ms] st']|ex] eqn:Hd.
      -- apply alert_decision_new_min in Hd.
         destruct a.
         ++ eexists. split; [reflexivity|]. split.
            { now destruct (telegram e). }
            unfold stored_min at 1 2. simpl. intros Hne.
            destruct Hd as [->|[_ Hm]].
            ** rewrite Hst0 in Hne. now destruct Hne.
            ** do 3 eexists. split; [reflexivity|].
               split; [now destruct (telegram e)|]. auto.
         ++ destruct Hd as [->|[Ha _]]; [|discriminate Ha].
            eexists. split; [reflexivity|]. split; [reflexivity|].
            unfold stored_min at 1. simpl. rewrite Hst0. intros Hne.
            now destruct Hne.
      -- eexists. split; [reflexivity|]. split; [reflexivity|].
         unfold stored_min. simpl. intros Hne. now destruct Hne.
    * exists []. simpl. rewrite app_nil_r. repeat split; auto.
      intros Hne. now destruct Hne.
  + exists []. simpl. rewrite app_nil_r. repeat split; auto.
    intros Hne. now destruct Hne.
- simpl. eexists. split; [reflexivity|]. split; [reflexivity|].
  unfold stored_min. simpl. intros Hne. now destruct Hne.
- exists []. simpl. rewrite app_nil_r. repeat split; auto.
  intros Hne. now destruct Hne.
Qed.

End RunReports.

(** The report that the handler of the script adds for a result. *)
Lemma new_events_eq (cfg : config) (e : env) (w : world) (tr : list event) :
  trace (snd (script cfg e w)) = trace w ++ tr -> new_events cfg e w = tr.
Proof.
  intros Ht. unfold new_events. rewrite Ht, skipn_app, skipn_all.
  now rewrite Nat.sub_diag.
Qed.

(** With the credentials, what a run adds to the trace: the first line of
    the log, the search, what [main] does after it, which holds no report
    of the handler, and then the report of the handler if [main] failed. *)
Lemma run_events (cfg : config) (e : env) (w : world) :
  telegram_credentials e && amadeus_credentials e = true ->
  exists resb w1 trb rest,
    buscar_mejor_precio_amadeus cfg e (logged LogBuscando w) = (resb, w1) /\
    forallb is_search_event trb = true /\
    main cfg e w = main_after_search cfg e (loaded_state w) resb w1 /\
    new_events cfg e w
    = EvLog LogBuscando :: trb ++ rest
      ++ handler_report e (fst (main cfg e w)) /\
    existsb is_handler_report rest = false /\
    (stored_min (snd (main cfg e w)) <> stored_min w ->
     exists m st' post,
       rest = EvLoadState :: EvSaveState st' :: EvTelegram m :: post /\
       existsb is_alert post = false /\
       min_price st' = Some (msg_total m) /\
       stored_min (snd (main cfg e w)) = Some (msg_total m) /\
       fst (main cfg e w)
       = match telegram e with
         | Ok _ => Ok tt
         | Err ex => Err ex
         end).
Proof.
  intros Hc.
  destruct (buscar_mejor_precio_amadeus cfg e (logged LogBuscando w))
    as [resb w1] eqn:Hb.
  destruct (buscar_trace cfg e _ _ _ Hb) as (trb & Ht & Hsf & Hs & _).
  simpl in Ht, Hsf.
  pose proof (main_eq cfg e w Hc) as Hm. rewrite Hb in Hm. simpl in Hm.
  destruct (main_after_search_report cfg e (loaded_state w) resb w1)
    as (rest & Hrest & Hnr & Hmin).
  { unfold loaded_state. rewrite Hsf. destruct (state_file w); auto. }
  { unfold loaded_state. rewrite Hsf. now intros ->. }
  exists resb, w1, trb, rest. repeat split; auto.
  - apply new_events_eq. rewrite script_eq.
    assert (Htm : trace (snd (main cfg e w))
                  = trace w ++ EvLog LogBuscando :: trb ++ rest).
    { rewrite Hm, Hrest, Ht. simpl. now rewrite <- !app_assoc. }
    unfold handler_report.
    destruct (fst (main cfg e w)); simpl; rewrite Htm.
    + now rewrite app_nil_r.
    + rewrite <- !app_assoc. simpl. now rewrite <- !app_assoc.
  - rewrite Hm. intros Hne. apply Hmin.
    unfold stored_min at 2. rewrite Hsf. exact Hne.
Qed.

(** X8.  A run that changes the stored minimum has saved the new minimum
    and then called [send_telegram] with the alert, whose price is the new
    minimum, and it ends as that call ends: well when Telegram accepts the
    alert, and with the error of Telegram when it does not.  The save comes
    first: when Telegram refuses the alert the run fails and the new
    minimum is stored all the same. *)
Theorem stored_min_change_attempts_alert
  (cfg : config) (e : env) (w : world) :
  stored_min (run (cfg, e) w) <> stored_min w ->
  exists m st' pre post,
    new_events cfg e w = pre ++ EvSaveState st' :: EvTelegram m :: post /\
    existsb is_alert pre = false /\
    existsb is_alert post = false /\
    min_price st' = Some (msg_total m) /\
    stored_min (run (cfg, e) w) = Some (msg_total m) /\
    fst (script cfg e w)
    = match telegram e with
      | Ok _ => Ok tt
      | Err ex => Err ex
      end.
Proof.
  unfold run. simpl. unfold stored_min at 1 3. rewrite script_state.
  fold (stored_min (snd (main cfg e w))). intros Hne.
  assert (Hres : fst (script cfg e w)
                 = match fst (main cfg e w) with
                   | Ok _ => Ok tt
                   | Err ex => Err ex
                   end)
    by (rewrite script_eq; now destruct (fst (main cfg e w))).
  destruct (telegram_credentials e && amadeus_credentials e) eqn:Hc.
  - destruct (run_events cfg e w Hc)
      as (resb & w1 & trb & rest & _ & Hs & _ & Hnew & _ & Hmin).
    destruct (Hmin Hne) as (m & st' & post & -> & Hpost & Hst & Hm & Hfst).
    exists m, st', (EvLog LogBuscando :: trb ++ [EvLoadState]),
      (post ++ handler_report e (fst (main cfg e w))).
    repeat split; auto.
    + rewrite Hnew. simpl. now rewrite <- !app_assoc.
    + simpl. rewrite existsb_app. simpl. rewrite orb_false_r.
      clear - Hs. induction trb as [|ev trb IH]; simpl in *; auto.
      apply andb_prop in Hs. destruct Hs as [H1 H2].
      rewrite (IH H2). now destruct ev.
    + rewrite existsb_app, Hpost. unfold handler_report.
      destruct (fst (main cfg e w)); simpl; auto.
      now destruct (telegram_credentials e).
    + rewrite Hres, Hfst. now destruct (telegram e).
  - rewrite (main_without_credentials cfg e w Hc) in Hne. simpl in Hne.
    now destruct Hne.
Qed.

Lemma stored_min_change_attempts_alert_witness :
  exists m st' pre post,
    new_events (one_way 10 11 20) (telegram_down single_search)
      (world_with_min (of_int 650))
    = pre ++ EvSaveState st' :: EvTelegram m :: post /\
    existsb is_alert pre = false /\
    existsb is_alert post = false /\
    min_price st' = Some (msg_total m) /\
    stored_min (run (one_way 10 11 20, telegram_down single_search)
                  (world_with_min (of_int 650)))
    = Some (msg_total m) /\
    fst (script (one_way 10 11 20) (telegram_down single_search)
           (world_with_min (of_int 650)))
    = match telegram (telegram_down single_search) with
      | Ok _ => Ok tt
      | Err ex => Err ex
      end.
Proof.
  apply (stored_min_change_attempts_alert (one_way 10 11 20)
           (telegram_down single_search) (world_with_min (of_int 650))).
  vm_compute. discriminate.
Defined.


(** X10.  Without one of the credentials a run fails at once with
    [RuntimeError]: it takes up no date and issues no request, it does not
    even log that it searches, the state file is as it was, and the error
    is reported like any other. *)
Theorem missing_credential_fails_fast (cfg : config) (e : env) (w : world) :
  telegram_credentials e && amadeus_credentials e = false ->
  fst (script cfg e w) = Err RuntimeError /\
  state_file (snd (script cfg e w)) = state_file w /\
  new_events cfg e w
  = EvLog (LogError RuntimeError)
    :: (if telegram_credentials e then [EvTelegramError RuntimeError]
        else []).
Proof.
  intros Hc. rewrite script_eq, (main_without_credentials cfg e w Hc). simpl.
  repeat split. apply new_events_eq.
  now rewrite script_eq, (main_without_credentials cfg e w Hc).
Qed.

Lemma missing_credential_fails_fast_witness :
  fst (script source_config no_amadeus_env fresh_world) = Err RuntimeError /\
  state_file (snd (script source_config no_amadeus_env fresh_world))
  = state_file fresh_world /\
  new_events source_config no_amadeus_env fresh_world
  = EvLog (LogError RuntimeError)
    :: (if telegram_credentials no_amadeus_env
        then [EvTelegramError RuntimeError] else []).
Proof.
  apply (missing_credential_fails_fast source_config no_amadeus_env
           fresh_world).
  reflexivity.
Defined.

(** ** [to_iso] *)

Lemma split_on_not_nil (sep : N) (s : list N) : split_on sep s <> [].
Proof.
  destruct s as [|c rest]; simpl; [discriminate|].
  destruct (c =? sep)%N; [discriminate|].
  destruct (split_on sep rest); discriminate.
Qed.

Lemma split_on_free (sep : N) (s : list N) :
  free_of sep s -> split_on sep s = [s].
Proof.
  unfold free_of. induction s as [|c rest IH]; simpl; auto.
  intros H. destruct (N.eqb_spec c sep) as [->|Hne].
  - exfalso. apply H. now left.
  - rewrite IH; auto.
Qed.

Lemma split_on_app (sep : N) (a rest : list N) :
  free_of sep a ->
  split_on sep (a ++ sep :: rest) = a :: split_on sep rest.
Proof.
  unfold free_of. induction a as [|c a IH]; simpl; intros H.
  - now rewrite N.eqb_refl.
  - destruct (N.eqb_spec c sep) as [->|Hne].
    + exfalso. apply H. now left.
    + rewrite IH; auto.
Qed.

Lemma split_on_length (sep : N) (s : list N) :
  List.length (split_on sep s) = S (occurrences sep s).
Proof.
  unfold occurrences. induction s as [|c rest IH]; simpl; auto.
  rewrite (N.eqb_sym sep c). destruct (c =? sep)%N; simpl.
  - now rewrite IH.
  - destruct (split_on sep rest) as [|part parts] eqn:Hs.
    + now destruct (split_on_not_nil sep rest).
    + simpl in *. exact IH.
Qed.

Lemma zfill_long (width : nat) (s : list N) :
  (width <= List.length s)%nat -> zfill width s = s.
Proof.
  intros H. unfold zfill.
  replace (width - List.length s)%nat with O by lia. simpl.
  destruct s as [|c rest]; auto. now destruct (_ || _).
Qed.

Lemma digit_not_slash (n : N) : digit n <> SLASH.
Proof. unfold digit, ZERO, SLASH. lia. Qed.

Lemma two_digits_free (n : N) : free_of SLASH (two_digits n).
Proof.
  unfold free_of, two_digits. simpl.
  intros [H | [H | []]]; now apply digit_not_slash in H.
Qed.

Lemma numeral_free (n : N) : free_of SLASH (numeral n).
Proof.
  unfold free_of, numeral. destruct (n <? 10)%N; simpl.
  - intros [H | []]. now apply digit_not_slash in H.
  - intros [H | [H | []]]; now apply digit_not_slash in H.
Qed.

Lemma zfill_two_digits (n : N) : zfill 2 (two_digits n) = two_digits n.
Proof. apply zfill_long. simpl. lia. Qed.

Lemma zfill_numeral (n : N) :
  (n < 100)%N -> zfill 2 (numeral n) = two_digits n.
Proof.
  intros Hn. unfold numeral, two_digits.
  destruct (N.ltb_spec n 10) as [Hlt|Hge].
  - rewrite N.div_small, N.mod_small by lia. unfold zfill. simpl.
    destruct (N.eqb_spec (digit n) PLUS) as [H|_];
      [unfold digit, ZERO, PLUS in H; lia|].
    destruct (N.eqb_spec (digit n) DASH) as [H|_];
      [unfold digit, ZERO, DASH in H; lia|].
    reflexivity.
  - apply zfill_long. simpl. lia.
Qed.

(** X11.  [to_iso] writes a date given as day/month/year in the ISO form
    year-month-day with the month and the day on two digits: a day or a
    month below 10 written with one digit gets a zero in front of it
    ("1/11/2025" gives "2025-11-01"), written with two digits it stays as
    it is ("01/11/2025" gives the same), and the year is copied as it
    is. *)
Theorem to_iso_two_digits (d m : N) (y : list N) :
  (d < 100)%N -> (m < 100)%N -> free_of SLASH y ->
  to_iso (numeral d ++ [SLASH] ++ numeral m ++ [SLASH] ++ y)
  = Some (y ++ [DASH] ++ two_digits m ++ [DASH] ++ two_digits d) /\
  to_iso (two_digits d ++ [SLASH] ++ two_digits m ++ [SLASH] ++ y)
  = Some (y ++ [DASH] ++ two_digits m ++ [DASH] ++ two_digits d).
Proof.
  intros Hd Hm Hy. unfold to_iso. split.
  - cbn [app].
    rewrite (split_on_app SLASH (numeral d)), (split_on_app SLASH (numeral m)),
      (split_on_free SLASH y); auto using numeral_free.
    now rewrite !zfill_numeral.
  - cbn [app].
    rewrite (split_on_app SLASH (two_digits d)),
      (split_on_app SLASH (two_digits m)), (split_on_free SLASH y);
      auto using two_digits_free.
    now rewrite !zfill_two_digits.
Qed.

Lemma to_iso_two_digits_witness :
  to_iso (codes "1/11/2025") = Some (codes "2025-11-01") /\
  to_iso (codes "01/11/2025") = Some (codes "2025-11-01").
Proof.
  apply (to_iso_two_digits 1 11 (codes "2025")).
  - reflexivity.
  - reflexivity.
  - unfold free_of. vm_compute. intuition discriminate.
Defined.

(** X12.  [to_iso] fails exactly on the strings that do not hold two
    slashes; it checks nothing else (a day of 99 or an empty month goes
    through). *)
Theorem to_iso_needs_two_slashes (dmy : list N) :
  to_iso dmy = None <-> occurrences SLASH dmy <> 2%nat.
Proof.
  unfold to_iso. pose proof (split_on_length SLASH dmy) as Hl.
  destruct (split_on SLASH dmy) as [|d [|m [|y [|x parts]]]]; simpl in Hl;
    split; intros H; try discriminate; try lia; auto;
    exfalso; apply H; lia.
Qed.

(** ** The token cache and the retry *)

Lemma cache_hit_Some (now : Z) (tf : option token_cache) (tok : string) :
  cache_hit now tf = Some tok ->
  exists c, tf = Some c /\ access_token c = tok /\
            truthy tok = true /\ now + 60 < expires_at c.
Proof.
  unfold cache_hit. destruct tf as [c|]; [|discriminate].
  destruct (truthy (access_token c)) eqn:Ht; [|discriminate].
  destruct (Z.ltb_spec now (expires_at c - 60)); [|discriminate].
  simpl. intros [= <-]. exists c. repeat split; auto. lia.
Qed.

(** X13.  Whenever [get_amadeus_token] returns a token, the token file
    holds that very token: either the cache was used (then nothing was
    sent, the file is as it was, the token is not empty and is more than
    60 seconds from its expiry), or the token was fetched and cached with
    the expiry [now + expires_in] (0 when the server gives none).  Whenever
    it raises, the token file is as it was. *)
Theorem token_file_holds_returned_token
  (now : Z) (reply : oauth_reply) (tf : option token_cache) :
  match tr_outcome (get_amadeus_token now reply tf) with
  | Returned tok =>
      (tr_events (get_amadeus_token now reply tf) = [] /\
       tr_file (get_amadeus_token now reply tf) = tf /\
       exists c, tf = Some c /\ access_token c = tok /\
                 truthy tok = true /\ now + 60 < expires_at c) \/
      (exists status p c,
         reply = OAuthReply status (Some p) /\
         raises_for_status status = false /\
         p_access_token p = Some tok /\
         c = {| access_token := tok;
                expires_at := now + match p_expires_in p with
                                    | Some n => n
                                    | None => 0
                                    end |} /\
         tr_file (get_amadeus_token now reply tf) = Some c /\
         count_events is_post (tr_events (get_amadeus_token now reply tf))
         = 1%nat)
  | Raised ex =>
      tr_file (get_amadeus_token now reply tf) = tf /\
      count_events is_post (tr_events (get_amadeus_token now reply tf))
      = 1%nat
  end.
Proof.
  unfold get_amadeus_token.
  destruct (cache_hit now tf) as [tok|] eqn:Hhit.
  - simpl. left. repeat split; auto. now apply cache_hit_Some.
  - destruct reply as [|status [p|]]; simpl; auto.
    + destruct (raises_for_status status) eqn:Hr; simpl.
      * split; auto. now destruct (400 <=? status).
      * destruct (p_access_token p) as [tok|] eqn:Hp; simpl.
        -- right. exists status, p. eexists. repeat split; eauto.
           unfold count_events. simpl. now destruct (400 <=? status).
        -- split; auto. now destruct (400 <=? status).
    + destruct (raises_for_status status); simpl; split; auto;
        now destruct (400 <=? status).
Qed.

Lemma get_amadeus_token_fetch
  (now status : Z) (p : oauth_payload) (tok : string)
  (tf : option token_cache) :
  cache_hit now tf = None ->
  raises_for_status status = false ->
  p_access_token p = Some tok ->
  get_amadeus_token now (OAuthReply status (Some p)) tf
  = let c := {| access_token := tok;
                expires_at := now + match p_expires_in p with
                                    | Some n => n
                                    | None => 0
                                    end |} in
    {| tr_outcome := Returned tok; tr_file := Some c;
       tr_events := PostOAuth
                    :: (if 400 <=? status then [LogTokenBody] else [])
                       ++ [WriteToken c] |}.
Proof.
  intros Hmiss Hr Hp. unfold get_amadeus_token.
  now rewrite Hmiss, Hr, Hp.
Qed.

(** X14.  A fetched token is reused exactly while it is not empty and the
    clock is more than 60 seconds before [now + expires_in]: until then the
    next call returns it without asking the server and leaves the file
    alone; from then on the next call asks the server again.  So a token
    that expires in 60 seconds or less, or without [expires_in], is never
    reused. *)
Theorem fetched_token_reuse
  (now : Z) (status : Z) (p : oauth_payload) (tok : string)
  (tf : option token_cache) (later : Z) (reply' : oauth_reply) :
  cache_hit now tf = None ->
  raises_for_status status = false ->
  p_access_token p = Some tok ->
  let first := get_amadeus_token now (OAuthReply status (Some p)) tf in
  let second := get_amadeus_token later reply' (tr_file first) in
  let expires_in := match p_expires_in p with Some n => n | None => 0 end in
  tr_outcome first = Returned tok /\
  if truthy tok && (later <? now + expires_in - 60) then
    tr_outcome second = Returned tok /\
    tr_events second = [] /\
    tr_file second = tr_file first
  else
    count_events is_post (tr_events second) = 1%nat.
Proof.
  intros Hmiss Hr Hp. cbv zeta.
  rewrite (get_amadeus_token_fetch now status p tok tf Hmiss Hr Hp).
  cbn [tr_outcome tr_file]. split; auto.
  unfold get_amadeus_token, cache_hit. cbn [access_token expires_at].
  destruct (truthy tok && _) eqn:Hc; simpl; auto.
  destruct reply' as [|status' [p'|]]; simpl; try reflexivity.
  - destruct (raises_for_status status'); simpl.
    + unfold count_events. simpl. now destruct (400 <=? status').
    + destruct (p_access_token p'); unfold count_events; simpl;
        now destruct (400 <=? status').
  - destruct (raises_for_status status'); unfold count_events; simpl;
      now destruct (400 <=? status').
Qed.

Lemma fetched_token_reuse_witness :
  let first := get_amadeus_token 1000 (OAuthReply 200 (Some fresh_payload))
                 None in
  let second := get_amadeus_token 2000 OAuthNoReply (tr_file first) in
  let expires_in := match p_expires_in fresh_payload with
                    | Some n => n
                    | None => 0
                    end in
  tr_outcome first = Returned "tok2"%string /\
  if truthy "tok2" && (2000 <? 1000 + expires_in - 60) then
    tr_outcome second = Returned "tok2"%string /\
    tr_events second = [] /\
    tr_file second = tr_file first
  else
    count_events is_post (tr_events second) = 1%nat.
Proof.
  apply (fetched_token_reuse 1000 200 fresh_payload "tok2" None 2000
           OAuthNoReply); reflexivity.
Defined.

Lemma finish_request_events (status : Z) (body : option (option (list offer))) :
  count_events is_get (snd (finish_request status body)) = O /\
  count_events is_post (snd (finish_request status body)) = O.
Proof.
  unfold finish_request.
  destruct (raises_for_status status); [|destruct body as [[data|]|]];
    simpl; destruct (400 <=? status); auto.
Qed.

Lemma token_events (now : Z) (reply : oauth_reply) (tf : option token_cache) :
  count_events is_get (tr_events (get_amadeus_token now reply tf)) = O /\
  (count_events is_post (tr_events (get_amadeus_token now reply tf)) <= 1)%nat.
Proof.
  unfold get_amadeus_token.
  destruct (cache_hit now tf); simpl; auto.
  destruct reply as [|status [p|]]; simpl; auto.
  - destruct (raises_for_status status); simpl.
    + unfold count_events. simpl. destruct (400 <=? status); simpl; auto.
    + destruct (p_access_token p); unfold count_events; simpl;
        destruct (400 <=? status); simpl; auto.
  - destruct (raises_for_status status); unfold count_events; simpl;
      destruct (400 <=? status); simpl; auto.
Qed.

Lemma count_events_nil (f : net_event -> bool) : count_events f [] = O.
Proof. reflexivity. Qed.

Lemma count_events_cons (f : net_event -> bool) (ev : net_event)
      (l : list net_event) :
  count_events f (ev :: l)
  = ((if f ev then 1 else 0) + count_events f l)%nat.
Proof.
  unfold count_events. simpl. now destruct (f ev).
Qed.

Lemma count_events_app (f : net_event -> bool) (l1 l2 : list net_event) :
  count_events f (l1 ++ l2) = (count_events f l1 + count_events f l2)%nat.
Proof.
  unfold count_events. now rewrite filter_app, length_app.
Qed.

(** X15.  One call of [do_request] sends one GET, or two: two only when
    the first answer is a 401 and a token could then be obtained, and never
    a third; it asks the OAuth server at most once, and not at all unless
    the first answer is a 401.  Without a 401 the bearer token and the
    token file are as they were. *)
Theorem do_request_retries_once
  (now : Z) (oauth : oauth_reply) (server : nat -> string -> get_reply)
  (headers : string) (tf : option token_cache) :
  let r := do_request_http now oauth server headers tf in
  let unauthorized := match server 0%nat headers with
                      | GetReply status _ => status =? 401
                      | GetNoReply => false
                      end in
  (1 <= count_events is_get (rr_events r) <= 2)%nat /\
  (count_events is_post (rr_events r) <= 1)%nat /\
  (count_events is_get (rr_events r) = 2%nat ->
   unauthorized = true /\
   exists tok, tr_outcome (get_amadeus_token now oauth tf) = Returned tok /\
               rr_headers r = tok) /\
  (unauthorized = false ->
   count_events is_get (rr_events r) = 1%nat /\
   count_events is_post (rr_events r) = O /\
   rr_headers r = headers /\ rr_file r = tf).
Proof.
  cbv zeta. unfold do_request_http.
  destruct (server 0%nat headers) as [|status body].
  - cbn [rr_events rr_headers rr_file].
    rewrite !count_events_cons, !count_events_nil. cbn [is_get is_post].
    repeat split; auto; try lia; discriminate.
  - destruct (status =? 401) eqn:Hs.
    + destruct (token_events now oauth tf) as [Hg Hp].
      destruct (tr_outcome (get_amadeus_token now oauth tf)) as [tok|ex]
        eqn:Ho.
      * destruct (server 1%nat tok) as [|status2 body2];
          cbn [rr_events rr_headers rr_file];
          try destruct (finish_request_events status2 body2) as [Fg Fp];
          rewrite !count_events_cons, !count_events_app,
            !count_events_cons, ?count_events_nil, ?Fg, ?Fp, Hg;
          cbn [is_get is_post]; repeat split; eauto; try lia;
          discriminate.
      * cbn [rr_events rr_headers rr_file].
        rewrite !count_events_cons, Hg. cbn [is_get is_post].
        repeat split; try lia; discriminate.
    + destruct (finish_request_events status body) as [Fg Fp].
      cbn [rr_events rr_headers rr_file].
      rewrite !count_events_cons, Fg, Fp. cbn [is_get is_post].
      repeat split; auto; lia.
Qed.

(** X16.  After a 401 and a token, the outcome of [do_request] is the
    outcome of the second answer alone, whatever it is: in particular a
    second 401 raises [HTTPError 401], and so does any status from 400 to
    599; an answer that is kept without the key ["data"] gives the empty
    list. *)
Theorem retry_outcome_is_final
  (now : Z) (oauth : oauth_reply) (server : nat -> string -> get_reply)
  (headers : string) (tf : option token_cache) (body : option (option (list offer)))
  (tok : string) (status2 : Z) (body2 : option (option (list offer))) :
  server 0%nat headers = GetReply 401 body ->
  tr_outcome (get_amadeus_token now oauth tf) = Returned tok ->
  server 1%nat tok = GetReply status2 body2 ->
  rr_outcome (do_request_http now oauth server headers tf)
  = (if raises_for_status status2 then Raised (HTTPError status2)
     else match body2 with
          | None => Raised JSONDecodeError
          | Some (Some data) => Returned data
          | Some None => Returned []
          end) /\
  rr_headers (do_request_http now oauth server headers tf) = tok.
Proof.
  intros H0 Ht H1. unfold do_request_http. rewrite H0. simpl.
  rewrite Ht, H1. simpl. unfold finish_request.
  destruct (raises_for_status status2); [|destruct body2 as [[data|]|]];
    auto.
Qed.

Lemma retry_outcome_is_final_witness :
  rr_outcome (do_request_http 1000 (OAuthReply 200 (Some fresh_payload))
                always_unauthorized "tok1" None)
  = (if raises_for_status 401 then Raised (HTTPError 401)
     else match @None (option (list offer)) with
          | None => Raised JSONDecodeError
          | Some (Some data) => Returned data
          | Some None => Returned []
          end) /\
  rr_headers (do_request_http 1000 (OAuthReply 200 (Some fresh_payload))
                always_unauthorized "tok1" None)
  = "tok2"%string.
Proof.
  apply (retry_outcome_is_final 1000 (OAuthReply 200 (Some fresh_payload))
           always_unauthorized "tok1" None None "tok2" 401 None);
    reflexivity.
Defined.

(** X17.  The retry does not refresh a cached token that the clock still
    accepts: when the bearer token is the cached one, the cache is not
    empty and more than 60 seconds from its expiry, and the first answer
    is a 401, [do_request] asks the OAuth server nothing and sends the
    second GET with the same token; the token file is as it was. *)
Theorem retry_resends_cached_token
  (now : Z) (oauth : oauth_reply) (server : nat -> string -> get_reply)
  (c : token_cache) (body : option (option (list offer))) :
  truthy (access_token c) = true ->
  now + 60 < expires_at c ->
  server 0%nat (access_token c) = GetReply 401 body ->
  let r := do_request_http now oauth server (access_token c) (Some c) in
  count_events is_post (rr_events r) = O /\
  filter is_get (rr_events r)
  = [GetSearch (access_token c); GetSearch (access_token c)] /\
  rr_headers r = access_token c /\
  rr_file r = Some c.
Proof.
  intros Ht He H0. cbv zeta. unfold do_request_http. rewrite H0. simpl.
  unfold get_amadeus_token, cache_hit. rewrite Ht.
  destruct (Z.ltb_spec now (expires_at c - 60)); [|lia]. simpl.
  destruct (server 1%nat (access_token c)) as [|status2 body2]; simpl.
  - repeat split; auto.
  - destruct (finish_request_events status2 body2) as [Fg Fp].
    unfold count_events in *. repeat split; auto.
    apply length_zero_iff_nil in Fg. now rewrite Fg.
Qed.

Lemma retry_resends_cached_token_witness :
  let r := do_request_http 1000 OAuthNoReply always_unauthorized
             (access_token {| access_token := "tok1"; expires_at := 2000 |})
             (Some {| access_token := "tok1"; expires_at := 2000 |}) in
  count_events is_post (rr_events r) = O /\
  filter is_get (rr_events r)
  = [GetSearch "tok1"; GetSearch "tok1"] /\
  rr_headers r = "tok1"%string /\
  rr_file r = Some {| access_token := "tok1"; expires_at := 2000 |}.
Proof.
  apply (retry_resends_cached_token 1000 OAuthNoReply always_unauthorized
           {| access_token := "tok1"; expires_at := 2000 |} None);
    reflexivity.
Defined.

(** X19.  [do_request] returns offers only from the answer to the last GET
    it sent, and only when that answer has a status outside 400..599 and a
    body that parses: the list under ["data"], or the empty list without
    that key.  That GET carried the bearer token that is left in [headers];
    it is the second one only after a 401. *)
Theorem do_request_returns_last_answer
  (now : Z) (oauth : oauth_reply) (server : nat -> string -> get_reply)
  (headers : string) (tf : option token_cache) (data : list offer) :
  let r := do_request_http now oauth server headers tf in
  rr_outcome r = Returned data ->
  exists (k : nat) (status : Z) (body : option (list offer)),
    server k (rr_headers r) = GetReply status (Some body) /\
    raises_for_status status = false /\
    data = match body with Some d => d | None => [] end /\
    S k = count_events is_get (rr_events r) /\
    (k = O \/
     k = 1%nat /\ exists body0, server O headers = GetReply 401 body0).
Proof.
  cbv zeta. unfold do_request_http.
  destruct (server 0%nat headers) as [|status body] eqn:H0;
    [discriminate|].
  destruct (status =? 401) eqn:Hs.
  - apply Z.eqb_eq in Hs. subst status.
    destruct (token_events now oauth tf) as [Hg _].
    destruct (tr_outcome (get_amadeus_token now oauth tf)) as [tok|ex]
      eqn:Ho; [|discriminate].
    destruct (server 1%nat tok) as [|status2 body2] eqn:H1;
      [discriminate|].
    cbn [rr_outcome rr_headers rr_events].
    destruct (finish_request_events status2 body2) as [Fg _].
    rewrite !count_events_cons, !count_events_app, !count_events_cons,
      Hg, Fg. cbn [is_get].
    unfold finish_request.
    destruct (raises_for_status status2) eqn:Hr; [discriminate|].
    destruct body2 as [[d|]|]; cbn [fst]; intros [= <-].
    + exists 1%nat, status2, (Some d). repeat split; eauto.
    + exists 1%nat, status2, None. repeat split; eauto.
  - cbn [rr_outcome rr_headers rr_events].
    destruct (finish_request_events status body) as [Fg _].
    rewrite !count_events_cons, Fg. cbn [is_get].
    unfold finish_request.
    destruct (raises_for_status status) eqn:Hr; [discriminate|].
    destruct body as [[d|]|]; cbn [fst]; intros [= <-].
    + exists O, status, (Some d). repeat split; eauto.
    + exists O, status, None. repeat split; eauto.
Qed.

Lemma do_request_returns_last_answer_witness :
  let r := do_request_http 1000 (OAuthReply 200 (Some fresh_payload))
             unauthorized_then_ok "tok1" None in
  exists (k : nat) (status : Z) (body : option (list offer)),
    unauthorized_then_ok k (rr_headers r) = GetReply status (Some body) /\
    raises_for_status status = false /\
    [offer_5] = match body with Some d => d | None => [] end /\
    S k = count_events is_get (rr_events r) /\
    (k = O \/
     k = 1%nat /\
     exists body0, unauthorized_then_ok O "tok1" = GetReply 401 body0).
Proof.
  apply (do_request_returns_last_answer 1000
           (OAuthReply 200 (Some fresh_payload)) unauthorized_then_ok
           "tok1" None [offer_5]).
  reflexivity.
Defined.

(** ** The carriers *)

Lemma code_eqb_eq (a b : carrier_code) : code_eqb a b = true <-> a = b.
Proof.
  destruct a as [s| |n], b as [t| |m]; simpl; split;
    try discriminate; try reflexivity.
  - intros H. apply String.eqb_eq in H. now subst.
  - intros [= ->]. apply String.eqb_refl.
  - intros H. apply Z.eqb_eq in H. now subst.
  - intros [= ->]. apply Z.eqb_refl.
Qed.

Lemma set_add_In (code c : carrier_code) (l : list carrier_code) :
  In c (set_add code l) <-> In c l \/ c = code.
Proof.
  unfold set_add. destruct (existsb (code_eqb code) l) eqn:Hex.
  - apply existsb_exists in Hex as (x & Hx & Heq).
    apply code_eqb_eq in Heq. subst x. split; auto.
    intros [H | ->]; auto.
  - rewrite in_app_iff. simpl. intuition (subst; auto).
Qed.

Lemma set_add_NoDup (code : carrier_code) (l : list carrier_code) :
  NoDup l -> NoDup (set_add code l).
Proof.
  intros Hnd. unfold set_add.
  destruct (existsb (code_eqb code) l) eqn:Hex; auto.
  apply NoDup_app; auto.
  - constructor; [intros [] | constructor].
  - intros x Hx [Heq | []]. subst x.
    assert (existsb (code_eqb code) l = true); [|congruence].
    apply existsb_exists. exists code. split; auto. now apply code_eqb_eq.
Qed.

Lemma add_segments_spec (segs : list (option carrier_code))
      (acc : list carrier_code) :
  (forall c, In c (fst (add_segments segs acc))
             <-> In c acc \/ In c (codes_before_failure segs)) /\
  (NoDup acc -> NoDup (fst (add_segments segs acc))) /\
  (snd (add_segments segs acc) = true ->
   forall rest, codes_before_failure (segs ++ rest)
                = codes_before_failure segs ++ codes_before_failure rest) /\
  (snd (add_segments segs acc) = false ->
   forall rest, codes_before_failure (segs ++ rest)
                = codes_before_failure segs).
Proof.
  revert acc. induction segs as [|[code|] segs IH]; intros acc; simpl.
  - repeat split; auto; try discriminate. intros [H | []]; auto.
  - destruct (IH (set_add code acc)) as (Hin & Hnd & Ht & Hf).
    repeat split.
    + intros H. apply Hin in H as [H | H]; auto.
      apply set_add_In in H as [H | ->]; auto.
    + intros [H | [<- | H]]; apply Hin; auto; left; apply set_add_In; auto.
    + intros H. apply Hnd. now apply set_add_NoDup.
    + intros H rest. now rewrite Ht.
    + intros H rest. now rewrite Hf.
  - repeat split; auto; try discriminate. intros [H | []]; auto.
Qed.

Lemma add_itineraries_spec (its : list (option (list (option carrier_code))))
      (acc : list carrier_code) :
  (forall c, In c (fst (add_itineraries its acc))
             <-> In c acc \/ In c (codes_before_failure (lookups its))) /\
  (NoDup acc -> NoDup (fst (add_itineraries its acc))).
Proof.
  revert acc. induction its as [|[segs|] its IH]; intros acc; simpl.
  - split; auto. intros c. split; auto. intros [H | []]; auto.
  - destruct (add_segments_spec segs acc) as (Hin & Hnd & Ht & Hf).
    destruct (add_segments segs acc) as [acc' ok]. simpl in *.
    destruct ok.
    + destruct (IH acc') as (Hin' & Hnd'). split; auto.
      intros c. rewrite Hin', Hin, Ht, in_app_iff by reflexivity. tauto.
    + simpl. split; auto. intros c. now rewrite Hin, Hf.
  - split; auto. intros c. split; auto. intros [H | []]; auto.
Qed.

(** The set of [main] holds the codes read, each once. *)
Lemma carriers_spec (offer : offer) :
  (forall c, In c (carriers offer) <-> In c (codes_read offer)) /\
  NoDup (carriers offer).
Proof.
  unfold carriers, codes_read.
  destruct (o_itineraries offer) as [its|]; simpl.
  - destruct (add_itineraries_spec its []) as [Hin Hnd]. split.
    + intros c. rewrite Hin. simpl. tauto.
    + apply Hnd. constructor.
  - split; [tauto|constructor].
Qed.

Lemma strings_of_Some (codes : list carrier_code) (l : list string) :
  strings_of codes = Some l ->
  forallb is_str codes = true /\
  (forall s, In s l <-> In (CodeStr s) codes) /\
  (NoDup codes -> NoDup l).
Proof.
  revert l. induction codes as [|[s| |n] codes IH]; intros l; simpl;
    try discriminate.
  - intros [= <-]. repeat split; auto; try tauto. constructor.
  - destruct (strings_of codes) as [l'|]; [|discriminate].
    intros [= <-]. destruct (IH l' eq_refl) as (Hall & Hin & Hnd).
    repeat split; auto.
    + intros [<- | H]; auto. right. now apply Hin.
    + intros [[= <-] | H]; [now left|]. right. now apply Hin.
    + intros H. inversion H as [|? ? Hnot Hnd']; subst.
      constructor; auto. intros Hs. apply Hnot. now apply Hin.
Qed.

Lemma strings_of_None (codes : list carrier_code) :
  strings_of codes = None -> exists c, In c codes /\ is_str c = false.
Proof.
  induction codes as [|[s| |n] codes IH]; simpl; try discriminate.
  - destruct (strings_of codes); [discriminate|].
    intros _. destruct (IH eq_refl) as (c & Hc & Hs). eauto.
  - intros _. exists CodeNull. auto.
  - intros _. exists (CodeNum n). auto.
Qed.

Lemma ascii_compare_lt_trans (a b c : Ascii.ascii) :
  Ascii.compare a b = Lt -> Ascii.compare b c = Lt -> Ascii.compare a c = Lt.
Proof.
  unfold Ascii.compare. rewrite !N.compare_lt_iff. apply N.lt_trans.
Qed.

Lemma string_compare_lt_trans (s1 s2 s3 : string) :
  String.compare s1 s2 = Lt -> String.compare s2 s3 = Lt ->
  String.compare s1 s3 = Lt.
Proof.
  revert s2 s3. induction s1 as [|a s1 IH]; intros [|b s2] [|c s3]; simpl;
    try discriminate; auto.
  destruct (Ascii.compare a b) eqn:Hab; try discriminate;
    destruct (Ascii.compare b c) eqn:Hbc; try discriminate; intros H1 H2.
  - apply Ascii.compare_eq_iff in Hab, Hbc. subst.
    unfold Ascii.compare. rewrite N.compare_refl. eauto.
  - apply Ascii.compare_eq_iff in Hab. subst. now rewrite Hbc.
  - apply Ascii.compare_eq_iff in Hbc. subst. now rewrite Hab.
  - now rewrite (ascii_compare_lt_trans a b c).
Qed.

Lemma str_lt_trans (a b c : string) : str_lt a b -> str_lt b c -> str_lt a c.
Proof.
  unfold str_lt, String.ltb.
  destruct (String.compare a b) eqn:Hab; try discriminate.
  destruct (String.compare b c) eqn:Hbc; try discriminate.
  now rewrite (string_compare_lt_trans a b c).
Qed.

Lemma str_lt_of_leb (a b : string) :
  (a <=? b)%string = true -> a <> b -> str_lt a b.
Proof.
  unfold str_lt, String.leb, String.ltb.
  destruct (String.compare a b) eqn:H; try discriminate; auto.
  apply String.compare_eq_iff in H. contradiction.
Qed.

Lemma str_lt_of_not_leb (a b : string) :
  (a <=? b)%string = false -> str_lt b a.
Proof.
  unfold str_lt, String.leb, String.ltb.
  rewrite (String.compare_antisym b a).
  now destruct (String.compare a b).
Qed.

Lemma insert_sorted_In (s c : string) (l : list string) :
  In c (insert_sorted s l) <-> c = s \/ In c l.
Proof.
  induction l as [|x l IH]; simpl.
  - split; intros [H | H]; auto.
  - destruct (s <=? x)%string; simpl; rewrite ?IH;
      intuition (subst; auto).
Qed.

Lemma insert_sorted_sorted (s : string) (l : list string) :
  ~ In s l -> StronglySorted str_lt l ->
  StronglySorted str_lt (insert_sorted s l).
Proof.
  intros Hnot Hs. induction Hs as [|x l Hs IH Hall]; simpl.
  - repeat constructor.
  - destruct (s <=? x)%string eqn:Hle.
    + assert (Hsx : str_lt s x).
      { apply str_lt_of_leb; auto. intros ->. apply Hnot. now left. }
      constructor; [now constructor|].
      constructor; auto.
      rewrite Forall_forall in *. intros y Hy.
      apply (str_lt_trans s x y); auto.
    + constructor.
      * apply IH. intros H. apply Hnot. now right.
      * rewrite Forall_forall in *. intros y Hy.
        apply insert_sorted_In in Hy as [-> | Hy]; auto.
        now apply str_lt_of_not_leb.
Qed.

Lemma sorted_In (c : string) (l : list string) : In c (sorted l) <-> In c l.
Proof.
  unfold sorted. induction l as [|x l IH]; simpl; [tauto|].
  rewrite insert_sorted_In, IH. intuition.
Qed.

Lemma sorted_strict (l : list string) :
  NoDup l -> StronglySorted str_lt (sorted l).
Proof.
  unfold sorted. induction 1 as [|x l Hnot Hnd IH]; simpl.
  - constructor.
  - apply insert_sorted_sorted; auto.
    intros H. apply Hnot. exact (proj1 (sorted_In x l) H).
Qed.

(** A code that is not a string among the codes read makes line 212
    raise. *)
Lemma carriers_str_not_str (offer : offer) (c : carrier_code) :
  In c (codes_read offer) -> is_str c = false ->
  carriers_str offer = Err TypeError.
Proof.
  intros Hin Hs. destruct (carriers_spec offer) as [Hc _].
  apply Hc in Hin. unfold carriers_str.
  destruct (carriers offer) as [|c0 cs] eqn:Hcs; [destruct Hin|].
  destruct (strings_of (c0 :: cs)) as [l|] eqn:Hl; auto.
  apply strings_of_Some in Hl as (Hall & _ & _).
  rewrite forallb_forall in Hall. rewrite (Hall c Hin) in Hs.
  discriminate Hs.
Qed.

(** X18.  What line 212 makes of the carrier codes that were read, that
    is, the codes that come before the first lookup that raises (a missing
    ["segments"] or ["carrierCode"] stops the reading and keeps the codes
    read before it).  When one of them is not a string ([null], a number),
    the line raises [TypeError]: it is outside the [try].  Otherwise the
    text is ["N/D"] when no code was read, and else the strings read, each
    once, in strictly ascending order, joined by [", "]. *)
Theorem carriers_read_before_failure (offer : offer) :
  match carriers_str offer with
  | Err ex =>
      ex = TypeError /\
      exists c, In c (codes_read offer) /\ is_str c = false
  | Ok text =>
      forallb is_str (codes_read offer) = true /\
      exists l,
        (forall s, In s l <-> In (CodeStr s) (codes_read offer)) /\
        StronglySorted str_lt l /\
        text = match codes_read offer with
               | [] => "N/D"%string
               | _ :: _ => String.concat ", " l
               end
  end.
Proof.
  destruct (carriers_spec offer) as [Hin Hnd].
  unfold carriers_str.
  destruct (carriers offer) as [|c cs] eqn:Hc.
  - assert (Hr : codes_read offer = []).
    { destruct (codes_read offer) as [|r rs]; auto.
      destruct (proj2 (Hin r)). now left. }
    rewrite Hr. split; auto. exists []. repeat split; auto; try tauto.
    constructor.
  - destruct (strings_of (c :: cs)) as [l|] eqn:Hs.
    + apply strings_of_Some in Hs as (Hall & Hl & Hndl).
      split.
      * apply forallb_forall. intros x Hx. apply Hin in Hx.
        rewrite forallb_forall in Hall. auto.
      * exists (sorted l). split; [|split].
        -- intros s. rewrite sorted_In, Hl. apply Hin.
        -- apply sorted_strict. auto.
        -- destruct (codes_read offer) as [|r rs] eqn:Hr; auto.
           destruct (proj1 (Hin c)). now left.
    + apply strings_of_None in Hs as (x & Hx & Hstr).
      split; auto. exists x. split; auto. now apply Hin.
Qed.

Example carriers_str_broken_segment :
  carriers_str offer_broken_segment = Ok "AR, IB"%string.
Proof. reflexivity. Qed.

Example carriers_str_null_carrier :
  carriers_str offer_null_carrier = Err TypeError.
Proof. reflexivity. Qed.

(** ** When the state is saved *)



Lemma search_no_alert (l : list event) :
  forallb is_search_event l = true -> existsb is_alert l = false.
Proof.
  induction l as [|ev l IH]; simpl; auto.
  intros H. apply andb_prop in H. destruct H as [H1 H2].
  rewrite (IH H2). now destruct ev.
Qed.

(** X22.  A carrier code that is not a string costs the run its alert and
    its state: when the offer that the search selects has a total that
    parses and one of the carrier codes read from it is [null] or a number,
    the run fails with [TypeError] before it loads the state, whatever the
    price is: the state file is as it was, nothing loads or saves the
    state, and [send_telegram] is not called. *)
Theorem bad_carrier_code_fails_run
  (cfg : config) (e : env) (w : world) (offer : offer) (w1 : world)
  (total_price : pyfloat) (c : carrier_code) :
  telegram_credentials e && amadeus_credentials e = true ->
  buscar_mejor_precio_amadeus cfg e (logged LogBuscando w)
  = (Ok (Some offer), w1) ->
  o_total offer = Some total_price ->
  In c (codes_read offer) ->
  is_str c = false ->
  fst (script cfg e w) = Err TypeError /\
  state_file (snd (script cfg e w)) = state_file w /\
  existsb is_state_event (new_events cfg e w) = false /\
  existsb is_alert (new_events cfg e w) = false.
Proof.
  intros Hc Hb Ht Hin Hs.
  pose proof (carriers_str_not_str offer c Hin Hs) as Hcs.
  destruct (buscar_state cfg e _ _ _ Hb) as (Hsf & trb & Htr & Hsearch).
  simpl in Hsf, Htr.
  assert (Hm : main cfg e w = (Err TypeError, w1)).
  { rewrite (main_eq cfg e w Hc), Hb. simpl. now rewrite Ht, Hcs. }
  assert (Hnew : new_events cfg e w
                 = EvLog LogBuscando :: trb
                   ++ EvLog (LogError TypeError)
                      :: (if telegram_credentials e
                          then [EvTelegramError TypeError] else [])).
  { apply new_events_eq. rewrite script_eq, Hm. simpl. rewrite Htr.
    now rewrite <- !app_assoc. }
  rewrite script_eq, Hm, Hnew. simpl. repeat split; auto.
  - rewrite existsb_app, (search_not_state_events _ Hsearch). simpl.
    now destruct (telegram_credentials e).
  - rewrite existsb_app, (search_no_alert _ Hsearch). simpl.
    now destruct (telegram_credentials e).
Qed.

Lemma bad_carrier_code_fails_run_witness :
  fst (script (one_way 10 11 20) (mk_env null_carrier_search)
         (world_with_min (of_int 650))) = Err TypeError /\
  state_file (snd (script (one_way 10 11 20) (mk_env null_carrier_search)
                     (world_with_min (of_int 650))))
  = state_file (world_with_min (of_int 650)) /\
  existsb is_state_event
    (new_events (one_way 10 11 20) (mk_env null_carrier_search)
       (world_with_min (of_int 650))) = false /\
  existsb is_alert
    (new_events (one_way 10 11 20) (mk_env null_carrier_search)
       (world_with_min (of_int 650))) = false.
Proof.
  apply (bad_carrier_code_fails_run (one_way 10 11 20)
           (mk_env null_carrier_search) (world_with_min (of_int 650))
           (tag_best (one_way 10 11 20) offer_null_carrier)
           (snd (buscar_mejor_precio_amadeus (one_way 10 11 20)
                   (mk_env null_carrier_search)
                   (logged LogBuscando (world_with_min (of_int 650)))))
           (of_int 5) CodeNull).
  - reflexivity.
  - vm_compute. reflexivity.
  - reflexivity.
  - vm_compute. auto.
  - reflexivity.
Defined.

(** ** The requests of a run, call by call and GET by GET *)

Lemma do_request_http_gets
  (now : Z) (oauth : oauth_reply) (server : nat -> string -> get_reply)
  (headers : string) (tf : option token_cache) :
  (1 <= count_events is_get
          (rr_events (do_request_http now oauth server headers tf)) <= 2)%nat.
Proof.
  unfold do_request_http.
  destruct (server 0%nat headers) as [|status body].
  - cbn [rr_events]. rewrite count_events_cons, count_events_nil.
    cbn [is_get]. lia.
  - destruct (status =? 401).
    + destruct (token_events now oauth tf) as [Hg _].
      destruct (tr_outcome (get_amadeus_token now oauth tf)) as [tok|ex].
      * destruct (server 1%nat tok) as [|status2 body2];
          cbn [rr_events];
          try destruct (finish_request_events status2 body2) as [Fg _];
          rewrite !count_events_cons, !count_events_app,
            !count_events_cons, ?count_events_nil, ?Fg, Hg;
          cbn [is_get]; lia.
      * cbn [rr_events]. rewrite count_events_cons, Hg. cbn [is_get]. lia.
    + destruct (finish_request_events status body) as [Fg _].
      cbn [rr_events]. rewrite count_events_cons, Fg. cbn [is_get]. lia.
Qed.

Lemma gets_sent_bounds (execs : list request_result) :
  Forall http_execution execs ->
  (List.length execs <= gets_sent execs <= 2 * List.length execs)%nat.
Proof.
  unfold gets_sent. induction 1 as [|r execs Hr _ IH]; simpl.
  - rewrite count_events_nil. lia.
  - rewrite count_events_app. destruct Hr as [t oauth server headers tf].
    pose proof (do_request_http_gets t oauth server headers tf). lia.
Qed.

(** X1.  A run calls [do_request] at most as many times as the days that
    the cap and the window leave, times the calls of one day (one for a
    one-way search, one per number of nights for a round trip), whatever
    the calls give.  Each call sends one GET, or two after a 401: whatever
    the calls of a run do at the HTTP level, the run sends at least one GET
    per call and at most twice that bound. *)
Theorem run_request_budget
  (cfg : config) (e : env) (w : world) (execs : list request_result) :
  List.length execs = List.length (requests_of (new_events cfg e w)) ->
  Forall http_execution execs ->
  (List.length (requests_of (new_events cfg e w))
   <= days_searched cfg * requests_per_date cfg)%nat /\
  (List.length (requests_of (new_events cfg e w)) <= gets_sent execs)%nat /\
  (gets_sent execs <= 2 * (days_searched cfg * requests_per_date cfg))%nat.
Proof.
  intros Hlen Hex.
  pose proof (run_call_budget cfg e w) as Hcalls.
  pose proof (gets_sent_bounds execs Hex) as Hgets.
  rewrite Hlen in Hgets. lia.
Qed.

Lemma run_request_budget_witness :
  (List.length (requests_of (new_events (one_way 10 11 20)
                               (mk_env single_search) fresh_world))
   <= days_searched (one_way 10 11 20)
      * requests_per_date (one_way 10 11 20))%nat /\
  (List.length (requests_of (new_events (one_way 10 11 20)
                               (mk_env single_search) fresh_world))
   <= gets_sent
        [do_request_http 1000 (OAuthReply 200 (Some fresh_payload))
           unauthorized_then_ok "tok1" None;
         do_request_http 1001 OAuthNoReply always_empty "tok2" None])%nat /\
  (gets_sent
     [do_request_http 1000 (OAuthReply 200 (Some fresh_payload))
        unauthorized_then_ok "tok1" None;
      do_request_http 1001 OAuthNoReply always_empty "tok2" None]
   <= 2 * (days_searched (one_way 10 11 20)
           * requests_per_date (one_way 10 11 20)))%nat.
Proof.
  apply (run_request_budget (one_way 10 11 20) (mk_env single_search)
           fresh_world
           [do_request_http 1000 (OAuthReply 200 (Some fresh_payload))
              unauthorized_then_ok "tok1" None;
            do_request_http 1001 OAuthNoReply always_empty "tok2" None]).
  - reflexivity.
  - repeat constructor.
Defined.
